(** * Font creator: stroke geometry, kerning, layout and undo history

  A shallow embedding of the font-creator controller
  ([FontCreatorController]) and the properties its specification states.

  JavaScript numbers are IEEE-754 binary64 values; they are modelled by
  Rocq's primitive floats, whose [+ - * / sqrt abs] and comparisons are the
  same correctly rounded operations.  [x ** 2] is rendered as [x * x].
  JavaScript strings are sequences of UTF-16 code units. *)

From Stdlib Require Import String Ascii DecimalString.
From Stdlib Require Import QArith Field.
From Stdlib Require Import List ZArith NArith Floats Lia Bool.
Import ListNotations.

Set Warnings "-inexact-float".
#[local] Open Scope float_scope.

(* ================================================================== *)
(** ** JavaScript numbers *)

Module Num.

Definition number := float.

(** [a > b] of the source, next to [<?] and [<=?]. *)
Definition gtb (a b : number) : bool := b <? a.

(** [x ** 2]. *)
Definition sq (x : number) : number := x * x.

(** [Math.max(a, b)]: NaN when an argument is NaN, and [+0] counts as
    larger than [-0]. *)
Definition Math_max (a b : number) : number :=
  if is_nan a || is_nan b then nan
  else if a <? b then b
  else if b <? a then a
  else if get_sign a then b else a.

(** An array length or index used as a number. *)
Definition of_nat (n : nat) : number := of_uint63 (Uint63.of_Z (Z.of_nat n)).

Definition PI : number := 0x1.921fb54442d18p+1.

(** The sum of a list of numbers, added from the left starting at 0, as a
    loop [for (...) total += x] accumulates it. *)
Definition fsum (l : list number) : number := fold_left PrimFloat.add l 0.

End Num.
Import Num.

Notation "a >? b" := (Num.gtb a b) (at level 70, no associativity) : float_scope.

(** Order facts of binary64 comparison, from the specification of the
    primitive operations ([SFcompare] on sign, exponent and mantissa). *)
Module NumFacts.

(** All the cases of the signs of [a], [b] (and [c]); the cases left are
    two finite numbers of the same sign. *)
Ltac by_sign :=
  simpl;
  repeat match goal with s : bool |- _ => destruct s end;
  simpl; try congruence.

(** Two finite numbers of the same sign compared both ways. *)
Ltac both_ways ea eb ma mb :=
  rewrite (Z.compare_antisym ea eb);
  destruct (Z.compare_spec ea eb); simpl; try congruence;
  change (Pos.compare_cont Eq ?x ?y) with (Pos.compare x y);
  rewrite (Pos.compare_antisym ma mb);
  destruct (Pos.compare ma mb); simpl; congruence.

(** Three finite numbers of the same sign. *)
Ltac three_way ea eb ec ma mb mc :=
  destruct (Z.compare_spec ea eb), (Z.compare_spec eb ec),
    (Z.compare_spec ea ec); try congruence; try lia; subst;
  change (Pos.compare_cont Eq ?x ?y) with (Pos.compare x y);
  destruct (Pos.compare_spec ma mb), (Pos.compare_spec mb mc),
    (Pos.compare_spec ma mc); simpl; try congruence; lia.

Lemma SFltb_trans (a b c : spec_float) :
  SFltb a b = true -> SFltb b c = true -> SFltb a c = true.
Proof.
  unfold SFltb.
  destruct a as [sa| sa | |sa ma ea], b as [sb| sb | |sb mb eb],
           c as [sc| sc | |sc mc ec]; by_sign;
    three_way ea eb ec ma mb mc.
Qed.

(** [<] is transitive, NaN included (it is below and above nothing). *)
Lemma ltb_trans (a b c : float) :
  (a <? b) = true -> (b <? c) = true -> (a <? c) = true.
Proof. rewrite !ltb_spec. apply SFltb_trans. Qed.

Lemma SFleb_not_ltb (a b : spec_float) :
  SFleb a b = true -> SFltb b a = false.
Proof.
  unfold SFleb, SFltb.
  destruct a as [sa| sa | |sa ma ea], b as [sb| sb | |sb mb eb]; by_sign;
    both_ways ea eb ma mb.
Qed.

Lemma leb_not_ltb (a b : float) : (a <=? b) = true -> (b <? a) = false.
Proof. rewrite leb_spec, ltb_spec. apply SFleb_not_ltb. Qed.

Lemma SFeqb_not_nan (a : spec_float) :
  SFeqb a a = true -> a <> S754_nan.
Proof. intros H E. subst. discriminate. Qed.

Lemma SFnot_ltb_leb (a b : spec_float) :
  a <> S754_nan -> b <> S754_nan -> SFltb a b = false -> SFleb b a = true.
Proof.
  unfold SFleb, SFltb.
  destruct a as [sa| sa | |sa ma ea], b as [sb| sb | |sb mb eb]; by_sign;
    intros _ _; both_ways ea eb ma mb.
Qed.

(** Between two numbers that are not NaN, [not (a < b)] is [b <= a]. *)
Lemma not_ltb_leb (a b : float) :
  is_nan a = false -> is_nan b = false -> (a <? b) = false -> (b <=? a) = true.
Proof.
  unfold is_nan. intros Ha Hb.
  apply negb_false_iff in Ha, Hb. rewrite FloatAxioms.eqb_spec in Ha, Hb.
  rewrite ltb_spec, leb_spec.
  apply SFnot_ltb_leb; now apply SFeqb_not_nan.
Qed.

End NumFacts.

(* ================================================================== *)
(** ** Strokes and their simplification (Douglas-Peucker) *)

Module Stroke.

Record Point := mkPoint { px : number; py : number }.

Definition Stroke := list Point.

(** [calculateDistanceToLine(point, lineStart, lineEnd)]. *)
Definition calculateDistanceToLine (point lineStart lineEnd : Point) : number :=
  let dx := px lineEnd - px lineStart in
  let dy := py lineEnd - py lineStart in
  let mag := sqrt (dx * dx + dy * dy) in
  if mag =? 0 then
    sqrt (sq (px point - px lineStart) + sq (py point - py lineStart))
  else
    let u := ((px point - px lineStart) * dx + (py point - py lineStart) * dy)
             / (mag * mag) in
    let closestX := px lineStart + u * dx in
    let closestY := py lineStart + u * dy in
    sqrt (sq (px point - closestX) + sq (py point - closestY)).

(** The scan [for (let i = 1; i < points.length - 1; i++)] of
    [douglasPeucker]: [pts] are the points still to visit, [i] the index of
    the first of them, [(maxDist, maxIndex)] the running maximum. *)
Fixpoint farthest (start end_ : Point) (pts : list Point) (i : nat)
    (maxDist : number) (maxIndex : nat) : number * nat :=
  match pts with
  | [] => (maxDist, maxIndex)
  | p :: rest =>
      let dist := calculateDistanceToLine p start end_ in
      if dist >? maxDist then farthest start end_ rest (S i) dist i
      else farthest start end_ rest (S i) maxDist maxIndex
  end.

(** [douglasPeucker(points, tolerance)].  The source recurses on slices of
    [points]; [fuel] bounds the depth of the recursion and [None] says that
    the bound was reached.  [points.slice(0, k)] is [firstn k],
    [points.slice(k)] is [skipn k] and [left.slice(0, -1)] is
    [removelast]. *)
Fixpoint douglasPeucker (fuel : nat) (points : list Point) (tolerance : number)
    : option (list Point) :=
  match fuel with
  | O => None
  | S fuel' =>
      match points with
      | start :: ((_ :: _ :: _) as rest) =>
          let end_ := last rest start in
          let '(maxDist, maxIndex) :=
            farthest start end_ (removelast rest) 1 0 0%nat in
          if maxDist >? tolerance then
            match douglasPeucker fuel' (firstn (maxIndex + 1) points) tolerance with
            | None => None
            | Some left_ =>
                match douglasPeucker fuel' (skipn maxIndex points) tolerance with
                | None => None
                | Some right_ => Some (removelast left_ ++ right_)
                end
            end
          else Some [start; end_]
      | _ => Some points
      end
  end.

(** [simplifyPath(points, tolerance)].  A recursion on a list of [n >= 3]
    points that splits at an interior index is at most [n - 1] calls deep,
    so [length points] is fuel enough (see [douglasPeucker_terminates]). *)
Definition simplifyPath (points : list Point) (tolerance : number)
    : option (list Point) :=
  if (length points <? 3)%nat then Some points
  else douglasPeucker (length points) points tolerance.

End Stroke.

Module StrokeFacts.
Import Stroke.

Lemma nth_error_Some_lt {A} (l : list A) (n : nat) (x : A) :
  nth_error l n = Some x -> (n < length l)%nat.
Proof. intros H. apply nth_error_Some. congruence. Qed.

(** The scan returns its initial pair or the distance and index of one of
    the visited points. *)
Lemma farthest_result (s e : Point) (pts : list Point) :
  forall i d k,
    farthest s e pts i d k = (d, k) \/
    exists j p, nth_error pts j = Some p /\
                farthest s e pts i d k = (calculateDistanceToLine p s e, (i + j)%nat).
Proof.
  induction pts as [|q pts IH]; intros i d k; simpl.
  - now left.
  - destruct (calculateDistanceToLine q s e >? d).
    + right. destruct (IH (S i) (calculateDistanceToLine q s e) i)
        as [H | (j & p & Hj & H)].
      * exists 0%nat, q. rewrite H, Nat.add_0_r. now split.
      * exists (S j), p. rewrite H. split; [exact Hj | f_equal; lia].
    + destruct (IH (S i) d k) as [H | (j & p & Hj & H)].
      * now left.
      * right. exists (S j), p. rewrite H. split; [exact Hj | f_equal; lia].
Qed.

(** When the scan reports a distance above a tolerance that is not
    negative, the index it reports is that of a visited point. *)
Lemma farthest_index (s e : Point) (pts : list Point) (tol d : number) (m : nat) :
  (tol <? 0) = false ->
  farthest s e pts 1 0 0%nat = (d, m) ->
  (d >? tol) = true ->
  (1 <= m <= length pts)%nat.
Proof.
  intros Htol Hf Hd.
  destruct (farthest_result s e pts 1 0 0%nat) as [H | (j & p & Hj & H)];
    rewrite Hf in H; inversion H; subst.
  - unfold gtb in Hd. congruence.
  - apply nth_error_Some_lt in Hj. lia.
Qed.

Lemma length_removelast_cons {A} (a : A) (l : list A) :
  length (removelast (a :: l)) = length l.
Proof.
  rewrite removelast_firstn_len, length_firstn. simpl. lia.
Qed.

(** Fuel beyond what a call needs does not change its result. *)
Lemma douglasPeucker_fuel_mono (tol : number) :
  forall fuel fuel' points r,
    douglasPeucker fuel points tol = Some r ->
    (fuel <= fuel')%nat ->
    douglasPeucker fuel' points tol = Some r.
Proof.
  induction fuel as [|fuel IH]; intros fuel' points r H Hle; [discriminate|].
  destruct fuel' as [|fuel']; [lia|].
  simpl in *.
  destruct points as [|start [|a [|b tl]]]; try exact H.
  destruct (farthest start _ _ 1 0 0%nat) as [maxDist maxIndex].
  destruct (maxDist >? tol); [|exact H].
  destruct (douglasPeucker fuel (firstn _ _) tol) as [l|] eqn:El; [|discriminate].
  destruct (douglasPeucker fuel (skipn _ _) tol) as [r'|] eqn:Er; [|discriminate].
  rewrite (IH fuel' _ _ El), (IH fuel' _ _ Er) by lia. exact H.
Qed.

(** The result keeps at least two points of a chain that has two. *)
Lemma douglasPeucker_length_ge2 (tol : number) :
  forall fuel points r,
    douglasPeucker fuel points tol = Some r ->
    (2 <= length points)%nat -> (2 <= length r)%nat.
Proof.
  induction fuel as [|fuel IH]; intros points r H Hlen; [discriminate|].
  simpl in H.
  destruct points as [|start [|a [|b tl]]]; try (inversion H; subst; exact Hlen).
  destruct (farthest start _ _ 1 0 0%nat) as [maxDist maxIndex] eqn:Ef.
  destruct (maxDist >? tol) eqn:Hgt; [|inversion H; simpl; lia].
  destruct (douglasPeucker fuel (firstn _ _) tol) as [l|] eqn:El; [|discriminate].
  destruct (douglasPeucker fuel (skipn _ _) tol) as [r'|] eqn:Er; [|discriminate].
  inversion H; subst. rewrite length_app.
  assert (maxIndex <= length (removelast (a :: b :: tl)))%nat as Hm.
  { destruct (farthest_result start (last (a :: b :: tl) start)
                (removelast (a :: b :: tl)) 1 0 0%nat) as [E | (j & p & Hj & E)];
      rewrite Ef in E; inversion E; subst; [lia|].
    apply nth_error_Some_lt in Hj. lia. }
  rewrite length_removelast_cons in Hm. simpl in Hm.
  apply IH in Er; [lia|]. rewrite length_skipn. cbn [length]. lia.
Qed.

(** With a tolerance that is not negative the recursion is on strictly
    shorter chains, and fuel [length points] is enough. *)
Lemma douglasPeucker_terminates (tol : number) :
  (tol <? 0) = false ->
  forall fuel points,
    (1 <= fuel)%nat -> (length points <= fuel + 1)%nat ->
    exists r, douglasPeucker fuel points tol = Some r.
Proof.
  intros Htol. induction fuel as [|fuel IH]; intros points H1 Hlen; [lia|].
  simpl.
  destruct points as [|start [|a [|b tl]]]; try (eexists; reflexivity).
  destruct (farthest start _ _ 1 0 0%nat) as [maxDist maxIndex] eqn:Ef.
  destruct (maxDist >? tol) eqn:Hgt; [|eexists; reflexivity].
  pose proof (farthest_index _ _ _ _ _ _ Htol Ef Hgt) as Hm.
  rewrite length_removelast_cons in Hm. simpl in Hm, Hlen.
  destruct (IH (firstn (maxIndex + 1) (start :: a :: b :: tl))) as [l El].
  { lia. } { rewrite length_firstn. cbn [length]. lia. }
  destruct (IH (skipn maxIndex (start :: a :: b :: tl))) as [r Er].
  { lia. } { rewrite length_skipn. cbn [length]. lia. }
  rewrite El, Er. eexists; reflexivity.
Qed.

(** Raising the tolerance never adds points, whatever fuel the two runs
    were given. *)
Lemma douglasPeucker_monotone (e1 e2 : number) :
  (e1 <? e2) = true ->
  forall fuel1 fuel2 points r1 r2,
    douglasPeucker fuel1 points e1 = Some r1 ->
    douglasPeucker fuel2 points e2 = Some r2 ->
    (length r2 <= length r1)%nat.
Proof.
  intros Hlt. induction fuel1 as [|fuel1 IH]; intros fuel2 points r1 r2 H1 H2;
    [discriminate|].
  destruct fuel2 as [|fuel2]; [discriminate|].
  pose proof (douglasPeucker_length_ge2 e1 _ _ _ H1) as Hge.
  simpl in H1, H2.
  destruct points as [|start [|a [|b tl]]]; try (inversion H1; inversion H2; subst; lia).
  destruct (farthest start _ _ 1 0 0%nat) as [maxDist maxIndex] eqn:Ef.
  destruct (maxDist >? e2) eqn:Hgt2.
  - assert ((maxDist >? e1) = true) as Hgt1
      by (unfold gtb in *; eapply NumFacts.ltb_trans; eassumption).
    rewrite Hgt1 in H1.
    destruct (douglasPeucker fuel1 (firstn _ _) e1) as [l1|] eqn:El1; [|discriminate].
    destruct (douglasPeucker fuel1 (skipn _ _) e1) as [q1|] eqn:Er1; [|discriminate].
    destruct (douglasPeucker fuel2 (firstn _ _) e2) as [l2|] eqn:El2; [|discriminate].
    destruct (douglasPeucker fuel2 (skipn _ _) e2) as [q2|] eqn:Er2; [|discriminate].
    inversion H1; inversion H2; subst.
    pose proof (IH _ _ _ _ El1 El2). pose proof (IH _ _ _ _ Er1 Er2).
    rewrite !length_app, !removelast_firstn_len, !length_firstn. lia.
  - inversion H2; subst. simpl in *. lia.
Qed.

(** C6: for every stroke and tolerances [0 <= e1 < e2], both
    simplifications return, and the one at the larger tolerance [e2] has
    no more points than the one at [e1]. *)
Theorem simplifyPath_monotone (S : list Point) (e1 e2 : number) :
  (0 <=? e1) = true -> (e1 <? e2) = true ->
  exists r1 r2,
    simplifyPath S e1 = Some r1 /\ simplifyPath S e2 = Some r2 /\
    (length r2 <= length r1)%nat.
Proof.
  intros H0 Hlt. unfold simplifyPath.
  destruct (Nat.ltb_spec (length S) 3) as [Hs|Hs].
  - exists S, S. repeat split; lia.
  - pose proof (NumFacts.leb_not_ltb _ _ H0) as Hn1.
    assert ((e2 <? 0) = false) as Hn2.
    { destruct (e2 <? 0) eqn:E; [|reflexivity].
      rewrite (NumFacts.ltb_trans _ _ _ Hlt E) in Hn1. discriminate. }
    destruct (douglasPeucker_terminates e1 Hn1 (length S) S) as [r1 E1]; try lia.
    destruct (douglasPeucker_terminates e2 Hn2 (length S) S) as [r2 E2]; try lia.
    exists r1, r2. repeat split; try assumption.
    eapply douglasPeucker_monotone; eassumption.
Qed.

Definition zigzag : list Point :=
  [mkPoint 0 0; mkPoint 1 1; mkPoint 2 0; mkPoint 3 0.25; mkPoint 4 0].

Lemma simplifyPath_monotone_witness :
  exists r1 r2,
    simplifyPath zigzag 0.125 = Some r1 /\ simplifyPath zigzag 0.75 = Some r2 /\
    (length r2 <= length r1)%nat.
Proof. apply simplifyPath_monotone; reflexivity. Defined.

Example simplifyPath_zigzag_small : simplifyPath zigzag 0.125 = Some zigzag.
Proof. reflexivity. Qed.

Example simplifyPath_zigzag_large :
  simplifyPath zigzag 0.75 = Some [mkPoint 0 0; mkPoint 1 1; mkPoint 4 0].
Proof. reflexivity. Qed.

Definition collinear3 : list Point := [mkPoint 0 0; mkPoint 1 0; mkPoint 2 0].

(** C5, as stated, fails: three collinear points are at distance exactly 0
    from their chord, [0 > 0] is false, and the chain collapses to its two
    endpoints. *)
Lemma simplifyPath_zero_collinear :
  simplifyPath collinear3 0 = Some [mkPoint 0 0; mkPoint 2 0] /\
  simplifyPath collinear3 0 <> Some collinear3.
Proof. split; [reflexivity | discriminate]. Qed.

(** With a negative tolerance the recursion need not end: on three
    collinear points [maxDist = 0 > -1] with [maxIndex = 0], and the second
    recursive call is on [points.slice(0)], the same points. *)
Remark douglasPeucker_negative_tolerance :
  forall fuel, douglasPeucker fuel collinear3 (-1) = None.
Proof.
  induction fuel as [|fuel IH]; [reflexivity|].
  change (douglasPeucker (S fuel) collinear3 (-1))
    with (match douglasPeucker fuel [mkPoint 0 0] (-1) with
          | None => None
          | Some left_ =>
              match douglasPeucker fuel collinear3 (-1) with
              | None => None
              | Some right_ => Some (removelast left_ ++ right_)
              end
          end).
  rewrite IH. now destruct (douglasPeucker fuel [mkPoint 0 0] (-1)).
Qed.

End StrokeFacts.

(* ================================================================== *)
(** ** Circle fitting and arc detection *)

Module Arcs.
Import Stroke.

Record Circle := mkCircle { cx : number; cy : number; r : number }.

(** The nine running sums of [fitCircle]. *)
Record Sums := mkSums {
  sumX : number; sumY : number; sumX2 : number; sumY2 : number; sumXY : number;
  sumX3 : number; sumY3 : number; sumX2Y : number; sumXY2 : number }.

Definition noSums : Sums := mkSums 0 0 0 0 0 0 0 0 0.

(** One turn of [for (const pt of points)], first loop of [fitCircle]. *)
Definition addPoint (s : Sums) (pt : Point) : Sums :=
  let x := px pt in
  let y := py pt in
  let x2 := x * x in
  let y2 := y * y in
  mkSums (sumX s + x) (sumY s + y) (sumX2 s + x2) (sumY2 s + y2)
         (sumXY s + x * y) (sumX3 s + x2 * x) (sumY3 s + y2 * y)
         (sumX2Y s + x2 * y) (sumXY2 s + x * y2).

Definition distanceTo (cx cy : number) (pt : Point) : number :=
  sqrt (sq (px pt - cx) + sq (py pt - cy)).

(** [fitCircle(points)]; [None] is the source's [null]. *)
Definition fitCircle (points : list Point) : option Circle :=
  if (length points <? 3)%nat then None
  else
    let s := fold_left addPoint points noSums in
    let n := of_nat (length points) in
    let A := n * sumX2 s - sumX s * sumX s in
    let B := n * sumXY s - sumX s * sumY s in
    let C := n * sumY2 s - sumY s * sumY s in
    let D := 0.5 * (n * sumXY2 s - sumX s * sumY2 s + n * sumX3 s - sumX s * sumX2 s) in
    let E := 0.5 * (n * sumY3 s - sumY s * sumY2 s + n * sumX2Y s - sumY s * sumX2 s) in
    let denominator := A * C - B * B in
    if abs denominator <? 1e-10 then None
    else
      let cx := (D * C - B * E) / denominator in
      let cy := (A * E - B * D) / denominator in
      let sumR := fold_left (fun sumR pt => sumR + distanceTo cx cy pt) points 0 in
      Some (mkCircle cx cy (sumR / n)).

(** The second loop of [isCollinear], over the consecutive triples
    [points[i], points[i+1], points[i+2]]: [false] as soon as one turns by
    more than the threshold. *)
Fixpoint sameDirection (points : list Point) : bool :=
  match points with
  | p1 :: ((p2 :: p3 :: _) as rest) =>
      let dx1 := px p2 - px p1 in
      let dy1 := py p2 - py p1 in
      let dx2 := px p3 - px p2 in
      let dy2 := py p3 - py p2 in
      let len1 := sqrt (dx1 * dx1 + dy1 * dy1) in
      let len2 := sqrt (dx2 * dx2 + dy2 * dy2) in
      if (len1 <? 0.1) || (len2 <? 0.1) then sameDirection rest
      else
        let dir1x := dx1 / len1 in
        let dir1y := dy1 / len1 in
        let dir2x := dx2 / len2 in
        let dir2y := dy2 / len2 in
        let dotProduct := dir1x * dir2x + dir1y * dir2y in
        if abs dotProduct <? 0.95 then false else sameDirection rest
  | _ => true
  end.

(** [isCollinear(points, tolerance)]. *)
Definition isCollinear (points : list Point) (tolerance : number) : bool :=
  match points with
  | start :: ((_ :: _ :: _) as rest) =>
      let end_ := last rest start in
      let dx := px end_ - px start in
      let dy := py end_ - py start in
      let lineLength := sqrt (dx * dx + dy * dy) in
      if lineLength <? 0.1 then true
      else if existsb (fun pt =>
                abs ((dy * px pt - dx * py pt + px end_ * py start - py end_ * px start)
                     / lineLength) >? tolerance) (removelast rest)
      then false
      else sameDirection points
  | _ => true
  end.

(** An arc found by [fitArc]. *)
Record ArcFit := mkArcFit {
  endIndex : nat; center : Point; radius : number; clockwise : bool }.

Inductive Segment :=
| Line (points : list Point)
| Arc (start end_ center : Point) (radius : number) (clockwise : bool).

(** [points.slice(a, b)] for [a <= b]. *)
Definition slice {A} (l : list A) (a b : nat) : list A := firstn (b - a) (skipn a l).

Definition origin : Point := mkPoint 0 0.

Section WithHost.

(** [Math.atan2] on two numbers that are not NaN: the language leaves its
    value to the host, up to an approximation. *)
Variable atan2_host : number -> number -> number.

(** [Math.atan2(y, x)]: NaN when an argument is NaN. *)
Definition Math_atan2 (y x : number) : number :=
  if is_nan y || is_nan x then nan else atan2_host y x.

(** [while (a > Math.PI) a -= 2 * Math.PI;] with at most [fuel] turns;
    [None] when the loop has not ended by then. *)
Fixpoint wrapDown (fuel : nat) (a : number) : option number :=
  if a >? PI then
    match fuel with
    | O => None
    | S fuel' => wrapDown fuel' (a - 2 * PI)
    end
  else Some a.

(** [while (a < -Math.PI) a += 2 * Math.PI;]. *)
Fixpoint wrapUp (fuel : nat) (a : number) : option number :=
  if a <? - PI then
    match fuel with
    | O => None
    | S fuel' => wrapUp fuel' (a + 2 * PI)
    end
  else Some a.

(** The two loops under the comment [Normalize to [-PI, PI]]. *)
Definition normalizeAngle (fuel : nat) (a : number) : option number :=
  match wrapDown fuel a with
  | None => None
  | Some a' => wrapUp fuel a'
  end.

(** [isClockwise(points, circle)]; [endRel] is normalized and not used. *)
Definition isClockwise (fuel : nat) (points : list Point) (circle : Circle)
    : option bool :=
  if (length points <? 2)%nat then Some false
  else
    let start := nth 0 points origin in
    let end_ := last points origin in
    let mid := nth (length points / 2) points origin in
    let angleStart := Math_atan2 (py start - cy circle) (px start - cx circle) in
    let angleMid := Math_atan2 (py mid - cy circle) (px mid - cx circle) in
    let angleEnd := Math_atan2 (py end_ - cy circle) (px end_ - cx circle) in
    match normalizeAngle fuel (angleMid - angleStart) with
    | None => None
    | Some midRel =>
        match normalizeAngle fuel (angleEnd - angleStart) with
        | None => None
        | Some _ => Some (midRel <? 0)
        end
    end.

(** What one turn of the [for] loop of [fitArc] does with the candidate
    [points]. *)
Inductive Verdict :=
| Rejected                                  (* [continue] *)
| Accepted (c : Circle) (clockwise : bool). (* [return {...}] *)

Variable arcTolerance : number.

(** The body of the [for] loop of [fitArc] on the candidate
    [points = stroke.slice(startIdx, endIdx + 1)]; [None] when one of the
    angle loops does not end within [fuel] turns.  [maxError] only feeds
    the log line and is left out. *)
Definition tryArc (fuel : nat) (points : list Point) : option Verdict :=
  if isCollinear points arcTolerance then Some Rejected
  else
    match fitCircle points with
    | None => Some Rejected
    | Some circle =>
        if (r circle <? 0.5) || (r circle >? 50) then Some Rejected
        else if forallb (fun pt =>
                  negb (abs (distanceTo (cx circle) (cy circle) pt - r circle)
                        >? arcTolerance)) points
        then
          let startPt := nth 0 points origin in
          let endPt := last points origin in
          let angleStart := Math_atan2 (py startPt - cy circle) (px startPt - cx circle) in
          let angleEnd := Math_atan2 (py endPt - cy circle) (px endPt - cx circle) in
          match normalizeAngle fuel (angleEnd - angleStart) with
          | None => None
          | Some arcAngle =>
              let arcAngleDeg := abs arcAngle * 180 / PI in
              if arcAngleDeg <? 20 then Some Rejected
              else
                let dx := px endPt - px startPt in
                let dy := py endPt - py startPt in
                let chordLength := sqrt (dx * dx + dy * dy) in
                let arcLength := r circle * abs arcAngle in
                let arcToChordRatio :=
                  if chordLength >? 0 then arcLength / chordLength else 0 in
                if arcToChordRatio <? 1.05 then Some Rejected
                else
                  match isClockwise fuel points circle with
                  | None => None
                  | Some cw => Some (Accepted circle cw)
                  end
          end
        else Some Rejected
    end.

(** The [for (let endIdx = ...; endIdx > startIdx + 2; endIdx--)] loop of
    [fitArc], entered at [endIdx]. *)
Fixpoint fitArcFrom (fuel : nat) (stroke : list Point) (startIdx endIdx : nat)
    : option (option ArcFit) :=
  if (startIdx + 2 <? endIdx)%nat then
    match tryArc fuel (slice stroke startIdx (endIdx + 1)) with
    | None => None
    | Some (Accepted circle cw) =>
        Some (Some (mkArcFit endIdx (mkPoint (cx circle) (cy circle)) (r circle) cw))
    | Some Rejected =>
        match endIdx with
        | O => Some None
        | S endIdx' => fitArcFrom fuel stroke startIdx endIdx'
        end
    end
  else Some None.

(** [fitArc(stroke, startIdx)]: [Some None] is the source's [null], [None]
    a call that does not return within [fuel] turns of an angle loop. *)
Definition fitArc (fuel : nat) (stroke : list Point) (startIdx : nat)
    : option (option ArcFit) :=
  let maxPoints := Nat.min (startIdx + 20) (length stroke) in
  fitArcFrom fuel stroke startIdx (maxPoints - 1).

(** One turn of the [while (i < stroke.length)] loop of [detectArcs], given
    what [fitArc(stroke, i)] returned: the segment pushed and the next
    [i]. *)
Definition detectStep (stroke : list Point) (i : nat) (arcResult : option ArcFit)
    : Segment * nat :=
  let lineStep :=
    let lineEnd := Nat.min (i + 1) (length stroke - 1) in
    (Line (slice stroke i (lineEnd + 1)),
     if (i =? lineEnd)%nat then (i + 1)%nat else lineEnd) in
  match arcResult with
  | Some a =>
      if (3 <=? endIndex a - i)%nat then
        (Arc (nth i stroke origin) (nth (endIndex a) stroke origin)
             (center a) (radius a) (clockwise a),
         endIndex a)
      else lineStep
  | None => lineStep
  end.

(** The [while] loop of [detectArcs] from index [i], with at most [turns]
    turns. *)
Fixpoint detectLoop (fuel : nat) (stroke : list Point) (turns i : nat)
    : option (list Segment) :=
  if (i <? length stroke)%nat then
    match turns with
    | O => None
    | S turns' =>
        match fitArc fuel stroke i with
        | None => None
        | Some arcResult =>
            let '(segment, i') := detectStep stroke i arcResult in
            match detectLoop fuel stroke turns' i' with
            | None => None
            | Some segments => Some (segment :: segments)
            end
        end
    end
  else Some [].

(** [detectArcs(stroke)].  The index grows at every turn, so
    [length stroke] turns are enough (see [detectLoop_returns]). *)
Definition detectArcs (fuel : nat) (stroke : list Point) : option (list Segment) :=
  if (length stroke <? 5)%nat then Some [Line stroke]
  else detectLoop fuel stroke (length stroke) 0.

End WithHost.

End Arcs.

(** A host for running the examples: [atan2] computed in binary64 by two
    half-angle reductions and an odd polynomial, within a few units in the
    last place of the arc tangent for the arguments used below.  The
    theorems hold for every host. *)
Module DemoHost.

Definition atanSmall (x : number) : number :=
  let x2 := x * x in
  x * (1 - x2 * (1 / 3 - x2 * (1 / 5 - x2 * (1 / 7 - x2 * (1 / 9 - x2 *
      (1 / 11 - x2 * (1 / 13 - x2 * (1 / 15 - x2 * (1 / 17 - x2 *
      (1 / 19 - x2 / 21)))))))))).

(** [tan (t / 2)] from [tan t]. *)
Definition halve (x : number) : number := x / (1 + sqrt (1 + x * x)).

Definition atanUnit (x : number) : number := 4 * atanSmall (halve (halve x)).

Definition atanPos (x : number) : number :=
  if x <=? 1 then atanUnit x else PI / 2 - atanUnit (1 / x).

Definition atan (x : number) : number :=
  if x <? 0 then - atanPos (- x) else atanPos x.

Definition atan2 (y x : number) : number :=
  if 0 <? x then atan (y / x)
  else if x <? 0 then
    if y <? 0 then atan (y / x) - PI else atan (y / x) + PI
  else if 0 <? y then PI / 2
  else if y <? 0 then - (PI / 2)
  else 0.

(** [x.toFixed(f)] for [|x| < 10^21]: the nearest multiple of [10^-f] to
    the exact value of [x], the larger one of two that are as near, with
    [f] decimals.  (From [10^21] on the language prints an exponent; this
    function goes on printing digits.) *)
Definition digitsOf (n : N) : list N :=
  map N_of_ascii (list_ascii_of_string (NilEmpty.string_of_uint (N.to_uint n))).

Definition fixedDigits (f : nat) (n : N) : list N :=
  let d := digitsOf n in
  let d := repeat 48%N (f + 1 - length d) ++ d in
  if (f =? 0)%nat then d
  else firstn (length d - f) d ++ [46%N] ++ skipn (length d - f) d.

Definition roundScaled (mant : positive) (e : Z) (f : nat) : N :=
  let scaled := (Z.pos mant * 10 ^ Z.of_nat f)%Z in
  if (0 <=? e)%Z then Z.to_N (scaled * 2 ^ e)
  else Z.to_N ((2 * scaled + 2 ^ (- e)) / 2 ^ (1 - e)).

Definition toFixed (f : nat) (x : number) : list N :=
  match Prim2SF x with
  | S754_nan => [78; 97; 78]%N
  | S754_infinity s =>
      (if s then [45%N] else []) ++ [73; 110; 102; 105; 110; 105; 116; 121]%N
  | S754_zero _ => fixedDigits f 0
  | S754_finite s mant e =>
      (if s then [45%N] else []) ++ fixedDigits f (roundScaled mant e f)
  end.

(** A number in a template literal, when it is an integer below [10^21]
    in magnitude: its digits.  (The language prints other numbers with the
    fewest digits that read back as the number; this function prints them
    with 3 decimals.) *)
Definition numberToString (x : number) : list N :=
  match Prim2SF x with
  | S754_zero _ => [48%N]
  | S754_finite s mant e =>
      if (0 <=? e)%Z || (Z.pos mant mod 2 ^ (- e) =? 0)%Z
      then (if s then [45%N] else []) ++ digitsOf (roundScaled mant e 0)
      else toFixed 3 x
  | _ => toFixed 3 x
  end.

End DemoHost.

Module ArcFacts.
Import Stroke Arcs.

(** *** The algebraic fit *)

(** The numbers that the expressions of [fitCircle] are read in: the
    numbers of the language, in which the code runs, and the rationals, in
    which the same expressions are exact. *)
Record Arith (T : Type) := mkArith {
  ofLength : nat -> T;
  constant0 : T;
  constantHalf : T;
  plus : T -> T -> T;
  minus : T -> T -> T;
  times : T -> T -> T;
  over : T -> T -> T }.

Arguments ofLength {T}.
Arguments constant0 {T}.
Arguments constantHalf {T}.
Arguments plus {T}.
Arguments minus {T}.
Arguments times {T}.
Arguments over {T}.

Definition binary64 : Arith number :=
  mkArith number of_nat 0 0.5 PrimFloat.add PrimFloat.sub PrimFloat.mul PrimFloat.div.

Definition rationals : Arith Q :=
  mkArith Q (fun n => inject_Z (Z.of_nat n)) (0%Q) (1 # 2)%Q Qplus Qminus Qmult Qdiv.

(** The 2x2 system [A cx + B cy = D], [B cx + C cy = E] of the fit. *)
Record System (T : Type) := mkSystem {
  coefA : T; coefB : T; coefC : T; coefD : T; coefE : T }.

Arguments mkSystem {T}.
Arguments coefA {T}.
Arguments coefB {T}.
Arguments coefC {T}.
Arguments coefD {T}.
Arguments coefE {T}.

Declare Scope arith_scope.

Section Fit.
Context {T : Type} (N : Arith T).

#[local] Notation "a + b" := (plus N a b) : arith_scope.
#[local] Notation "a - b" := (minus N a b) : arith_scope.
#[local] Notation "a * b" := (times N a b) : arith_scope.
#[local] Notation "a / b" := (over N a b) : arith_scope.
#[local] Open Scope arith_scope.

(** A running sum of the first loop: [sum += f(pt)] from 0. *)
Definition sumOver (f : T * T -> T) (pts : list (T * T)) : T :=
  fold_left (fun acc pt => acc + f pt) pts (constant0 N).

(** The coefficients [A], [B], [C], [D], [E], from the nine sums. *)
Definition systemOf (pts : list (T * T)) : System T :=
  let n := ofLength N (length pts) in
  let sumX := sumOver (fun pt => fst pt) pts in
  let sumY := sumOver (fun pt => snd pt) pts in
  let sumX2 := sumOver (fun pt => fst pt * fst pt) pts in
  let sumY2 := sumOver (fun pt => snd pt * snd pt) pts in
  let sumXY := sumOver (fun pt => fst pt * snd pt) pts in
  let sumX3 := sumOver (fun pt => fst pt * fst pt * fst pt) pts in
  let sumY3 := sumOver (fun pt => snd pt * snd pt * snd pt) pts in
  let sumX2Y := sumOver (fun pt => fst pt * fst pt * snd pt) pts in
  let sumXY2 := sumOver (fun pt => fst pt * (snd pt * snd pt)) pts in
  mkSystem
    (n * sumX2 - sumX * sumX)
    (n * sumXY - sumX * sumY)
    (n * sumY2 - sumY * sumY)
    (constantHalf N * (n * sumXY2 - sumX * sumY2 + n * sumX3 - sumX * sumX2))
    (constantHalf N * (n * sumY3 - sumY * sumY2 + n * sumX2Y - sumY * sumX2)).

(** [denominator], the determinant of the system. *)
Definition denominatorOf (s : System T) : T :=
  coefA s * coefC s - coefB s * coefB s.

(** [(cx, cy)]: the two quotients of Cramer's rule. *)
Definition centerOf (s : System T) : T * T :=
  ((coefD s * coefC s - coefB s * coefE s) / denominatorOf s,
   (coefA s * coefE s - coefB s * coefD s) / denominatorOf s).


End Fit.

(** The coordinates of the points. *)
Definition coords (points : list Point) : list (number * number) :=
  map (fun p => (px p, py p)) points.


(** The determinant that [fitCircle] computes. *)
Definition determinant (points : list Point) : number :=
  denominatorOf binary64 (systemOf binary64 (coords points)).


Lemma fold_distance (f : Point -> number) (points : list Point) :
  forall acc,
    fold_left (fun sumR pt => sumR + f pt) points acc
    = fold_left PrimFloat.add (map f points) acc.
Proof.
  induction points as [|p points IH]; intros acc; [reflexivity|].
  cbn [fold_left map]. apply IH.
Qed.









(** In exact arithmetic the same expressions give the same system and its
    solution. *)
Example fitCircle_center_exact :
  let s := systemOf rationals [(0, 0); (3, 0); (0, 1); (1, 1)]%Q in
  (coefA s == 24 /\ coefB s == -4 /\ coefC s == 4 /\ coefD s == 34 /\ coefE s == -6
   /\ fst (centerOf rationals s) == 7 # 5 /\ snd (centerOf rationals s) == - (1 # 10))%Q.
Proof. vm_compute. repeat split. Qed.

Section Detection.
Variable atan2_host : number -> number -> number.
Variable arcTolerance : number.
Variable fuel : nat.

Abbreviation tryArc := (tryArc atan2_host arcTolerance fuel).
Abbreviation fitArcFrom := (fitArcFrom atan2_host arcTolerance fuel).
Abbreviation fitArc := (fitArc atan2_host arcTolerance fuel).
Abbreviation detectLoop := (detectLoop atan2_host arcTolerance fuel).
Abbreviation detectArcs := (detectArcs atan2_host arcTolerance fuel).

(** The angle that [fitArc] computes for a candidate: from the start point
    to the end point about the center of [c], after the two loops. *)
Definition arcAngleOf (points : list Point) (c : Circle) : option number :=
  let startPt := nth 0 points origin in
  let endPt := last points origin in
  normalizeAngle fuel
    (Math_atan2 atan2_host (py endPt - cy c) (px endPt - cx c)
     - Math_atan2 atan2_host (py startPt - cy c) (px startPt - cx c)).

Definition chordLengthOf (points : list Point) : number :=
  let startPt := nth 0 points origin in
  let endPt := last points origin in
  sqrt ((px endPt - px startPt) * (px endPt - px startPt)
        + (py endPt - py startPt) * (py endPt - py startPt)).

(** A candidate that went through every test of [fitArc]: none of its
    [continue] branches was taken. *)
Record passedTests (points : list Point) (c : Circle) (arcAngle : number) : Prop := {
  pt_collinear : isCollinear points arcTolerance = false;
  pt_circle : fitCircle points = Some c;
  pt_radius_low : (r c <? 0.5) = false;
  pt_radius_high : (r c >? 50) = false;
  pt_all_fit : forall pt, In pt points ->
      (abs (distanceTo (cx c) (cy c) pt - r c) >? arcTolerance) = false;
  pt_angle : arcAngleOf points c = Some arcAngle;
  pt_span : (abs arcAngle * 180 / PI <? 20) = false;
  pt_chord : (chordLengthOf points >? 0) = true;
  pt_ratio : (r c * abs arcAngle / chordLengthOf points <? 1.05) = false }.

Lemma tryArc_accepted (points : list Point) (c : Circle) (cw : bool) :
  tryArc points = Some (Accepted c cw) ->
  exists arcAngle, passedTests points c arcAngle.
Proof.
  unfold Arcs.tryArc.
  destruct (isCollinear points arcTolerance) eqn:Hcol; [discriminate|].
  destruct (fitCircle points) as [c'|] eqn:Hfit; [|discriminate].
  destruct (r c' <? 0.5) eqn:Hlo; [discriminate|].
  destruct (r c' >? 50) eqn:Hhi; [discriminate|]. cbn [orb].
  destruct (forallb _ points) eqn:Hall; [|discriminate].
  destruct (normalizeAngle fuel _) as [arcAngle|] eqn:Hang; [|discriminate].
  destruct (abs arcAngle * 180 / PI <? 20) eqn:Hspan; [discriminate|].
  match goal with
  | |- context [if ?ch >? 0 then _ else _] => destruct (ch >? 0) eqn:Hch
  end.
  2:{ replace (0 <? 1.05) with true by reflexivity. discriminate. }
  match goal with
  | |- context [if ?ra <? 1.05 then _ else _] => destruct (ra <? 1.05) eqn:Hra
  end; [discriminate|].
  destruct (isClockwise _ fuel points c') as [cw'|]; [|discriminate].
  intros H; inversion H; subst. exists arcAngle.
  constructor; try assumption.
  intros pt Hin. rewrite forallb_forall in Hall.
  apply Hall in Hin. now apply negb_true_iff in Hin.
Qed.

Lemma fitArcFrom_found (stroke : list Point) (startIdx : nat) :
  forall endIdx a,
    fitArcFrom stroke startIdx endIdx = Some (Some a) ->
    (startIdx + 3 <= endIndex a <= endIdx)%nat /\
    exists c,
      tryArc (slice stroke startIdx (endIndex a + 1)) = Some (Accepted c (clockwise a)) /\
      center a = mkPoint (cx c) (cy c) /\ radius a = r c.
Proof.
  induction endIdx as [|endIdx IH]; intros a; cbn [Arcs.fitArcFrom].
  - destruct (Nat.ltb_spec (startIdx + 2) 0); [lia | discriminate].
  - destruct (Nat.ltb_spec (startIdx + 2) (S endIdx)) as [Hlt|Hge]; [|discriminate].
    destruct (tryArc (slice stroke startIdx (S endIdx + 1))) as [[|c cw]|] eqn:Htry;
      [| |discriminate].
    + intros H. apply IH in H. destruct H as [Hr Hc]. split; [lia | exact Hc].
    + intros H; inversion H; subst; cbn [endIndex clockwise center radius].
      split; [lia|]. exists c. auto.
Qed.

Lemma fitArc_found (stroke : list Point) (startIdx : nat) (a : ArcFit) :
  fitArc stroke startIdx = Some (Some a) ->
  (startIdx + 3 <= endIndex a < length stroke)%nat /\
  exists c,
    tryArc (slice stroke startIdx (endIndex a + 1)) = Some (Accepted c (clockwise a)) /\
    center a = mkPoint (cx c) (cy c) /\ radius a = r c.
Proof.
  unfold Arcs.fitArc. intros H. apply fitArcFrom_found in H.
  destruct H as [Hr Hc]. split; [lia | exact Hc].
Qed.

(** *** Progress of the scan *)

(** Each turn of the loop of [detectArcs] moves the index forward: a Line
    by one point, an Arc by three or more. *)
Lemma detectStep_progress (stroke : list Point) (i : nat) (res : option ArcFit) :
  (i < length stroke)%nat ->
  match detectStep stroke i res with
  | (Line _, i') => i' = (i + 1)%nat
  | (Arc _ _ _ _ _, i') => (i + 3 <= i')%nat
  end.
Proof.
  intros Hi. unfold detectStep.
  assert (forall b : bool, (if b then (i + 1)%nat else (i + 1)%nat) = (i + 1)%nat)
    as Hif by (now intros []).
  destruct res as [a|].
  - destruct (Nat.leb_spec 3 (endIndex a - i)); [lia|].
    destruct (Nat.eqb_spec i (Nat.min (i + 1) (length stroke - 1))); lia.
  - destruct (Nat.eqb_spec i (Nat.min (i + 1) (length stroke - 1))); lia.
Qed.

Lemma detectStep_advances (stroke : list Point) (i : nat) (res : option ArcFit) :
  (i < length stroke)%nat -> (i < snd (detectStep stroke i res))%nat.
Proof.
  intros Hi. pose proof (detectStep_progress stroke i res Hi) as H.
  destruct (detectStep stroke i res) as [[?|? ? ? ? ?] i']; cbn [snd]; lia.
Qed.

(** When every call of [fitArc] returns, the loop ends within
    [length stroke - i] turns and pushes at most that many segments. *)
Lemma detectLoop_returns (stroke : list Point) :
  (forall i, (i < length stroke)%nat -> fitArc stroke i <> None) ->
  forall turns i,
    (length stroke - i <= turns)%nat ->
    exists segments,
      detectLoop stroke turns i = Some segments /\
      (length segments <= length stroke - i)%nat.
Proof.
  intros Hfit. induction turns as [|turns IH]; intros i Hturns; cbn [Arcs.detectLoop].
  - destruct (Nat.ltb_spec i (length stroke)); [lia|].
    exists []. split; [reflexivity | cbn; lia].
  - destruct (Nat.ltb_spec i (length stroke)) as [Hi|Hi].
    2:{ exists []. split; [reflexivity | cbn; lia]. }
    specialize (Hfit i Hi).
    destruct (fitArc stroke i) as [res|]; [|congruence].
    pose proof (detectStep_advances stroke i res Hi) as Hadv.
    destruct (detectStep stroke i res) as [segment i']. cbn [snd] in Hadv.
    destruct (IH i') as (segments & Hs & Hlen); [lia|].
    rewrite Hs. exists (segment :: segments). split; [reflexivity|].
    cbn [length]. lia.
Qed.

(** Every Arc that the loop pushes comes from a call of [fitArc] at the
    index where the Arc starts. *)
Lemma detectLoop_arcs (stroke : list Point) (s e c : Point) (rad : number) (cw : bool) :
  forall turns i segments,
    detectLoop stroke turns i = Some segments ->
    In (Arc s e c rad cw) segments ->
    exists i0 a,
      fitArc stroke i0 = Some (Some a) /\
      s = nth i0 stroke origin /\ e = nth (endIndex a) stroke origin /\
      c = center a /\ rad = radius a /\ cw = clockwise a.
Proof.
  induction turns as [|turns IH]; intros i segments; cbn [Arcs.detectLoop].
  - destruct (i <? length stroke)%nat; [discriminate|].
    intros H; inversion H; subst. intros [].
  - destruct (i <? length stroke)%nat.
    2:{ intros H; inversion H; subst. intros []. }
    destruct (fitArc stroke i) as [res|] eqn:Hres; [|discriminate].
    destruct (detectStep stroke i res) as [segment i'] eqn:Hstep.
    destruct (detectLoop stroke turns i') as [rest|] eqn:Hrest; [|discriminate].
    intros H; inversion H; subst. intros [Hin|Hin].
    + unfold detectStep in Hstep.
      destruct res as [a|].
      * destruct (3 <=? endIndex a - i)%nat.
        -- inversion Hstep; subst. inversion H1; subst.
           exists i, a. repeat split; auto.
        -- inversion Hstep; subst. discriminate.
      * inversion Hstep; subst. discriminate.
    + eapply IH; eassumption.
Qed.

End Detection.

Lemma length_slice {A} (l : list A) (a b : nat) :
  (b <= length l)%nat -> length (slice l a b) = (b - a)%nat.
Proof. intros H. unfold slice. rewrite length_firstn, length_skipn. lia. Qed.

(** A stroke with a right-angle corner: every candidate is turned down
    before [Math.atan2] is called, whatever the host and without a turn
    of the angle loops. *)
Definition corner : list Point :=
  [mkPoint 0 0; mkPoint 10 0; mkPoint 20 0; mkPoint 20 10; mkPoint 20 20;
   mkPoint 20 30].

Example detectArcs_corner (host : number -> number -> number) :
  detectArcs host 0.5 0 corner =
  Some [Line [mkPoint 0 0; mkPoint 10 0]; Line [mkPoint 10 0; mkPoint 20 0];
        Line [mkPoint 20 0; mkPoint 20 10]; Line [mkPoint 20 10; mkPoint 20 20];
        Line [mkPoint 20 20; mkPoint 20 30]; Line [mkPoint 20 30]].
Proof. vm_compute. reflexivity. Qed.

(** Eight points on a quarter of the circle of radius 10 about the
    origin, 90/7 degrees apart. *)
Definition quarter : list Point :=
  [mkPoint 10 0;
   mkPoint 9.749279121818237 2.225209339563144;
   mkPoint 9.009688679024192 4.3388373911755815;
   mkPoint 7.818314824680298 6.234898018587335;
   mkPoint 6.2348980185873355 7.818314824680298;
   mkPoint 4.3388373911755815 9.009688679024192;
   mkPoint 2.2252093395631443 9.749279121818237;
   mkPoint 6.123233995736766e-16 10].

(** What the tests of [fitArc] do establish: every Arc that [detectArcs]
    emits is built from at least 4 consecutive points of the stroke,
    [stroke[i..j]], and took none of the [continue] branches of [fitArc].
    The tests are written as rejections ([r < 0.5 || r > 50], [deg < 20],
    [ratio < 1.05]), so they bound the radius, the angle and the ratio
    only where these are numbers; the stroke [huge] below is one where
    they are not. *)
Lemma detectArcs_arcs_pass (atan2_host : number -> number -> number)
    (arcTolerance : number) (fuel : nat) (stroke : list Point)
    (segments : list Segment) (s e c : Point) (rad : number) (cw : bool) :
  detectArcs atan2_host arcTolerance fuel stroke = Some segments ->
  In (Arc s e c rad cw) segments ->
  exists i j circle arcAngle,
    (i + 3 <= j < length stroke)%nat /\
    (4 <= length (slice stroke i (j + 1)))%nat /\
    s = nth i stroke origin /\ e = nth j stroke origin /\
    c = mkPoint (cx circle) (cy circle) /\ rad = r circle /\
    passedTests atan2_host arcTolerance fuel (slice stroke i (j + 1)) circle arcAngle /\
    let degrees := abs arcAngle * 180 / PI in
    let ratio := r circle * abs arcAngle / chordLengthOf (slice stroke i (j + 1)) in
    (is_nan rad = false -> (0.5 <=? rad) = true /\ (rad <=? 50) = true) /\
    (is_nan degrees = false -> (20 <=? degrees) = true) /\
    (is_nan ratio = false -> (1.05 <=? ratio) = true).
Proof.
  unfold detectArcs. intros Hrun Hin.
  destruct (length stroke <? 5)%nat.
  { inversion Hrun; subst. destruct Hin as [Hin|[]]. discriminate. }
  destruct (detectLoop_arcs _ _ _ _ _ _ _ _ _ _ _ _ Hrun Hin)
    as (i & a & Hfit & Hs & He & Hc & Hrad & Hcw).
  apply fitArc_found in Hfit.
  destruct Hfit as [Hrange (circle & Htry & Hcenter & Hradius)].
  apply tryArc_accepted in Htry. destruct Htry as [arcAngle Hpass].
  exists i, (endIndex a), circle, arcAngle.
  split; [lia|]. split; [rewrite length_slice; lia|].
  do 2 (split; [assumption|]). do 2 (split; [congruence|]).
  split; [exact Hpass|]. cbv zeta.
  assert (rad = r circle) as Hr by congruence. rewrite Hr.
  split; [|split]; intros Hnan.
  - split; apply NumFacts.not_ltb_leb;
      [exact Hnan | reflexivity | | reflexivity | exact Hnan | ].
    + apply (pt_radius_low _ _ _ _ _ _ Hpass).
    + apply (pt_radius_high _ _ _ _ _ _ Hpass).
  - apply NumFacts.not_ltb_leb; [exact Hnan | reflexivity |].
    apply (pt_span _ _ _ _ _ _ Hpass).
  - apply NumFacts.not_ltb_leb; [exact Hnan | reflexivity |].
    apply (pt_ratio _ _ _ _ _ _ Hpass).
Qed.

Definition quarterCenter : Point :=
  mkPoint (-3.3785744568178768e-14) (-3.7555708576163579e-14).

(** The quarter circle comes back as one Arc of radius 10 (up to rounding),
    not clockwise, followed by the Line that holds its last point. *)
Example detectArcs_quarter :
  detectArcs DemoHost.atan2 0.5 2 quarter =
  Some [Arc (mkPoint 10 0) (mkPoint 6.123233995736766e-16 10) quarterCenter
            10.000000000000046 false;
        Line [mkPoint 6.123233995736766e-16 10]].
Proof. vm_compute. reflexivity. Qed.

(** Drawn the other way round, it is clockwise. *)
Example detectArcs_quarter_reversed :
  detectArcs DemoHost.atan2 0.5 2 (rev quarter) =
  Some [Arc (mkPoint 6.123233995736766e-16 10) (mkPoint 10 0)
            (mkPoint (-2.5037139050775708e-14) (-2.2523829712119182e-14))
            10.000000000000028 true;
        Line [mkPoint 10 0]].
Proof. vm_compute. reflexivity. Qed.

Example detectArcs_arcs_pass_quarter :
  exists i j circle arcAngle,
    (i + 3 <= j < length quarter)%nat /\
    (4 <= length (slice quarter i (j + 1)))%nat /\
    mkPoint 10 0 = nth i quarter origin /\
    mkPoint 6.123233995736766e-16 10 = nth j quarter origin /\
    quarterCenter = mkPoint (cx circle) (cy circle) /\
    10.000000000000046 = r circle /\
    passedTests DemoHost.atan2 0.5 2 (slice quarter i (j + 1)) circle arcAngle /\
    let degrees := abs arcAngle * 180 / PI in
    let ratio := r circle * abs arcAngle / chordLengthOf (slice quarter i (j + 1)) in
    (is_nan 10.000000000000046 = false ->
       (0.5 <=? 10.000000000000046) = true /\ (10.000000000000046 <=? 50) = true) /\
    (is_nan degrees = false -> (20 <=? degrees) = true) /\
    (is_nan ratio = false -> (1.05 <=? ratio) = true).
Proof.
  eapply detectArcs_arcs_pass; [exact detectArcs_quarter | left; reflexivity].
Defined.

(** A stroke whose coordinates overflow the power sums of [fitCircle]: the
    determinant, the center and the radius are NaN, and every comparison
    with NaN is false. *)
Definition huge : list Point :=
  [mkPoint 0 0; mkPoint 1e200 0; mkPoint 1e200 1e200; mkPoint 0 1e200;
   mkPoint 0 2e200].

(** Whatever the host, [Math.atan2] is only called on NaN here. *)
Lemma detectArcs_huge (host : number -> number -> number) :
  detectArcs host 0.5 2 huge =
  Some [Arc (mkPoint 0 0) (mkPoint 0 2e200) (mkPoint nan nan) nan false;
        Line [mkPoint 0 2e200]].
Proof. vm_compute. reflexivity. Qed.

(** C1 at the stroke [huge], with arc tolerance 0.5: the radius of an
    emitted Arc is to lie in [0.5, 50], but [detectArcs] emits an Arc whose
    radius is NaN, whatever the host.  The determinant of the system is
    NaN, which the guard [Math.abs(denominator) < 1e-10] of [fitCircle]
    does not catch; the fitted radius is NaN, which the validation
    [circle.r < 0.5 || circle.r > 50] of [fitArc] does not catch; and the
    tests on the angle and on the ratio of arc to chord are false on NaN
    as well. *)
Theorem detectArcs_nan_radius (host : number -> number -> number) :
  detectArcs host 0.5 2 huge =
    Some [Arc (mkPoint 0 0) (mkPoint 0 2e200) (mkPoint nan nan) nan false;
          Line [mkPoint 0 2e200]] /\
  fitCircle huge = Some (mkCircle nan nan nan) /\
  (abs (determinant huge) <? 1e-10) = false /\
  is_nan (determinant huge) = true /\
  ((nan <? 0.5) || (nan >? 50)) = false /\
  (0.5 <=? nan) = false /\ (nan <=? 50) = false.
Proof. split; [apply detectArcs_huge | vm_compute; repeat split]. Qed.

(** So the bound on the radius does not hold of every emitted Arc. *)
Remark detectArcs_radius_unbounded :
  ~ (forall (host : number -> number -> number) (tol : number) (fuel : nat)
            (stroke : list Point) (segments : list Segment)
            (s e c : Point) (rad : number) (cw : bool),
        detectArcs host tol fuel stroke = Some segments ->
        In (Arc s e c rad cw) segments ->
        (0.5 <=? rad) = true /\ (rad <=? 50) = true).
Proof.
  intros H.
  destruct (H DemoHost.atan2 0.5 2%nat huge _ _ _ _ _ _
              (detectArcs_huge _) (or_introl eq_refl)) as [H1 _].
  vm_compute in H1. discriminate.
Qed.

(** Four points of the circle of radius 5 about the origin. *)
Example fitCircle_radius5 :
  fitCircle [mkPoint 5 0; mkPoint 0 5; mkPoint (-5) 0; mkPoint 0 (-5)]
  = Some (mkCircle 0 0 5).
Proof. reflexivity. Qed.

(** Collinear points have a system of determinant 0. *)
Example fitCircle_collinear :
  fitCircle [mkPoint 0 0; mkPoint 1 1; mkPoint 2 2; mkPoint 3 3] = None.
Proof. reflexivity. Qed.

End ArcFacts.

(* ================================================================== *)
(** ** Strings, the font and kerning *)

Module Text.

(** A JavaScript string: its UTF-16 code units. *)
Definition codeUnit := N.
Definition jsstring := list codeUnit.

(** A literal of the source. *)
Definition js (s : string) : jsstring := map N_of_ascii (list_ascii_of_string s).

(** [a === b] on strings. *)
Fixpoint eqs (a b : jsstring) : bool :=
  match a, b with
  | [], [] => true
  | x :: a', y :: b' => N.eqb x y && eqs a' b'
  | _, _ => false
  end.

(** [s.includes(c)] for a one-unit string [c]. *)
Definition includesUnit (s : jsstring) (c : codeUnit) : bool := existsb (N.eqb c) s.

(** [s.split(sep)] for a one-unit separator. *)
Fixpoint split (sep : codeUnit) (s : jsstring) : list jsstring :=
  match s with
  | [] => [[]]
  | c :: rest =>
      if N.eqb c sep then [] :: split sep rest
      else match split sep rest with
           | w :: ws => (c :: w) :: ws
           | [] => [[c]]
           end
  end.

(** The white space and line terminators that [trim] removes. *)
Definition isWhiteSpace (c : codeUnit) : bool :=
  existsb (N.eqb c)
    [0x9; 0xA; 0xB; 0xC; 0xD; 0x20; 0xA0; 0x1680; 0x2028; 0x2029; 0x202F;
     0x205F; 0x3000; 0xFEFF]%N
  || ((0x2000 <=? c) && (c <=? 0x200A))%N.

Fixpoint trimStart (s : jsstring) : jsstring :=
  match s with
  | c :: rest => if isWhiteSpace c then trimStart rest else s
  | [] => []
  end.

(** [s.trim()]. *)
Definition trim (s : jsstring) : jsstring := rev (trimStart (rev (trimStart s))).

(** [array.includes(s)] on an array of strings. *)
Definition includes (l : list jsstring) (s : jsstring) : bool := existsb (eqs s) l.

(** [s.charCodeAt(0)]; [None] is NaN, of the empty string. *)
Definition charCodeAt0 (s : jsstring) : option codeUnit := hd_error s.

Definition comma : codeUnit := 44%N.
Definition dash : codeUnit := 45%N.

End Text.

Module Font.
Import Stroke Text.

Record BBox := mkBBox {
  minX : number; minY : number; maxX : number; maxY : number;
  width : number; height : number }.

(** An entry of [this.font]; [None] is a property that is [undefined]. *)
Record CharData := mkCharData {
  strokes : list (list Point);
  bounds : BBox;
  horizAdvX : option number;
  glyphName : option jsstring }.

(** [this.font], read by [this.font[key]]. *)
Definition Font := jsstring -> option CharData.

Record FontMetrics := mkFontMetrics {
  unitsPerEm : number; ascent : number; descent : number;
  capHeight : number; xHeight : number }.

(** [normalizeCharacter(char)]. *)
Definition normalizeCharacter (char : jsstring) : jsstring :=
  match char with
  | [c] =>
      if (c =? 0x2019)%N then js "'"
      else if (c =? 0x2018)%N then js "'"
      else if (c =? 0x201C)%N then [34%N]
      else if (c =? 0x201D)%N then [34%N]
      else if (c =? 0x2013)%N then js "-"
      else if (c =? 0x2014)%N then js "-"
      else if (c =? 0x2026)%N then js "..."
      else char
  | _ => char
  end.

End Font.

Module Kerning.
Import Text Font.

(** An entry of [this.kerning]. *)
Inductive KernRule :=
| UnicodeRule (u1 u2 : jsstring) (k : number)   (* [type: 'unicode'] *)
| GlyphRule (g1 g2 : jsstring) (k : number).    (* [type: 'glyph'] *)

Definition ruleK (rule : KernRule) : number :=
  match rule with UnicodeRule _ _ k | GlyphRule _ _ k => k end.

(** [matchesUnicodePattern(char, pattern)]. *)
Definition matchesUnicodePattern (char pattern : jsstring) : bool :=
  match pattern with
  | [] => false
  | _ =>
      if eqs pattern char then true
      else if includesUnit pattern comma
              && includes (map trim (split comma pattern)) char then true
      else if includesUnit pattern dash && (3 <=? length pattern)%nat then
        match split dash pattern with
        | [part0; part1] =>
            match charCodeAt0 part0, charCodeAt0 part1, charCodeAt0 char with
            | Some start, Some end_, Some code =>
                ((start <=? code) && (code <=? end_))%N
            | _, _, _ => false
            end
        | _ => false
        end
      else false
  end.

(** [getGlyphName(char)]. *)
Definition getGlyphName (font : Font) (char : jsstring) : jsstring :=
  match font (normalizeCharacter char) with
  | Some charData =>
      match glyphName charData with
      | Some ((_ :: _) as name) => name
      | _ => char
      end
  | None => char
  end.

(** [matchesGlyphPattern(glyphName, pattern)]. *)
Definition matchesGlyphPattern (glyphName pattern : jsstring) : bool :=
  match pattern, glyphName with
  | [], _ | _, [] => false
  | _, _ =>
      if eqs pattern glyphName then true
      else includesUnit pattern comma
           && includes (map trim (split comma pattern)) glyphName
  end.

(** Whether the body of the loop of [getKerningAdjustment] adds [rule.k]. *)
Definition ruleApplies (font : Font) (char1 char2 : jsstring) (rule : KernRule) : bool :=
  match rule with
  | UnicodeRule u1 u2 _ =>
      matchesUnicodePattern char1 u1 && matchesUnicodePattern char2 u2
  | GlyphRule g1 g2 _ =>
      matchesGlyphPattern (getGlyphName font char1) g1
      && matchesGlyphPattern (getGlyphName font char2) g2
  end.

(** [getKerningAdjustment(char1, char2)] over [this.kerning = rules]. *)
Definition getKerningAdjustment (font : Font) (rules : list KernRule)
    (char1 char2 : jsstring) : number :=
  fold_left
    (fun adjustment rule =>
       if ruleApplies font char1 char2 rule then adjustment + ruleK rule
       else adjustment)
    rules 0.

End Kerning.

Module KerningFacts.
Import Text Font Kerning.

Lemma eqs_eq (a b : jsstring) : eqs a b = true <-> a = b.
Proof.
  revert b. induction a as [|x a IH]; intros [|y b]; cbn [eqs];
    try (split; [discriminate | congruence]); [tauto|].
  rewrite andb_true_iff, N.eqb_eq, IH. split.
  - now intros [-> ->].
  - intros H; inversion H; auto.
Qed.

Lemma includesUnit_In (s : jsstring) (c : codeUnit) :
  includesUnit s c = true <-> In c s.
Proof.
  unfold includesUnit. rewrite existsb_exists. split.
  - intros (x & Hin & Heq). apply N.eqb_eq in Heq. now subst.
  - intros Hin. exists c. split; [exact Hin | apply N.eqb_refl].
Qed.

Lemma includes_In (l : list jsstring) (s : jsstring) :
  includes l s = true <-> In s l.
Proof.
  unfold includes. rewrite existsb_exists. split.
  - intros (x & Hin & Heq). apply eqs_eq in Heq. now subst.
  - intros Hin. exists s. split; [exact Hin | now apply eqs_eq].
Qed.

(** What the code accepts as a match of a character by a unicode selector:
    the selector is not empty, and it is the character, or it has a comma
    and one of its comma-separated items, trimmed, is the character, or it
    is at least 3 units long, has exactly one [-], and the first unit of the
    character lies between the first units of what stands before and after
    the [-]. *)
Definition unicodeMatch (char pattern : jsstring) : Prop :=
  pattern <> [] /\
  (pattern = char \/
   (In comma pattern /\ In char (map trim (split comma pattern))) \/
   (In dash pattern /\ (3 <= length pattern)%nat /\
    exists part0 part1 start end_ code,
      split dash pattern = [part0; part1] /\
      charCodeAt0 part0 = Some start /\ charCodeAt0 part1 = Some end_ /\
      charCodeAt0 char = Some code /\ (start <= code <= end_)%N)).

Lemma matchesUnicodePattern_unicodeMatch (char pattern : jsstring) :
  matchesUnicodePattern char pattern = true <-> unicodeMatch char pattern.
Proof.
  unfold matchesUnicodePattern, unicodeMatch.
  destruct pattern as [|p0 pattern]; [split; [discriminate | now intros [[] _]]|].
  set (pat := p0 :: pattern).
  destruct (eqs pat char) eqn:Heq.
  { apply eqs_eq in Heq. split; [|reflexivity]. intros _. split; [discriminate|now left]. }
  assert (pat <> char) as Hne by (intros E; apply eqs_eq in E; congruence).
  destruct (includesUnit pat comma && includes (map trim (split comma pat)) char)
    eqn:Hlist.
  { apply andb_true_iff in Hlist. destruct Hlist as [Hc Hi].
    apply includesUnit_In in Hc. apply includes_In in Hi.
    split; [|reflexivity]. intros _. split; [discriminate|]. right; left. auto. }
  assert (~ (In comma pat /\ In char (map trim (split comma pat)))) as Hnl.
  { intros [Hc Hi]. apply includesUnit_In in Hc. apply includes_In in Hi.
    rewrite Hc, Hi in Hlist. discriminate. }
  destruct (includesUnit pat dash && (3 <=? length pat)%nat) eqn:Hrange.
  - apply andb_true_iff in Hrange. destruct Hrange as [Hd Hlen].
    apply includesUnit_In in Hd. apply Nat.leb_le in Hlen.
    destruct (split dash pat) as [|part0 [|part1 [|part2 parts]]] eqn:Hsplit.
    1,2,4: split; [discriminate|];
      intros [_ [H|[H|(_ & _ & a & b & x & y & z & H & _)]]];
      [tauto | tauto | discriminate H].
    destruct (charCodeAt0 part0) as [start|] eqn:H0,
             (charCodeAt0 part1) as [end_|] eqn:H1,
             (charCodeAt0 char) as [code|] eqn:H2.
    2-8: split; [discriminate|];
      intros [_ [H|[H|(_ & _ & a & b & x & y & z & H & Ha & Hb & Hc & _)]]];
      [tauto | tauto | inversion H; subst; congruence].
    rewrite andb_true_iff, !N.leb_le. split.
    + intros Hr. split; [discriminate|]. right; right.
      split; [exact Hd|]. split; [exact Hlen|].
      exists part0, part1, start, end_, code. auto.
    + intros [_ [H|[H|(_ & _ & a & b & x & y & z & H & Ha & Hb & Hc & Hr)]]];
        [tauto | tauto |].
      inversion H; subst. rewrite H0 in Ha. rewrite H1 in Hb.
      inversion Ha; inversion Hb; inversion Hc; subst. exact Hr.
  - split; [discriminate|].
    intros [_ [H|[H|(Hd & Hlen & _)]]]; [tauto | tauto |].
    apply includesUnit_In in Hd. apply Nat.leb_le in Hlen.
    rewrite Hd, Hlen in Hrange. discriminate.
Qed.

(** The loop adds the [k] of the rules that apply, in their order. *)
Lemma getKerningAdjustment_sum (font : Font) (rules : list KernRule)
    (char1 char2 : jsstring) :
  getKerningAdjustment font rules char1 char2
  = fsum (map ruleK (filter (ruleApplies font char1 char2) rules)).
Proof.
  unfold getKerningAdjustment, fsum. generalize 0.
  induction rules as [|rule rules IH]; intros acc; [reflexivity|].
  cbn [fold_left filter].
  destruct (ruleApplies font char1 char2 rule); cbn [map fold_left]; apply IH.
Qed.

(** A font without glyphs. *)
Definition noFont : Font := fun _ => None.

(** What the lookup does: it returns the sum, in rule order, of the [k] of
    all the rules whose first selector matches [c1] and whose second
    selector matches [c2]; the code takes a character for matched by a
    unicode selector exactly as [unicodeMatch] says.  Selector [A-Z]
    matches [B] and not [1], selector [A,V,W] matches [V] and not [B], and
    two rules that match the same pair both contribute. *)
Lemma getKerningAdjustment_sums :
  (forall font rules c1 c2,
      getKerningAdjustment font rules c1 c2
      = fsum (map ruleK (filter (ruleApplies font c1 c2) rules))) /\
  (forall font u1 u2 k c1 c2,
      ruleApplies font c1 c2 (UnicodeRule u1 u2 k) = true
      <-> unicodeMatch c1 u1 /\ unicodeMatch c2 u2) /\
  (matchesUnicodePattern (js "B") (js "A-Z") = true /\
   matchesUnicodePattern (js "1") (js "A-Z") = false /\
   matchesUnicodePattern (js "V") (js "A,V,W") = true /\
   matchesUnicodePattern (js "B") (js "A,V,W") = false) /\
  getKerningAdjustment noFont
    [UnicodeRule (js "A") (js "V") 1.5; UnicodeRule (js "A-Z") (js "V,W") 2;
     UnicodeRule (js "B") (js "V") 8]
    (js "A") (js "V") = 3.5.
Proof.
  split; [exact getKerningAdjustment_sum|].
  split; [|split; [repeat split|reflexivity]].
  intros font u1 u2 k c1 c2. cbn [ruleApplies].
  rewrite andb_true_iff, !matchesUnicodePattern_unicodeMatch. tauto.
Qed.

(** The specification's reading of a selector: it is the character, it lists the
    character among its comma-separated items, or it is a range [a-b] of
    two characters that spans the character's code. *)
Definition selectorMatches (char pattern : jsstring) : Prop :=
  pattern = char \/
  In char (map trim (split comma pattern)) \/
  exists a b code,
    pattern = [a; dash; b] /\ char = [code] /\ (a <= code <= b)%N.

(** C2 at the rule with first selector [(,-,)] and the pair [*], [V]: the
    selector is the list of [(], [-] and [)]; it is not [*], does not list
    [*] and is not a range of two characters, so the rule is not to
    contribute.  The code adds its [k]: after the list test has failed,
    [matchesUnicodePattern] goes on to the range test, which splits the
    list at its [-] into [(,] and [,)] and finds the code 42 of [*]
    between the codes 40 of [(] and 44 of [,]. *)
Theorem matchesUnicodePattern_not_listed :
  ~ selectorMatches (js "*") (js "(,-,)") /\
  matchesUnicodePattern (js "*") (js "(,-,)") = true /\
  map trim (split comma (js "(,-,)")) = [js "("; js "-"; js ")"] /\
  split dash (js "(,-,)") = [js "(,"; js ",)"] /\
  getKerningAdjustment noFont [UnicodeRule (js "(,-,)") (js "V") 2]
    (js "*") (js "V") = 2 /\
  getKerningAdjustment noFont [UnicodeRule (js "(,-,)") (js "V") 2]
    (js "(") (js "V") = 2.
Proof.
  split; [|vm_compute; repeat split].
  intros [H|[H|(a & b & code & H & _)]]; try discriminate H.
  cbn in H. decompose [or] H; try discriminate; assumption.
Qed.

End KerningFacts.

(* ================================================================== *)
(** ** The undo history *)

Module History.

Section Editor.

(** The value of [this.strokes], and [JSON.parse(JSON.stringify(x))] on
    it. *)
Variable Strokes : Type.
Variable jsonCopy : Strokes -> Strokes.

(** The fields of the controller that the history operations touch. *)
Record Editor := mkEditor {
  strokes : Strokes;
  history : list Strokes;
  historyIndex : Z }.

(** [array.slice(0, e)] for an integer [e]: a negative [e] counts from the
    end. *)
Definition sliceTo {A} (l : list A) (e : Z) : list A :=
  if (e <? 0)%Z then firstn (Z.to_nat (Z.max (Z.of_nat (length l) + e) 0)) l
  else firstn (Z.to_nat e) l.

(** [array[i]]; [None] is [undefined]. *)
Definition at_ {A} (l : list A) (i : Z) : option A :=
  if (i <? 0)%Z then None else nth_error l (Z.to_nat i).

(** [saveToHistory()]. *)
Definition saveToHistory (e : Editor) : Editor :=
  let history1 := sliceTo (history e) (historyIndex e + 1) ++ [jsonCopy (strokes e)] in
  let index1 := (historyIndex e + 1)%Z in
  if (50 <? length history1)%nat
  then mkEditor (strokes e) (tl history1) (index1 - 1)
  else mkEditor (strokes e) history1 index1.

(** [undo()]; [None] when [JSON.parse] throws on [undefined].  The calls
    [updateCharacterInFont()] and [render()] leave these fields alone. *)
Definition undo (e : Editor) : option Editor :=
  if (0 <? historyIndex e)%Z then
    let index1 := (historyIndex e - 1)%Z in
    match at_ (history e) index1 with
    | Some saved => Some (mkEditor (jsonCopy saved) (history e) index1)
    | None => None
    end
  else Some e.

(** [redo()]. *)
Definition redo (e : Editor) : option Editor :=
  if (historyIndex e <? Z.of_nat (length (history e)) - 1)%Z then
    let index1 := (historyIndex e + 1)%Z in
    match at_ (history e) index1 with
    | Some saved => Some (mkEditor (jsonCopy saved) (history e) index1)
    | None => None
    end
  else Some e.

(** [0 <= historyIndex <= history.length - 1] and [history.length <= 50]. *)
Definition invariant (e : Editor) : Prop :=
  (0 <= historyIndex e <= Z.of_nat (length (history e)) - 1)%Z /\
  (length (history e) <= 50)%nat.

(** The state after [this.history = []; this.historyIndex = -1]. *)
Definition cleared (e : Editor) : Prop :=
  history e = [] /\ historyIndex e = (-1)%Z.

End Editor.

Arguments strokes {Strokes} e.
Arguments history {Strokes} e.
Arguments historyIndex {Strokes} e.
Arguments mkEditor {Strokes} strokes history historyIndex.
Arguments saveToHistory {Strokes} jsonCopy e.
Arguments undo {Strokes} jsonCopy e.
Arguments redo {Strokes} jsonCopy e.
Arguments invariant {Strokes} e.
Arguments cleared {Strokes} e.

End History.

Module HistoryFacts.
Import History.

Section Facts.
Variable Strokes : Type.
Variable jsonCopy : Strokes -> Strokes.

Lemma at_in_range {A} (l : list A) (i : Z) :
  (0 <= i < Z.of_nat (length l))%Z -> exists x, at_ l i = Some x.
Proof.
  intros H. unfold at_. destruct (Z.ltb_spec i 0); [lia|].
  destruct (nth_error l (Z.to_nat i)) as [x|] eqn:E; [now exists x|].
  apply nth_error_None in E. lia.
Qed.

Lemma saveToHistory_invariant (e : Editor Strokes) :
  invariant e \/ cleared e -> invariant (saveToHistory jsonCopy e).
Proof.
  intros H.
  assert (length (sliceTo (history e) (historyIndex e + 1))
          = Z.to_nat (historyIndex e + 1) /\
          (-1 <= historyIndex e)%Z /\
          (Z.to_nat (historyIndex e + 1) <= 50)%nat) as (Hlen & Hlo & Hhi).
  { unfold sliceTo. destruct H as [[Hi Hl]|[Hh Hi]].
    - destruct (Z.ltb_spec (historyIndex e + 1) 0); [lia|].
      rewrite length_firstn. lia.
    - rewrite Hh, Hi. cbn. lia. }
  unfold saveToHistory, invariant.
  set (h1 := sliceTo (history e) (historyIndex e + 1) ++ [jsonCopy (strokes e)]).
  assert (length h1 = S (Z.to_nat (historyIndex e + 1))) as Hh1.
  { unfold h1. rewrite length_app, Hlen. cbn [length]. lia. }
  destruct (Nat.ltb_spec 50 (length h1)) as [Hbig|Hsmall];
    cbn [history historyIndex].
  - destruct h1 as [|x h1']; [cbn in Hh1; lia|]. cbn [tl length] in *. lia.
  - lia.
Qed.

Lemma undo_invariant (e : Editor Strokes) :
  invariant e ->
  exists e', undo jsonCopy e = Some e' /\ invariant e' /\
    (historyIndex e = 0%Z -> e' = e) /\
    ((0 < historyIndex e)%Z ->
       history e' = history e /\ historyIndex e' = (historyIndex e - 1)%Z /\
       exists saved, at_ (history e') (historyIndex e') = Some saved /\
                     strokes e' = jsonCopy saved).
Proof.
  intros [Hi Hl]. unfold undo.
  destruct (Z.ltb_spec 0 (historyIndex e)) as [Hpos|Hzero].
  - destruct (at_in_range (history e) (historyIndex e - 1)) as [saved Hs]; [lia|].
    rewrite Hs. eexists. split; [reflexivity|].
    unfold invariant. cbn [history historyIndex strokes].
    repeat split; try lia. exists saved. auto.
  - exists e. repeat split; auto; lia.
Qed.

Lemma redo_invariant (e : Editor Strokes) :
  invariant e ->
  exists e', redo jsonCopy e = Some e' /\ invariant e' /\
    (historyIndex e = (Z.of_nat (length (history e)) - 1)%Z -> e' = e) /\
    ((historyIndex e < Z.of_nat (length (history e)) - 1)%Z ->
       history e' = history e /\ historyIndex e' = (historyIndex e + 1)%Z /\
       exists saved, at_ (history e') (historyIndex e') = Some saved /\
                     strokes e' = jsonCopy saved).
Proof.
  intros [Hi Hl]. unfold redo.
  destruct (Z.ltb_spec (historyIndex e) (Z.of_nat (length (history e)) - 1))
    as [Hlt|Hge].
  - destruct (at_in_range (history e) (historyIndex e + 1)) as [saved Hs]; [lia|].
    rewrite Hs. eexists. split; [reflexivity|].
    unfold invariant. cbn [history historyIndex strokes].
    repeat split; try lia. exists saved. auto.
  - exists e. repeat split; auto; lia.
Qed.

Lemma cleared_undo_redo (e : Editor Strokes) :
  cleared e -> undo jsonCopy e = Some e /\ redo jsonCopy e = Some e.
Proof.
  intros [Hh Hi]. unfold undo, redo. rewrite Hh, Hi. split; reflexivity.
Qed.

End Facts.

(** C10: [saveToHistory], [undo] and [redo] keep the invariant
    [0 <= historyIndex <= history.length - 1], [history.length <= 50];
    [saveToHistory] establishes it from the cleared state, which [undo] and
    [redo] leave as it is; [undo] changes nothing when [historyIndex] is 0,
    [redo] nothing when it is [history.length - 1]; and otherwise they move
    the index by one and set the strokes to a copy of
    [history[historyIndex]]. *)
Theorem history_invariant (Strokes : Type) (jsonCopy : Strokes -> Strokes) :
  (forall e : Editor Strokes,
      invariant e \/ cleared e -> invariant (saveToHistory jsonCopy e)) /\
  (forall e : Editor Strokes,
      cleared e -> undo jsonCopy e = Some e /\ redo jsonCopy e = Some e) /\
  (forall e : Editor Strokes,
      invariant e ->
      exists e', undo jsonCopy e = Some e' /\ invariant e' /\
        (historyIndex e = 0%Z -> e' = e) /\
        ((0 < historyIndex e)%Z ->
           history e' = history e /\ historyIndex e' = (historyIndex e - 1)%Z /\
           exists saved, at_ (history e') (historyIndex e') = Some saved /\
                         strokes e' = jsonCopy saved)) /\
  (forall e : Editor Strokes,
      invariant e ->
      exists e', redo jsonCopy e = Some e' /\ invariant e' /\
        (historyIndex e = (Z.of_nat (length (history e)) - 1)%Z -> e' = e) /\
        ((historyIndex e < Z.of_nat (length (history e)) - 1)%Z ->
           history e' = history e /\ historyIndex e' = (historyIndex e + 1)%Z /\
           exists saved, at_ (history e') (historyIndex e') = Some saved /\
                         strokes e' = jsonCopy saved)).
Proof.
  split; [apply saveToHistory_invariant|].
  split; [apply cleared_undo_redo|].
  split; [apply undo_invariant | apply redo_invariant].
Qed.

(** Three saves, two undos and a redo from the cleared state, with numbers
    standing for the strokes. *)
Example history_run :
  let e0 := mkEditor 0%nat [] (-1)%Z in
  let save (s : nat) (e : Editor nat) := saveToHistory id (mkEditor s (history e) (historyIndex e)) in
  let e3 := save 3%nat (save 2%nat (save 1%nat e0)) in
  e3 = mkEditor 3%nat [1; 2; 3]%nat 2%Z /\
  undo id e3 = Some (mkEditor 2%nat [1; 2; 3]%nat 1%Z) /\
  option_map (redo id) (undo id e3) = Some (Some e3) /\
  save 4%nat (mkEditor 2%nat [1; 2; 3]%nat 1%Z) = mkEditor 4%nat [1; 2; 4]%nat 2%Z.
Proof. repeat split. Qed.

(** The 51st save drops the oldest entry. *)
Example history_cap :
  let full := mkEditor 0%nat (repeat 7%nat 50) 49%Z in
  saveToHistory id full = mkEditor 0%nat (repeat 7%nat 49 ++ [0%nat]) 49%Z.
Proof. reflexivity. Qed.

End HistoryFacts.

(* ================================================================== *)
(** ** Motion code for the segments of a stroke *)

Module GCode.
Import Stroke Arcs Text.

(** The parameters of the program, read from the page. *)
Record Machine := mkMachine {
  safeZ : number; feedRate : number; plungeRate : number; engraveDepth : number }.

(** Where the current glyph is placed: [scale], [currentX], [currentY] and
    [bounds.minX] of [generateGCode]. *)
Record Placement := mkPlacement {
  scale : number; currentX : number; currentY : number; boundsMinX : number }.

(** The variables that the emission of a stroke reads and writes:
    [gcode], [lastGCodeLine], [lastFeedRate] ([None] is [null]),
    [isFirstSegment] and [isAtSafeZ]. *)
Record Emitter := mkEmitter {
  gcode : list jsstring;
  lastGCodeLine : jsstring;
  lastFeedRate : option number;
  isFirstSegment : bool;
  isAtSafeZ : bool }.

Section Emit.

(** The conversion of a number to a string in a template literal, and
    [x.toFixed(3)]: functions of the language. *)
Variable numberToString : number -> jsstring.
Variable toFixed3 : number -> jsstring.

Variable m : Machine.
Variable p : Placement.

(** The transform from canvas space to the space of the program. *)
Definition toX (x : number) : number := (x - boundsMinX p) * scale p + currentX p.
Definition toY (y : number) : number := currentY p - y * scale p.

(** [addGCode(line)]. *)
Definition addGCode (st : Emitter) (line : jsstring) : Emitter :=
  if negb (eqs line (lastGCodeLine st)) then
    mkEmitter (gcode st ++ [line]) line (lastFeedRate st)
              (isFirstSegment st) (isAtSafeZ st)
  else st.

Definition setLastFeedRate (st : Emitter) (f : option number) : Emitter :=
  mkEmitter (gcode st) (lastGCodeLine st) f (isFirstSegment st) (isAtSafeZ st).

(** [lastFeedRate !== rate ? ` F${rate}` : '']. *)
Definition feedCodeFor (st : Emitter) (rate : number) : jsstring :=
  match lastFeedRate st with
  | Some last => if last =? rate then [] else js " F" ++ numberToString rate
  | None => js " F" ++ numberToString rate
  end.

(** The block under [if (isFirstSegment)] (and under
    [if (isFirstSegment && ptIdx === 0)]): lift if needed, travel to
    [(x, y)], plunge. *)
Definition penDown (st : Emitter) (x y : number) : Emitter :=
  let st :=
    if negb (isAtSafeZ st) then
      setLastFeedRate (addGCode st (js "G0 Z" ++ numberToString (safeZ m))) None
    else st in
  let st :=
    setLastFeedRate
      (addGCode st (js "G0 X" ++ toFixed3 x ++ js " Y" ++ toFixed3 y
                    ++ feedCodeFor st (feedRate m)))
      (Some (feedRate m)) in
  let st :=
    setLastFeedRate
      (addGCode st (js "G1 Z" ++ numberToString (engraveDepth m)
                    ++ feedCodeFor st (plungeRate m)))
      (Some (plungeRate m)) in
  mkEmitter (gcode st) (lastGCodeLine st) (lastFeedRate st) false false.

(** The arc command of an Arc segment, as the state [st] before it
    decides on the feed parameter. *)
Definition arcLine (st : Emitter) (start end_ center : Point) (clockwise : bool)
    : jsstring :=
  let startX := toX (px start) in
  let startY := toY (py start) in
  let endX := toX (px end_) in
  let endY := toY (py end_) in
  let centerX := toX (px center) in
  let centerY := toY (py center) in
  let i := centerX - startX in
  let j := centerY - startY in
  let gcode_cmd := if clockwise then js "G3" else js "G2" in
  gcode_cmd ++ js " X" ++ toFixed3 endX ++ js " Y" ++ toFixed3 endY
  ++ js " I" ++ toFixed3 i ++ js " J" ++ toFixed3 j
  ++ feedCodeFor st (feedRate m).

(** The body of [segments.forEach(segment => ...)].  The radius check of
    the Arc branch only writes a warning to the console. *)
Definition emitSegment (st : Emitter) (segment : Segment) : Emitter :=
  match segment with
  | Arc start end_ center _ clockwise =>
      let st :=
        if isFirstSegment st then penDown st (toX (px start)) (toY (py start))
        else st in
      setLastFeedRate (addGCode st (arcLine st start end_ center clockwise))
                      (Some (feedRate m))
  | Line points =>
      fst (fold_left
        (fun (acc : Emitter * nat) point =>
           let '(st, ptIdx) := acc in
           let x := toX (px point) in
           let y := toY (py point) in
           (if isFirstSegment st && (ptIdx =? 0)%nat then penDown st x y
            else
              setLastFeedRate
                (addGCode st (js "G1 X" ++ toFixed3 x ++ js " Y" ++ toFixed3 y
                              ++ feedCodeFor st (feedRate m)))
                (Some (feedRate m)),
            S ptIdx))
        points (st, 0%nat))
  end.

(** The body of [charData.strokes.forEach(stroke => ...)] once
    [detectArcs(stroke)] has returned [segments]: the segments, then the
    pen goes up. *)
Definition emitStroke (st : Emitter) (segments : list Segment) : Emitter :=
  let st := mkEmitter (gcode st) (lastGCodeLine st) (lastFeedRate st) true
                      (isAtSafeZ st) in
  let st := fold_left emitSegment segments st in
  let st := addGCode st (js "G0 Z" ++ numberToString (safeZ m)) in
  mkEmitter (gcode st) (lastGCodeLine st) None (isFirstSegment st) true.

End Emit.

End GCode.

Module GCodeFacts.
Import Stroke Arcs Text GCode.

Section Facts.
Variable numberToString : number -> jsstring.
Variable toFixed3 : number -> jsstring.
Variable m : Machine.
Variable p : Placement.

Abbreviation addGCode := (addGCode).
Abbreviation penDown := (penDown numberToString toFixed3 m).
Abbreviation emitSegment := (emitSegment numberToString toFixed3 m p).
Abbreviation feedCodeFor := (feedCodeFor numberToString).

(** The last line of the program is the line that [addGCode] compares
    with, unless the first segment of the stroke is still to come. *)
Definition tracked (st : Emitter) : Prop :=
  isFirstSegment st = true \/ last (gcode st) [] = lastGCodeLine st.

Lemma addGCode_lastGCodeLine (st : Emitter) (line : jsstring) :
  lastGCodeLine (addGCode st line) = line.
Proof.
  unfold GCode.addGCode. destruct (eqs line (lastGCodeLine st)) eqn:E; cbn.
  - symmetry. now apply KerningFacts.eqs_eq.
  - reflexivity.
Qed.

Lemma addGCode_last (st : Emitter) (line : jsstring) :
  last (gcode st) [] = lastGCodeLine st ->
  last (gcode (addGCode st line)) [] = line.
Proof.
  intros H. unfold GCode.addGCode.
  destruct (eqs line (lastGCodeLine st)) eqn:E; cbn.
  - apply KerningFacts.eqs_eq in E. congruence.
  - apply last_last.
Qed.

Lemma addGCode_new (st : Emitter) (line : jsstring) :
  eqs line (lastGCodeLine st) = false ->
  last (gcode (addGCode st line)) [] = line.
Proof.
  intros E. unfold GCode.addGCode. rewrite E. cbn. apply last_last.
Qed.

Lemma addGCode_flags (st : Emitter) (line : jsstring) :
  isFirstSegment (addGCode st line) = isFirstSegment st /\
  isAtSafeZ (addGCode st line) = isAtSafeZ st /\
  lastFeedRate (addGCode st line) = lastFeedRate st.
Proof.
  unfold GCode.addGCode. destruct (eqs line (lastGCodeLine st)); cbn; auto.
Qed.

Lemma setLastFeedRate_gcode (st : Emitter) (f : option number) :
  gcode (setLastFeedRate st f) = gcode st.
Proof. reflexivity. Qed.

Lemma setLastFeedRate_line (st : Emitter) (f : option number) :
  lastGCodeLine (setLastFeedRate st f) = lastGCodeLine st.
Proof. reflexivity. Qed.

(** After the pen went down the program ends with the plunge, whatever it
    held before. *)
Lemma penDown_last (st : Emitter) (x y : number) :
  let st' := penDown st x y in
  isFirstSegment st' = false /\
  last (gcode st') [] = lastGCodeLine st' /\
  lastFeedRate st' = Some (plungeRate m).
Proof.
  unfold GCode.penDown. cbv zeta.
  cbn [isFirstSegment gcode lastGCodeLine lastFeedRate].
  split; [reflexivity|]. split; [|reflexivity].
  rewrite setLastFeedRate_gcode, setLastFeedRate_line, addGCode_lastGCodeLine.
  apply addGCode_new.
  rewrite setLastFeedRate_line, addGCode_lastGCodeLine. reflexivity.
Qed.

Lemma emitSegment_tracked (st : Emitter) (segment : Segment) :
  tracked st -> tracked (emitSegment st segment).
Proof.
  intros Ht. destruct segment as [points|start end_ center radius cw];
    cbn [GCode.emitSegment].
  - set (step := fun (acc : Emitter * nat) (point : Point) => _).
    assert (forall pts acc, tracked (fst acc) -> tracked (fst (fold_left step pts acc)))
      as Hfold.
    { induction pts as [|pt pts IH]; intros [st0 idx] H0; [exact H0|].
      cbn [fold_left]. apply IH. unfold step. cbn [fst].
      destruct (isFirstSegment st0 && (idx =? 0)%nat) eqn:Hfirst.
      - right. apply penDown_last.
      - destruct H0 as [H0|H0].
        + left. unfold setLastFeedRate. cbn [isFirstSegment].
          now rewrite (proj1 (addGCode_flags _ _)).
        + right. unfold setLastFeedRate. cbn [gcode lastGCodeLine].
          rewrite addGCode_lastGCodeLine. now apply addGCode_last. }
    apply (Hfold points (st, 0%nat)). exact Ht.
  - right. unfold setLastFeedRate. cbn [gcode lastGCodeLine].
    rewrite addGCode_lastGCodeLine. apply addGCode_last.
    destruct (isFirstSegment st) eqn:Hfirst.
    + apply penDown_last.
    + destruct Ht as [Ht|Ht]; [congruence | exact Ht].
Qed.

End Facts.

(** C9: the command emitted for an Arc segment is [G3] when its clockwise
    flag (in canvas space) is true and [G2] when it is false, its I and J
    parameters are the transformed center minus the transformed start
    point, and it is the last line of the program once the segment is
    done. *)
Theorem arc_command (numberToString toFixed3 : number -> jsstring)
    (m : Machine) (p : Placement) (st : Emitter)
    (start end_ center : Point) (radius : number) (clockwise : bool) :
  tracked st ->
  let st' := emitSegment numberToString toFixed3 m p st
               (Arc start end_ center radius clockwise) in
  exists feedCode,
    (feedCode = [] \/ feedCode = js " F" ++ numberToString (feedRate m)) /\
    last (gcode st') [] =
      (if clockwise then js "G3" else js "G2")
      ++ js " X" ++ toFixed3 (toX p (px end_))
      ++ js " Y" ++ toFixed3 (toY p (py end_))
      ++ js " I" ++ toFixed3 (toX p (px center) - toX p (px start))
      ++ js " J" ++ toFixed3 (toY p (py center) - toY p (py start))
      ++ feedCode /\
    lastGCodeLine st' = last (gcode st') [] /\
    tracked st'.
Proof.
  intros Ht st'.
  pose proof (emitSegment_tracked numberToString toFixed3 m p st
                (Arc start end_ center radius clockwise) Ht) as Ht'.
  fold st' in Ht'.
  assert (isFirstSegment st' = false) as Hnf.
  { unfold st'. cbn [emitSegment]. unfold setLastFeedRate. cbn [isFirstSegment].
    rewrite (proj1 (addGCode_flags _ _)).
    destruct (isFirstSegment st) eqn:E; [reflexivity | exact E]. }
  assert (last (gcode st') [] = lastGCodeLine st') as Hlast
    by (destruct Ht' as [H|H]; [congruence | exact H]).
  set (st1 := if isFirstSegment st
              then penDown numberToString toFixed3 m st (toX p (px start)) (toY p (py start))
              else st).
  exists (feedCodeFor numberToString st1 (feedRate m)).
  split.
  { unfold feedCodeFor. destruct (lastFeedRate st1) as [f|]; [|now right].
    destruct (f =? feedRate m); [now left | now right]. }
  split; [|split; [now symmetry | exact Ht']].
  rewrite Hlast. unfold st'. cbn [emitSegment]. fold st1.
  unfold setLastFeedRate. cbn [lastGCodeLine].
  rewrite addGCode_lastGCodeLine. reflexivity.
Qed.

(** A run: the quarter circle of [ArcFacts.quarter], placed at scale 1
    with its baseline at Y = 20. *)
Definition machine : Machine := mkMachine 5 1000 300 (-1).
Definition placement : Placement := mkPlacement 1 0 20 0.

(** The state in which [generateGCode] reaches the first stroke. *)
Definition start0 : Emitter :=
  mkEmitter [] (js "G0 Z5 F300 ; Move to safe Z") None true true.

Definition quarterSegments : list Segment :=
  [Arc (mkPoint 10 0) (mkPoint 6.123233995736766e-16 10) ArcFacts.quarterCenter
       10.000000000000046 false;
   Line [mkPoint 6.123233995736766e-16 10]].

(** A string of the source, to read. *)
Definition show (l : jsstring) : string := string_of_list_ascii (map ascii_of_N l).

Example emitStroke_quarter :
  map show (gcode (emitStroke DemoHost.numberToString (DemoHost.toFixed 3)
                     machine placement start0 quarterSegments))
  = ["G0 X10.000 Y20.000 F1000"; "G1 Z-1 F300";
     "G2 X0.000 Y10.000 I-10.000 J0.000 F1000"; "G1 X0.000 Y10.000";
     "G0 Z5"]%string.
Proof. vm_compute. reflexivity. Qed.

(** The same arc with the clockwise flag set is a [G3]. *)
Example emitSegment_clockwise :
  show (lastGCodeLine
          (emitSegment DemoHost.numberToString (DemoHost.toFixed 3) machine placement
             start0 (Arc (mkPoint 0 10) (mkPoint 10 0) (mkPoint 0 0) 10 true)))
  = "G3 X10.000 Y20.000 I0.000 J10.000 F1000"%string.
Proof. vm_compute. reflexivity. Qed.

Lemma arc_command_witness :
  let st' := emitSegment DemoHost.numberToString (DemoHost.toFixed 3) machine placement
               start0 (Arc (mkPoint 0 10) (mkPoint 10 0) (mkPoint 0 0) 10 true) in
  exists feedCode,
    (feedCode = [] \/ feedCode = js " F" ++ DemoHost.numberToString (feedRate machine)) /\
    last (gcode st') [] =
      (if true then js "G3" else js "G2")
      ++ js " X" ++ DemoHost.toFixed 3 (toX placement (px (mkPoint 10 0)))
      ++ js " Y" ++ DemoHost.toFixed 3 (toY placement (py (mkPoint 10 0)))
      ++ js " I" ++ DemoHost.toFixed 3 (toX placement (px (mkPoint 0 0))
                                        - toX placement (px (mkPoint 0 10)))
      ++ js " J" ++ DemoHost.toFixed 3 (toY placement (py (mkPoint 0 0))
                                        - toY placement (py (mkPoint 0 10)))
      ++ feedCode /\
    lastGCodeLine st' = last (gcode st') [] /\
    tracked st'.
Proof. apply arc_command. left. reflexivity. Defined.

End GCodeFacts.

(* ================================================================== *)
(** ** Text layout: word wrap, auto-fit and glyph placement *)

Module Layout.
Import Text Font Kerning.

(** The values that the exporters read from the page, and
    [this.canvas.height]. *)
Record Settings := mkSettings {
  outputSize : number;
  charSpacing : number;
  spaceWidth : number;
  lineGap : number;
  maxWidth : number;
  maxHeight : number;
  autoFit : bool;
  maxTextSize : number;
  referenceHeight : number }.

Definition newline : codeUnit := 10%N.
Definition space : codeUnit := 32%N.

Section Engine.
Variable font : Font.
Variable fontMetrics : FontMetrics.
Variable kerning : list KernRule.
Variable cfg : Settings.

(** [(this.canvas.height * 0.7) / fontRange], named [canvasScale] in
    [generateGCode] and [svgToCanvasScale] in the other exporters. *)
Definition canvasScale : number :=
  (referenceHeight cfg * 0.7) / (ascent fontMetrics - descent fontMetrics).

(** *** Word wrap *)

(** The state of [words.forEach]: the lines pushed so far, [currentLine]
    and [currentWidth]. *)
Definition WrapState := (list jsstring * jsstring * number)%type.

(** The body of [words.forEach(word => ...)], the same in every copy of
    the wrapping code, for the width [wordWidth] of the word and the width
    [spaceWidthTotal] of a space. *)
Definition wrapWord (spaceWidthTotal : number) (measure : jsstring -> number)
    (st : WrapState) (word : jsstring) : WrapState :=
  let '(lines, currentLine, currentWidth) := st in
  let wordWidth := measure word in
  if (0 <? length currentLine)%nat
     && (currentWidth + spaceWidthTotal + wordWidth >? maxWidth cfg)
  then (lines ++ [currentLine], word, wordWidth)
  else if (0 <? length currentLine)%nat
  then (lines, currentLine ++ [space] ++ word,
        currentWidth + (spaceWidthTotal + wordWidth))
  else (lines, word, wordWidth).

(** The body of [inputLines.forEach(inputLine => ...)]: the lines that one
    input line adds. *)
Definition wrapLine (spaceWidthTotal : number) (measure : jsstring -> number)
    (inputLine : jsstring) : list jsstring :=
  let '(lines, currentLine, _) :=
    fold_left (wrapWord spaceWidthTotal measure) (split space inputLine)
              ([], [], 0) in
  lines ++ [currentLine].

Definition wrapText (spaceWidthTotal : number) (measure : jsstring -> number)
    (inputLines : list jsstring) : list jsstring :=
  flat_map (wrapLine spaceWidthTotal measure) inputLines.

(** The width of a glyph in canvas pixels: its advance if it has one,
    else the width of its bounds. *)
Definition charWidthCanvas (charData : CharData) : number :=
  match horizAdvX charData with
  | Some h => h * canvasScale
  | None => width (bounds charData)
  end.

(** The width of a word in the first wrapping of [generateGCode], at
    [scale] and [size]. *)
Definition wordWidth0 (scale size : number) (word : jsstring) : number :=
  fold_left
    (fun wordWidth c =>
       match font (normalizeCharacter [c]) with
       | Some charData =>
           wordWidth + (charWidthCanvas charData * scale + charSpacing cfg)
       | None => wordWidth + (size * 0.5 + charSpacing cfg)
       end)
    word 0.

(** [spaceWidthTotal] of the first wrapping. *)
Definition spaceWidthTotal0 (scale : number) : number :=
  match font (js " ") with
  | Some {| horizAdvX := Some h |} => h * canvasScale * scale + charSpacing cfg
  | _ => spaceWidth cfg + charSpacing cfg
  end.

(** The first wrapping: [wrappedLines] before the auto-fit. *)
Definition wrappedLines0 (inputLines : list jsstring) : list jsstring :=
  if maxWidth cfg >? 0 then
    wrapText (spaceWidthTotal0 (outputSize cfg / referenceHeight cfg))
             (wordWidth0 (outputSize cfg / referenceHeight cfg) (outputSize cfg))
             inputLines
  else inputLines.

(** *** [calculateDimensions(testSize)] *)

Record Dimensions := mkDimensions {
  dimWidth : number; dimHeight : number; dimLines : list jsstring }.

(** The width of a word in the re-wrapping at [testSize]. *)
Definition testWordWidth (testSize : number) (word : jsstring) : number :=
  let testScale := testSize / referenceHeight cfg in
  fold_left
    (fun wordWidth c =>
       match font [c] with
       | Some charData =>
           wordWidth + (width (bounds charData) * testScale + charSpacing cfg)
       | None => wordWidth + (testSize * 0.5 + charSpacing cfg)
       end)
    word 0.

(** The width of a wrapped line at [testSize]. *)
Definition testLineWidth (testSize : number) (line : jsstring) : number :=
  let testScale := testSize / referenceHeight cfg in
  fold_left
    (fun lineWidth c =>
       match font (normalizeCharacter [c]) with
       | Some charData =>
           match horizAdvX charData with
           | Some h => lineWidth + (h * testScale + charSpacing cfg)
           | None => lineWidth + (width (bounds charData) * testScale + charSpacing cfg)
           end
       | None =>
           if (c =? space)%N then
             match font (js " ") with
             | Some {| horizAdvX := Some h |} =>
                 lineWidth + (h * testScale + charSpacing cfg)
             | _ => lineWidth + (spaceWidth cfg + charSpacing cfg)
             end
           else lineWidth + (testSize * 0.5 + charSpacing cfg)
       end)
    line 0.

(** The total height of [lines] at [size] with [lineSpacing] between
    lines that are not blank. *)
Definition totalHeightOf (size lineSpacing : number) (lines : list jsstring) : number :=
  fold_left
    (fun totalHeight line =>
       totalHeight + (if (length line =? 0)%nat then size * 0.5 else lineSpacing))
    (tl lines) size.

Definition calculateDimensions (inputLines : list jsstring) (testSize : number)
    : Dimensions :=
  let testLineSpacing := testSize + lineGap cfg in
  let testWrappedLines :=
    if maxWidth cfg >? 0 then
      wrapText (spaceWidth cfg + charSpacing cfg) (testWordWidth testSize) inputLines
    else inputLines in
  let maxLineWidth :=
    fold_left (fun maxLineWidth line => Math_max maxLineWidth (testLineWidth testSize line))
              testWrappedLines 0 in
  mkDimensions maxLineWidth (totalHeightOf testSize testLineSpacing testWrappedLines)
               testWrappedLines.

(** *** The size search *)

(** [fitsWidth && fitsHeight]. *)
Definition fits (dims : Dimensions) : bool :=
  ((maxWidth cfg <=? 0) || (dimWidth dims <=? maxWidth cfg))
  && ((maxHeight cfg <=? 0) || (dimHeight dims <=? maxHeight cfg)).

(** The loop [for (let testSize = ...; testSize <= maxTextSize;
    testSize += 0.5)], entered at [testSize] with [(bestSize,
    bestWrappedLines) = best]; [None] when it has not ended after [fuel]
    turns. *)
Fixpoint search (fuel : nat) (inputLines : list jsstring) (testSize : number)
    (best : number * list jsstring) : option (number * list jsstring) :=
  if testSize <=? maxTextSize cfg then
    match fuel with
    | O => None
    | S fuel' =>
        let dims := calculateDimensions inputLines testSize in
        if fits dims then search fuel' inputLines (testSize + 0.5) (testSize, dimLines dims)
        else Some best
    end
  else Some best.

(** The layout that [generateGCode] settles on for [text]: the output size
    and the wrapped lines, after the block under [if (autoFit &&
    (maxWidth > 0 || maxHeight > 0))]. *)
Definition layout (fuel : nat) (text : jsstring) : option (number * list jsstring) :=
  let inputLines := split newline text in
  if autoFit cfg && ((maxWidth cfg >? 0) || (maxHeight cfg >? 0)) then
    search fuel inputLines (outputSize cfg) (outputSize cfg, wrappedLines0 inputLines)
  else Some (outputSize cfg, wrappedLines0 inputLines).

(** *** Placement of the glyphs of a line *)

(** What [generateGCode] adds to [currentX] for the character [c] of a
    line, followed by [rest], at output size [size]. *)
Definition gcodeAdvance (size : number) (c : codeUnit) (rest : jsstring) : number :=
  let scale := size / referenceHeight cfg in
  match font (normalizeCharacter [c]) with
  | None =>
      if (c =? space)%N then
        match font (js " ") with
        | Some {| horizAdvX := Some h |} => h * canvasScale * scale + charSpacing cfg
        | _ => spaceWidth cfg + charSpacing cfg
        end
      else size * 0.5 + charSpacing cfg
  | Some charData =>
      let spacing :=
        match rest with
        | nextChar :: _ =>
            charSpacing cfg - getKerningAdjustment font kerning [c] [nextChar]
        | [] => charSpacing cfg
        end in
      charWidthCanvas charData * scale + spacing
  end.

(** What [exportImage] adds to [currentX] for the character [c]. *)
Definition imageAdvance (size : number) (c : codeUnit) (rest : jsstring) : number :=
  let scale := size / referenceHeight cfg in
  match font [c] with
  | None => (if (c =? space)%N then spaceWidth cfg else size * 0.5) + charSpacing cfg
  | Some charData =>
      match horizAdvX charData with
      | Some h => h * canvasScale * scale + charSpacing cfg
      | None => width (bounds charData) * scale + charSpacing cfg
      end
  end.

(** The values of [currentX] at the characters of a line, for an exporter
    that starts the line at [x] and advances by [advance]. *)
Fixpoint cursors (advance : codeUnit -> jsstring -> number) (line : jsstring)
    (x : number) : list number :=
  match line with
  | [] => []
  | c :: rest => x :: cursors advance rest (x + advance c rest)
  end.

(** [generateGCode] starts a line at 0, [exportImage] at [padding]. *)
Definition gcodeCursors (size : number) (line : jsstring) : list number :=
  cursors (gcodeAdvance size) line 0.

Definition imageCursors (size : number) (line : jsstring) : list number :=
  cursors (imageAdvance size) line 20.

(** The step between lines, in both exporters. *)
Definition lineAdvance (size : number) (line : jsstring) : number :=
  if (length line =? 0)%nat then size * 0.5 else size + lineGap cfg.

End Engine.

End Layout.

Module LayoutFacts.
Import Stroke Text Font Kerning Layout.

Section Search.
Variable font : Font.
Variable cfg : Settings.
Variable inputLines : list jsstring.

(** The [k]-th size that the loop reaches from [s]: [s], [s + 0.5],
    [s + 0.5 + 0.5], ... *)
Fixpoint candidate (s : number) (k : nat) : number :=
  match k with
  | O => s
  | S k' => candidate (s + 0.5) k'
  end.

(** A size that the loop accepts: it is within [maxTextSize] and the
    text, wrapped again at this size, fits the bounds. *)
Definition accepts (s : number) : bool :=
  (s <=? maxTextSize cfg) && fits cfg (calculateDimensions font cfg inputLines s).

(** [k] is the first candidate from [s] that the loop does not accept. *)
Definition firstRejected (s : number) (k : nat) : Prop :=
  (forall j, (j < k)%nat -> accepts (candidate s j) = true) /\
  accepts (candidate s k) = false.

(** What the loop has in [(bestSize, bestWrappedLines)] when it stops at
    the candidate [k]: the candidate before it, or what it started with. *)
Definition lastAccepted (s : number) (best : number * list jsstring) (k : nat)
    : number * list jsstring :=
  match k with
  | O => best
  | S k' => (candidate s k',
             dimLines (calculateDimensions font cfg inputLines (candidate s k')))
  end.

(** The loop returns when there is a candidate that it does not accept,
    after as many turns as candidates it accepts before that one. *)
Lemma search_returns :
  forall k fuel s best,
    firstRejected s k -> (k < fuel)%nat ->
    search font cfg fuel inputLines s best = Some (lastAccepted s best k).
Proof.
  induction k as [|k IH]; intros fuel s best [Hall Hstop] Hfuel;
    (destruct fuel as [|fuel]; [lia|]); cbn [search].
  - cbn [candidate] in Hstop. unfold accepts in Hstop.
    destruct (s <=? maxTextSize cfg); [|reflexivity].
    cbn [andb] in Hstop. now rewrite Hstop.
  - pose proof (Hall 0%nat ltac:(lia)) as H0. cbn [candidate] in H0.
    unfold accepts in H0. apply andb_true_iff in H0. destruct H0 as [Hle Hfit].
    rewrite Hle, Hfit.
    rewrite (IH fuel (s + 0.5)
               (s, dimLines (calculateDimensions font cfg inputLines s))).
    + destruct k; reflexivity.
    + split.
      * intros j Hj. apply (Hall (S j)). lia.
      * exact Hstop.
    + lia.
Qed.

(** A loop that returns stopped at the first candidate that it does not
    accept, and returns the candidate before it, or what it started
    with. *)
Lemma search_first_failure :
  forall fuel s best result,
    search font cfg fuel inputLines s best = Some result ->
    exists k,
      (forall j, (j < k)%nat -> accepts (candidate s j) = true) /\
      accepts (candidate s k) = false /\
      result = match k with
               | O => best
               | S k' => (candidate s k',
                          dimLines (calculateDimensions font cfg inputLines
                                      (candidate s k')))
               end.
Proof.
  induction fuel as [|fuel IH]; intros s best result; cbn [search].
  - destruct (s <=? maxTextSize cfg) eqn:Hle; [discriminate|].
    intros H; inversion H; subst. exists 0%nat. unfold accepts. cbn [candidate].
    rewrite Hle. repeat split. intros j Hj. lia.
  - destruct (s <=? maxTextSize cfg) eqn:Hle.
    2:{ intros H; inversion H; subst. exists 0%nat. unfold accepts. cbn [candidate].
        rewrite Hle. repeat split. intros j Hj. lia. }
    destruct (fits cfg (calculateDimensions font cfg inputLines s)) eqn:Hfit.
    2:{ intros H; inversion H; subst. exists 0%nat. unfold accepts. cbn [candidate].
        rewrite Hle, Hfit. repeat split. intros j Hj. lia. }
    intros H. apply IH in H. destruct H as (k & Hall & Hstop & Hres).
    exists (S k). cbn [candidate]. split; [|split; [exact Hstop|]].
    + intros [|j] Hj; cbn [candidate].
      * unfold accepts. now rewrite Hle, Hfit.
      * apply Hall. lia.
    + destruct k as [|k']; exact Hres.
Qed.

End Search.

(** C3, amended: when auto-fit is on and one of maxWidth/maxHeight is
    positive, the search walks the sizes outputSize, outputSize + 0.5, ...
    and stops at the first one that exceeds maxTextSize or whose re-wrapped
    text does not fit the bounds that are set.  When there is such a size,
    the [k]-th, the search returns within [k + 1] turns of its loop; it
    returns the size before that one with its wrapped lines, and the
    configured output size with the first wrapping when the very first
    size is turned down.  Conversely a search that returns has stopped at
    such a size.  The result is a function of the inputs: the same on
    every run, and with any number of turns allowed beyond [k]. *)
Theorem layout_first_failure (font : Font) (fontMetrics : FontMetrics)
    (cfg : Settings) (text : jsstring) :
  autoFit cfg = true ->
  ((maxWidth cfg >? 0) || (maxHeight cfg >? 0)) = true ->
  let inputLines := split newline text in
  let first := (outputSize cfg, wrappedLines0 font fontMetrics cfg inputLines) in
  (forall k fuel,
      firstRejected font cfg inputLines (outputSize cfg) k -> (k < fuel)%nat ->
      layout font fontMetrics cfg fuel text
      = Some (lastAccepted font cfg inputLines (outputSize cfg) first k)) /\
  (forall fuel result,
      layout font fontMetrics cfg fuel text = Some result ->
      exists k,
        firstRejected font cfg inputLines (outputSize cfg) k /\
        result = lastAccepted font cfg inputLines (outputSize cfg) first k).
Proof.
  intros Hauto Hbound inputLines first. unfold layout.
  rewrite Hauto, Hbound. cbn [andb]. split.
  - intros k fuel Hk Hfuel. now apply search_returns.
  - intros fuel result Hrun. apply search_first_failure in Hrun.
    destruct Hrun as (k & Hall & Hstop & Hres). exists k.
    split; [split; assumption | exact Hres].
Qed.

(** A glyph whose advance (300) is wider than its bounds (282). *)
Definition glyph_a : CharData :=
  mkCharData [[mkPoint 0 0; mkPoint 141 300; mkPoint 282 0]]
             (mkBBox 0 0 282 300 282 300) (Some 300) None.

Definition font_a : Font := fun key => if eqs key (js "a") then Some glyph_a else None.

Definition metrics : FontMetrics := mkFontMetrics 1000 800 (-200) 700 500.

(** Output size 10, no character spacing, space width 3, line gap 2,
    maxWidth 13.2, no maxHeight, auto-fit up to size 11, canvas height
    600. *)
Definition cfg_a : Settings := mkSettings 10 0 3 2 13.2 0 true 11 600.

(** The text [a a]: the size 10 is accepted and the size 10.5 is not. *)
Lemma firstRejected_a :
  firstRejected font_a cfg_a (split newline (js "a a")) (outputSize cfg_a) 1.
Proof.
  split; [|reflexivity].
  intros j Hj. assert (j = 0%nat) as -> by lia. reflexivity.
Qed.

Lemma layout_first_failure_witness :
  layout font_a metrics cfg_a 2 (js "a a") = Some (10, [js "a a"]) /\
  exists k,
    firstRejected font_a cfg_a (split newline (js "a a")) (outputSize cfg_a) k /\
    (10, [js "a a"])
    = lastAccepted font_a cfg_a (split newline (js "a a")) (outputSize cfg_a)
        (outputSize cfg_a,
         wrappedLines0 font_a metrics cfg_a (split newline (js "a a"))) k.
Proof.
  destruct (layout_first_failure font_a metrics cfg_a (js "a a") eq_refl eq_refl)
    as [Hreturns Hstopped].
  split.
  - exact (Hreturns 1%nat 2%nat firstRejected_a ltac:(lia)).
  - exact (Hstopped 100%nat (10, [js "a a"]) eq_refl).
Defined.

(** Of the sizes 10, 10.5 and 11, the text [a a] fits at 10 (one line, 13
    wide), not at 10.5 (one line, 13.5 wide) and again at 11 (two lines, 5.5
    wide): the search stops at 10.5 and returns 10. *)
Example layout_stops_early :
  let inputLines := split newline (js "a a") in
  layout font_a metrics cfg_a 100 (js "a a") = Some (10, [js "a a"]) /\
  map (candidate (outputSize cfg_a)) [0; 1; 2]%nat = [10; 10.5; 11] /\
  map (accepts font_a cfg_a inputLines) [10; 10.5; 11] = [true; false; true] /\
  dimLines (calculateDimensions font_a cfg_a inputLines 11) = [js "a"; js "a"].
Proof. vm_compute. repeat split. Qed.

(** Output size 10 and maxWidth 5 for a text without glyphs in the font:
    each character is half the size wide. *)
Definition cfg_narrow : Settings := mkSettings 10 0 3 2 5 0 true 20 600.

(** Output size 12 above maxTextSize 11. *)
Definition cfg_above : Settings := mkSettings 12 0 3 2 100 0 true 11 600.

(** C3, as stated, fails: when no size fits, the search returns the
    configured size 10, at which the text is 20 wide for a maxWidth of 5;
    and when the configured size 12 is above maxTextSize 11, it returns
    12. *)
Lemma layout_falls_back :
  (layout KerningFacts.noFont metrics cfg_narrow 100 (js "aaaa")
     = Some (10, [js "aaaa"]) /\
   dimWidth (calculateDimensions KerningFacts.noFont cfg_narrow
               (split newline (js "aaaa")) 10) = 20 /\
   (20 <=? maxWidth cfg_narrow) = false) /\
  (layout KerningFacts.noFont metrics cfg_above 100 (js "aaaa")
     = Some (12, [js "aaaa"]) /\
   (12 <=? maxTextSize cfg_above) = false).
Proof. vm_compute. repeat split. Qed.

(** *** The exporters side by side *)

(** Two glyphs 20 canvas pixels wide, without an advance of their own. *)
Definition glyph_AV : CharData :=
  mkCharData [[mkPoint 0 0; mkPoint 10 40; mkPoint 20 0]]
             (mkBBox 0 0 20 40 20 40) None None.

Definition font_AV : Font :=
  fun key => if eqs key (js "A") || eqs key (js "V") then Some glyph_AV else None.

(** One kerning rule: [V] after [A] is set 2 closer. *)
Definition kerning_AV : list KernRule := [UnicodeRule (js "A") (js "V") 2].

(** Output size 50 on a canvas 100 high (scale 0.5), character spacing 1,
    no wrapping, no auto-fit. *)
Definition cfg_AV : Settings := mkSettings 50 1 3 2 0 0 false 100 100.

(** C4 at the text [AV]: both exporters keep the one line at size 50;
    [generateGCode] advances from [A] to [V] by 10 + (1 - 2) = 9,
    [exportImage] by 10 + 1 = 11: it does not look up the kerning. *)
Theorem exporters_disagree_on_kerning :
  layout font_AV metrics cfg_AV 0 (js "AV") = Some (50, [js "AV"]) /\
  gcodeCursors font_AV metrics kerning_AV cfg_AV 50 (js "AV") = [0; 9] /\
  imageCursors font_AV metrics cfg_AV 50 (js "AV") = [20; 31] /\
  gcodeAdvance font_AV metrics kerning_AV cfg_AV 50 65%N (js "V") = 9 /\
  imageAdvance font_AV metrics cfg_AV 50 65%N (js "V") = 11.
Proof. vm_compute. repeat split. Qed.

End LayoutFacts.

(* ================================================================== *)
(** * Further properties of the code *)

(** ** The simplifier keeps a subsequence with the same endpoints *)

Module StrokeMore.
Import Stroke StrokeFacts.

(** [l] is [l'] with some elements left out. *)
Inductive Subseq {A : Type} : list A -> list A -> Prop :=
| Subseq_nil : Subseq [] []
| Subseq_skip (a : A) (l l' : list A) : Subseq l l' -> Subseq l (a :: l')
| Subseq_take (a : A) (l l' : list A) : Subseq l l' -> Subseq (a :: l) (a :: l').

#[local] Hint Constructors Subseq : core.

Lemma Subseq_refl {A} (l : list A) : Subseq l l.
Proof. induction l; auto. Qed.

Lemma Subseq_nil_l {A} (l : list A) : Subseq [] l.
Proof. induction l; auto. Qed.

Lemma Subseq_app {A} (l1 l1' l2 l2' : list A) :
  Subseq l1 l1' -> Subseq l2 l2' -> Subseq (l1 ++ l2) (l1' ++ l2').
Proof. intros H1 H2. induction H1; cbn [app]; auto. Qed.

Lemma Subseq_length {A} (l l' : list A) : Subseq l l' -> (length l <= length l')%nat.
Proof. induction 1; cbn [length]; lia. Qed.

Lemma Subseq_incl {A} (l l' : list A) : Subseq l l' -> incl l l'.
Proof.
  induction 1 as [|a l l' H IH|a l l' H IH]; intros x Hx.
  - exact Hx.
  - right. now apply IH.
  - destruct Hx as [->|Hx]; [now left | right; now apply IH].
Qed.

Lemma Subseq_tl {A} (l l' : list A) : Subseq l l' -> Subseq (tl l) (tl l').
Proof.
  induction 1 as [|a l l' H IH|a l l' H IH]; cbn [tl]; auto.
  destruct l as [|b l]; [apply Subseq_nil_l|].
  cbn [tl] in IH. destruct l' as [|b' l']; [inversion H|].
  cbn [tl] in IH. auto.
Qed.

Lemma Subseq_removelast {A} (l l' : list A) :
  Subseq l l' -> Subseq (removelast l) (removelast l').
Proof.
  induction 1 as [|a l l' H IH|a l l' H IH].
  - auto.
  - destruct l' as [|b l'].
    + inversion H; subst. cbn. auto.
    + change (removelast (a :: b :: l')) with (a :: removelast (b :: l')). auto.
  - destruct l as [|c l].
    + cbn [removelast]. apply Subseq_nil_l.
    + destruct l' as [|b l']; [inversion H|].
      change (removelast (a :: c :: l)) with (a :: removelast (c :: l)).
      change (removelast (a :: b :: l')) with (a :: removelast (b :: l')). auto.
Qed.

(** The index that the scan reports is at most the number of points it
    visited. *)
Lemma farthest_index_le (s e : Point) (pts : list Point) (d : number) (m : nat) :
  farthest s e pts 1 0 0%nat = (d, m) -> (m <= length pts)%nat.
Proof.
  intros Hf.
  destruct (farthest_result s e pts 1 0 0%nat) as [H | (j & p & Hj & H)];
    rewrite Hf in H; inversion H; subst; [lia|].
  apply nth_error_Some_lt in Hj. lia.
Qed.

Lemma last_app_r {A} (l l' : list A) (d : A) :
  l' <> [] -> last (l ++ l') d = last l' d.
Proof.
  intros H. induction l as [|a l IH]; [reflexivity|].
  cbn [app]. destruct (l ++ l') as [|b t] eqn:E.
  - apply app_eq_nil in E. now destruct E.
  - exact IH.
Qed.

Lemma last_skipn {A} (l : list A) (n : nat) (d : A) :
  (n < length l)%nat -> last (skipn n l) d = last l d.
Proof.
  intros H. rewrite <- (firstn_skipn n l) at 2.
  rewrite last_app_r; [reflexivity|].
  intros E. apply (f_equal (@length A)) in E. rewrite length_skipn in E.
  cbn in E. lia.
Qed.

Lemma last_default {A} (l : list A) (d d' : A) : l <> [] -> last l d = last l d'.
Proof.
  induction l as [|a [|b l] IH]; intros H; [congruence | reflexivity |].
  change (last (b :: l) d = last (b :: l) d'). now apply IH.
Qed.

Lemma Subseq_last {A} (x d : A) (l : list A) : Subseq [last (x :: l) d] (x :: l).
Proof.
  revert x. induction l as [|y l IHl]; intros x.
  - cbn. auto.
  - change (last (x :: y :: l) d) with (last (y :: l) d). auto.
Qed.

(** A result of [douglasPeucker] is a subsequence of the points, with
    their first and their last point. *)
Lemma douglasPeucker_keeps (tol : number) (d0 : Point) :
  forall fuel points r,
    douglasPeucker fuel points tol = Some r ->
    Subseq r points /\ hd_error r = hd_error points /\ last r d0 = last points d0.
Proof.
  induction fuel as [|fuel IH]; intros points r H; [discriminate|].
  cbn [douglasPeucker] in H.
  destruct points as [|start [|a [|b tl]]];
    try (inversion H; subst; repeat split; apply Subseq_refl).
  destruct (farthest start _ _ 1 0 0%nat) as [maxDist maxIndex] eqn:Ef.
  pose proof (farthest_index_le _ _ _ _ _ Ef) as Hm.
  rewrite length_removelast_cons in Hm. cbn [length] in Hm.
  set (points := start :: a :: b :: tl) in *.
  assert (length points = S (S (S (length tl)))) as Hlen by reflexivity.
  destruct (maxDist >? tol).
  2:{ injection H as <-. split; [|split].
      - apply Subseq_take. exact (Subseq_last a start (b :: tl)).
      - reflexivity.
      - exact (last_default (a :: b :: tl) start d0 ltac:(discriminate)). }
  destruct (douglasPeucker fuel (firstn _ _) tol) as [l|] eqn:El; [|discriminate].
  destruct (douglasPeucker fuel (skipn _ _) tol) as [q|] eqn:Er; [|discriminate].
  inversion H; subst r. clear H.
  pose proof (douglasPeucker_length_ge2 _ _ _ _ Er) as Hq2.
  rewrite length_skipn, Hlen in Hq2.
  specialize (Hq2 ltac:(lia)).
  pose proof (douglasPeucker_length_ge2 _ _ _ _ El) as Hl2.
  rewrite length_firstn, Hlen in Hl2.
  apply IH in El. apply IH in Er.
  destruct El as (Sl & Hl & _). destruct Er as (Sq & Hq & Lq).
  split; [|split].
  - rewrite <- (firstn_skipn maxIndex points).
    apply Subseq_app; [|exact Sq].
    rewrite <- (removelast_firstn (n := maxIndex) points) by lia.
    rewrite <- Nat.add_1_r. now apply Subseq_removelast.
  - rewrite Nat.add_1_r in Hl.
    destruct l as [|x [|y l]].
    + discriminate Hl.
    + cbn [removelast app]. rewrite Hq.
      destruct maxIndex as [|k]; [reflexivity|].
      cbn [length] in Hl2. lia.
    + change (removelast (x :: y :: l)) with (x :: removelast (y :: l)).
      cbn [app hd_error]. exact Hl.
  - rewrite last_app_r.
    + rewrite Lq. apply last_skipn. lia.
    + intros E. subst q. cbn in Hq2. lia.
Qed.

(** A stroke that [simplifyPath] returns is the stroke with some points
    left out. *)
Definition keeps (r points : list Point) : Prop :=
  Subseq r points /\ (length r <= length points)%nat /\
  hd_error r = hd_error points /\
  forall d, last r d = last points d.

(** ** Order facts used by the scan *)

Lemma SFeqb_refl (a : spec_float) : a <> S754_nan -> SFeqb a a = true.
Proof.
  unfold SFeqb. destruct a as [sa| sa | |sa ma ea]; intros H;
    try congruence; try (now destruct sa).
  simpl. destruct sa; rewrite Z.compare_refl;
    change (Pos.compare_cont Eq ma ma) with (Pos.compare ma ma);
    now rewrite Pos.compare_refl.
Qed.

Lemma not_nan_is_nan (a : float) : Prim2SF a <> S754_nan -> is_nan a = false.
Proof.
  intros H. unfold is_nan. rewrite FloatAxioms.eqb_spec, SFeqb_refl; auto.
Qed.

Lemma SFltb_not_nan (a b : spec_float) :
  SFltb a b = true -> a <> S754_nan /\ b <> S754_nan.
Proof.
  unfold SFltb.
  destruct a as [sa| sa | |sa ma ea], b as [sb| sb | |sb mb eb];
    simpl; intros H; split; congruence.
Qed.

(** What compares below or above something is not NaN. *)
Lemma ltb_not_nan (a b : float) :
  (a <? b) = true -> is_nan a = false /\ is_nan b = false.
Proof.
  rewrite ltb_spec. intros H. apply SFltb_not_nan in H.
  split; apply not_nan_is_nan; tauto.
Qed.

Lemma SFleb_ltb_trans (a b c : spec_float) :
  SFleb a b = true -> SFltb b c = true -> SFltb a c = true.
Proof.
  unfold SFleb, SFltb.
  destruct a as [sa| sa | |sa ma ea], b as [sb| sb | |sb mb eb],
           c as [sc| sc | |sc mc ec]; NumFacts.by_sign;
    NumFacts.three_way ea eb ec ma mb mc.
Qed.

Lemma leb_ltb_trans (a b c : float) :
  (a <=? b) = true -> (b <? c) = true -> (a <? c) = true.
Proof. rewrite leb_spec, !ltb_spec. apply SFleb_ltb_trans. Qed.

(** ** Which point the scan selects *)

Section Scan.
Variables s e : Point.

Let f (p : Point) : number := calculateDistanceToLine p s e.

(** Nothing in [pts] is farther than [d]: the scan keeps its pair. *)
Lemma farthest_no_record (pts : list Point) :
  forall i d k,
    (forall p, In p pts -> (d <? f p) = false) ->
    farthest s e pts i d k = (d, k).
Proof.
  induction pts as [|p pts IH]; intros i d k H; [reflexivity|].
  cbn [farthest]. unfold gtb. fold (f p).
  rewrite (H p (or_introl eq_refl)). apply IH.
  intros x Hx. apply H. now right.
Qed.

(** [q] is selected when it is farther than the initial distance, than
    every point before it that has a distance, and no point after it is
    farther. *)
Definition selects (d0 : number) (pre : list Point) (q : Point)
    (post : list Point) : Prop :=
  (d0 <? f q) = true /\
  (forall p, In p pre -> (f p <? f q) = true \/ is_nan (f p) = true) /\
  (forall p, In p post -> (f q <? f p) = false).

Lemma farthest_selects (pre : list Point) (q : Point) (post : list Point) :
  forall i d0 k0,
    selects d0 pre q post ->
    farthest s e (pre ++ q :: post) i d0 k0 = (f q, (i + length pre)%nat).
Proof.
  induction pre as [|p pre IH]; intros i d0 k0 Hsel;
    destruct Hsel as (Hq & Hpre & Hpost).
  - cbn [app farthest length]. unfold gtb. fold (f q). rewrite Hq.
    rewrite Nat.add_0_r. now apply farthest_no_record.
  - cbn [app farthest length]. unfold gtb. fold (f p).
    rewrite <- Nat.add_succ_comm.
    assert (forall x, In x pre -> (f x <? f q) = true \/ is_nan (f x) = true)
      as Hpre' by (intros x Hx; apply Hpre; now right).
    destruct (d0 <? f p) eqn:Hp.
    + apply IH. split; [|split]; auto.
      destruct (Hpre p (or_introl eq_refl)) as [Hlt|Hnan]; [exact Hlt|].
      apply ltb_not_nan in Hp. destruct Hp as [_ Hp]. congruence.
    + apply IH. split; [|split]; auto.
Qed.

(** Conversely the pair that the scan returns is its initial pair, when no
    point is farther, or that of a point it selects. *)
Lemma farthest_selected (pts : list Point) :
  forall i d0 k0 d k,
    is_nan d0 = false ->
    farthest s e pts i d0 k0 = (d, k) ->
    (d = d0 /\ k = k0 /\ forall p, In p pts -> (d0 <? f p) = false) \/
    exists pre q post,
      pts = pre ++ q :: post /\ k = (i + length pre)%nat /\ d = f q /\
      selects d0 pre q post.
Proof.
  induction pts as [|p pts IH]; intros i d0 k0 d k Hd0 H.
  - left. cbn in H. inversion H. repeat split. intros p [].
  - cbn [farthest] in H. unfold gtb in H. fold (f p) in H.
    destruct (d0 <? f p) eqn:Hp.
    + right. destruct (ltb_not_nan _ _ Hp) as [_ Hfp].
      destruct (IH _ _ _ _ _ Hfp H)
        as [(-> & -> & Hall) | (pre & q & post & -> & -> & -> & Hsel)].
      * exists [], p, pts. cbn [app length]. rewrite Nat.add_0_r.
        repeat split; auto; intros x [].
      * destruct Hsel as (Hq & Hpre & Hpost).
        exists (p :: pre), q, post. cbn [app length].
        rewrite <- Nat.add_succ_comm.
        repeat split; auto.
        -- eapply NumFacts.ltb_trans; eauto.
        -- intros x [<-|Hx]; auto.
    + destruct (IH _ _ _ _ _ Hd0 H)
        as [(-> & -> & Hall) | (pre & q & post & -> & -> & -> & Hsel)].
      * left. repeat split. intros x [<-|Hx]; auto.
      * destruct Hsel as (Hq & Hpre & Hpost).
        right. exists (p :: pre), q, post. cbn [app length].
        rewrite <- Nat.add_succ_comm.
        repeat split; auto.
        intros x [<-|Hx]; auto.
        destruct (is_nan (f p)) eqn:Hn; [now right|left].
        eapply leb_ltb_trans; [|exact Hq].
        apply NumFacts.not_ltb_leb; auto.
Qed.

End Scan.

(** A point selected among [pre ++ q :: post] is selected among what is
    left of them when other points are taken out. *)
Lemma selects_incl (s e : Point) (d0 : number) (pre pre' post post' : list Point)
    (q : Point) :
  selects s e d0 pre q post -> incl pre' pre -> incl post' post ->
  selects s e d0 pre' q post'.
Proof.
  intros (Hq & Hpre & Hpost) Ipre Ipost. split; [|split]; auto.
Qed.

Lemma firstn_app_exact {A} (n : nat) (l1 l2 : list A) :
  n = length l1 -> firstn n (l1 ++ l2) = l1.
Proof.
  intros ->. rewrite firstn_app, Nat.sub_diag, firstn_all. cbn. apply app_nil_r.
Qed.

Lemma skipn_app_exact {A} (n : nat) (l1 l2 : list A) :
  n = length l1 -> skipn n (l1 ++ l2) = l2.
Proof.
  intros ->. rewrite skipn_app, Nat.sub_diag, skipn_all. reflexivity.
Qed.

(** One step of [douglasPeucker] on three points or more. *)
Lemma douglasPeucker_step (fuel : nat) (start : Point) (rest : list Point)
    (tol : number) :
  (2 <= length rest)%nat ->
  douglasPeucker (S fuel) (start :: rest) tol =
  let end_ := last rest start in
  let '(maxDist, maxIndex) := farthest start end_ (removelast rest) 1 0 0%nat in
  if maxDist >? tol then
    match douglasPeucker fuel (firstn (maxIndex + 1) (start :: rest)) tol with
    | None => None
    | Some left_ =>
        match douglasPeucker fuel (skipn maxIndex (start :: rest)) tol with
        | None => None
        | Some right_ => Some (removelast left_ ++ right_)
        end
    end
  else Some [start; end_].
Proof.
  destruct rest as [|a [|b tl]]; cbn [length]; try lia. reflexivity.
Qed.

(** A list of two elements or more, by its first, its middle and its
    last element. *)
Lemma first_middle_last {A} (l : list A) (a z : A) :
  (2 <= length l)%nat -> hd_error l = Some a -> last l a = z ->
  l = a :: removelast (tl l) ++ [z].
Proof.
  destruct l as [|x [|y l]]; cbn [length]; try lia.
  intros _ Ha Hz. injection Ha as ->. cbn [tl]. f_equal.
  rewrite <- Hz. change (last (a :: y :: l) a) with (last (y :: l) a).
  now apply app_removelast_last.
Qed.

(** A simplified stroke is simplified: [douglasPeucker] returns its own
    results unchanged. *)
Lemma douglasPeucker_fixpoint (tol : number) :
  (tol <? 0) = false ->
  forall fuel points r,
    douglasPeucker fuel points tol = Some r ->
    douglasPeucker fuel r tol = Some r.
Proof.
  intros Htol. induction fuel as [|fuel IH]; intros points r H; [discriminate|].
  destruct points as [|start rest]; [inversion H; reflexivity|].
  destruct (Nat.lt_ge_cases (length rest) 2) as [Hshort|Hlong].
  { destruct rest as [|a [|b tl]]; cbn [length] in Hshort; try lia;
      inversion H; reflexivity. }
  rewrite (douglasPeucker_step _ _ _ _ Hlong) in H. cbv zeta in H.
  destruct (farthest start _ _ 1 0 0%nat) as [d m] eqn:Ef.
  destruct (d >? tol) eqn:Hd; [|inversion H; reflexivity].
  destruct (douglasPeucker fuel (firstn _ _) tol) as [l|] eqn:El; [|discriminate].
  destruct (douglasPeucker fuel (skipn _ _) tol) as [q|] eqn:Er; [|discriminate].
  injection H as <-.
  destruct (farthest_selected _ _ _ 1%nat 0 0%nat d m eq_refl Ef)
    as [(-> & -> & _) | (pre & p & post & Hrest & -> & -> & Hsel)].
  { unfold gtb in Hd. congruence. }
  set (end_ := last rest start) in *.
  assert (rest = (pre ++ p :: post) ++ [end_]) as Erest.
  { rewrite <- Hrest. apply app_removelast_last. intros ->. cbn in Hlong. lia. }
  assert (firstn (1 + length pre + 1) (start :: rest) = start :: pre ++ [p]) as Efirst.
  { rewrite Erest.
    change (start :: (pre ++ p :: post) ++ [end_])
      with ((start :: pre ++ p :: post) ++ [end_]).
    replace (start :: pre ++ p :: post) with ((start :: pre ++ [p]) ++ post)
      by (cbn [app]; now rewrite <- app_assoc).
    rewrite <- app_assoc. apply firstn_app_exact.
    cbn [length]. rewrite length_app. cbn [length]. lia. }
  assert (skipn (1 + length pre) (start :: rest) = p :: post ++ [end_]) as Eskip.
  { replace (start :: rest) with ((start :: pre) ++ (p :: post ++ [end_]))
      by (rewrite Erest; cbn [app]; now rewrite <- app_assoc).
    now apply skipn_app_exact. }
  rewrite Efirst in El. rewrite Eskip in Er.
  pose proof (IH _ _ El) as Fl. pose proof (IH _ _ Er) as Fr.
  pose proof (douglasPeucker_length_ge2 _ _ _ _ El) as Ll.
  pose proof (douglasPeucker_length_ge2 _ _ _ _ Er) as Lq.
  cbn [length] in Ll, Lq. rewrite length_app in Ll, Lq. cbn [length] in Ll, Lq.
  specialize (Ll ltac:(lia)). specialize (Lq ltac:(lia)).
  destruct (douglasPeucker_keeps _ start _ _ _ El) as (Sl & Hl & Zl).
  destruct (douglasPeucker_keeps _ p _ _ _ Er) as (Sq & Hq & Zq).
  change (last (start :: pre ++ [p]) start) with (last ((start :: pre) ++ [p]) start) in Zl.
  rewrite last_last in Zl.
  change (last (p :: post ++ [end_]) p) with (last ((p :: post) ++ [end_]) p) in Zq.
  rewrite last_last in Zq.
  pose proof (first_middle_last l start p Ll Hl Zl) as Dl.
  pose proof (first_middle_last q p end_ Lq Hq Zq) as Dq.
  set (midL := removelast (tl l)) in *. set (midR := removelast (tl q)) in *.
  assert (incl midL pre) as Il.
  { apply Subseq_incl. apply Subseq_tl, Subseq_removelast in Sl.
    cbn [tl] in Sl. now rewrite removelast_last in Sl. }
  assert (incl midR post) as Iq.
  { apply Subseq_incl. apply Subseq_tl, Subseq_removelast in Sq.
    cbn [tl] in Sq. now rewrite removelast_last in Sq. }
  clearbody midL midR.
  assert (removelast l ++ q = start :: (midL ++ p :: midR) ++ [end_]) as Er'.
  { rewrite Dl, Dq.
    change (start :: midL ++ [p]) with ((start :: midL) ++ [p]).
    rewrite removelast_last. cbn [app]. now rewrite <- app_assoc. }
  rewrite Er'.
  rewrite douglasPeucker_step
    by (rewrite !length_app; cbn [length]; lia).
  cbv zeta. rewrite last_last, removelast_last.
  rewrite (farthest_selects start end_ midL p midR 1 0 0%nat
             (selects_incl _ _ _ _ _ _ _ _ Hsel Il Iq)).
  rewrite Hd.
  assert (firstn (1 + length midL + 1) (start :: (midL ++ p :: midR) ++ [end_]) = l) as ->.
  { rewrite Dl at 1.
    change (start :: (midL ++ p :: midR) ++ [end_])
      with ((start :: midL ++ p :: midR) ++ [end_]).
    replace (start :: midL ++ p :: midR) with ((start :: midL ++ [p]) ++ midR)
      by (cbn [app]; now rewrite <- app_assoc).
    rewrite <- app_assoc. apply firstn_app_exact.
    cbn [length]. rewrite length_app. cbn [length]. lia. }
  assert (skipn (1 + length midL) (start :: (midL ++ p :: midR) ++ [end_]) = q) as ->.
  { rewrite Dq at 1.
    replace (start :: (midL ++ p :: midR) ++ [end_])
      with ((start :: midL) ++ (p :: midR ++ [end_]))
      by (cbn [app]; now rewrite <- app_assoc).
    now apply skipn_app_exact. }
  rewrite Fl, Fr. now rewrite Er'.
Qed.

(** X1 ([simplifyPath], [douglasPeucker]).  The simplified stroke is the
    stroke with points left out: a subsequence of it (so no point is moved,
    added or reordered, and it is not longer), with the same first and the
    same last point. *)
Theorem simplifyPath_keeps (S r : list Point) (tol : number) :
  simplifyPath S tol = Some r -> keeps r S.
Proof.
  unfold simplifyPath, keeps. intros H.
  destruct (length S <? 3)%nat.
  - injection H as <-. repeat split; auto using Subseq_refl.
  - destruct (douglasPeucker_keeps tol (mkPoint 0 0) _ _ _ H) as (Hs & Hh & _).
    repeat split; auto using Subseq_length.
    intros d. now destruct (douglasPeucker_keeps tol d _ _ _ H) as (_ & _ & Hl).
Qed.

Lemma simplifyPath_keeps_witness :
  simplifyPath zigzag 0.75 = Some [mkPoint 0 0; mkPoint 1 1; mkPoint 4 0] /\
  keeps [mkPoint 0 0; mkPoint 1 1; mkPoint 4 0] zigzag.
Proof.
  split; [reflexivity|].
  apply (simplifyPath_keeps zigzag _ 0.75). reflexivity.
Defined.

(** X2 ([simplifyPath], [douglasPeucker]).  Simplifying is idempotent:
    for a tolerance that is not negative, simplifying the simplified stroke
    again with the same tolerance returns it unchanged. *)
Theorem simplifyPath_idempotent (S r : list Point) (tol : number) :
  (tol <? 0) = false ->
  simplifyPath S tol = Some r ->
  simplifyPath r tol = Some r.
Proof.
  unfold simplifyPath. intros Htol H.
  destruct (length S <? 3)%nat eqn:Hn.
  - injection H as <-. now rewrite Hn.
  - destruct (length r <? 3)%nat eqn:Hr; [reflexivity|].
    apply Nat.ltb_ge in Hr.
    pose proof (douglasPeucker_fixpoint tol Htol _ _ _ H) as Hfix.
    destruct (douglasPeucker_keeps tol (mkPoint 0 0) _ _ _ H) as (Hs & _).
    apply Subseq_length in Hs.
    destruct (douglasPeucker_terminates tol Htol (length r) r) as [r' Hr'];
      try lia.
    rewrite Hr'. f_equal.
    pose proof (douglasPeucker_fuel_mono tol _ _ _ _ Hr' Hs) as Hr''.
    congruence.
Qed.

Lemma simplifyPath_idempotent_witness :
  (0.75 <? 0) = false /\
  simplifyPath zigzag 0.75 = Some [mkPoint 0 0; mkPoint 1 1; mkPoint 4 0] /\
  simplifyPath [mkPoint 0 0; mkPoint 1 1; mkPoint 4 0] 0.75
  = Some [mkPoint 0 0; mkPoint 1 1; mkPoint 4 0].
Proof.
  split; [reflexivity|]. split; [reflexivity|].
  apply (simplifyPath_idempotent zigzag _ 0.75); reflexivity.
Defined.

(** X3 ([douglasPeucker]).  With a negative tolerance the recursion does
    not end on a stroke of three points or more none of whose interior
    points is at a positive distance from the chord (a straight stroke):
    the split index stays 0, and the right half is the whole stroke
    again.  No amount of fuel gives a result. *)
Theorem douglasPeucker_negative_diverges (start : Point) (rest : list Point)
    (tol : number) :
  (tol <? 0) = true ->
  (2 <= length rest)%nat ->
  (forall p, In p (removelast rest) ->
     (calculateDistanceToLine p start (last rest start) >? 0) = false) ->
  forall fuel, douglasPeucker fuel (start :: rest) tol = None.
Proof.
  intros Htol Hlen Hflat. induction fuel as [|fuel IH]; [reflexivity|].
  rewrite douglasPeucker_step by exact Hlen. cbv zeta.
  rewrite farthest_no_record by exact Hflat.
  unfold gtb at 1. rewrite Htol.
  cbn [skipn]. rewrite IH.
  now destruct (douglasPeucker fuel (firstn _ _) tol).
Qed.

Lemma douglasPeucker_negative_diverges_witness :
  douglasPeucker 100 [mkPoint 0 0; mkPoint 1 0; mkPoint 2 0; mkPoint 5 0] (-0.5)
  = None.
Proof.
  apply (douglasPeucker_negative_diverges (mkPoint 0 0)
           [mkPoint 1 0; mkPoint 2 0; mkPoint 5 0] (-0.5)).
  - reflexivity.
  - cbn [length]. lia.
  - intros p [<-|[<-|[]]]; reflexivity.
Defined.

End StrokeMore.

(* ================================================================== *)
(** ** The segments of [detectArcs] follow the stroke *)

Module ArcMore.
Import Stroke Arcs ArcFacts.

(** The point where a segment starts and the point where it ends, as the
    G-code generator reads them ([segment.points[0]] ... or
    [segment.start], [segment.end]). *)
Definition segStart (seg : Segment) : option Point :=
  match seg with
  | Line pts => hd_error pts
  | Arc s _ _ _ _ => Some s
  end.

Definition segEnd (seg : Segment) : option Point :=
  match seg with
  | Line [] => None
  | Line (p :: pts) => Some (last pts p)
  | Arc _ e _ _ _ => Some e
  end.

(** [segments] is a path from [p] to [z]: the first segment starts at [p],
    each one starts where the one before it ends, the last one ends at
    [z]. *)
Fixpoint connected (p : Point) (segments : list Segment) (z : Point) : Prop :=
  match segments with
  | [] => p = z
  | seg :: rest =>
      segStart seg = Some p /\
      exists q, segEnd seg = Some q /\ connected q rest z
  end.

Lemma skipn_nth {A} (l : list A) (d : A) :
  forall i, (i < length l)%nat -> skipn i l = nth i l d :: skipn (S i) l.
Proof.
  induction l as [|a l IH]; intros i Hi; [cbn in Hi; lia|].
  destruct i as [|i]; [reflexivity|].
  cbn [length] in Hi. cbn [skipn nth]. apply IH. lia.
Qed.

Lemma nth_last {A} (l : list A) (d : A) :
  nth (length l - 1) l d = last l d.
Proof.
  induction l as [|a [|b l] IH]; [reflexivity | reflexivity |].
  change (last (a :: b :: l) d) with (last (b :: l) d).
  rewrite <- IH.
  replace (length (a :: b :: l) - 1)%nat with (S (length (b :: l) - 1))
    by (cbn [length]; lia).
  reflexivity.
Qed.

(** The segment of one turn that does not take an arc: the one-point Line
    of the last point, or the Line of two consecutive points. *)
Lemma lineStep_shape (stroke : list Point) (i : nat) :
  (i < length stroke)%nat ->
  let lineEnd := Nat.min (i + 1) (length stroke - 1) in
  (i = (length stroke - 1)%nat /\
   slice stroke i (lineEnd + 1) = [last stroke origin] /\
   (if (i =? lineEnd)%nat then (i + 1)%nat else lineEnd) = length stroke) \/
  ((S i < length stroke)%nat /\
   slice stroke i (lineEnd + 1) = [nth i stroke origin; nth (S i) stroke origin] /\
   (if (i =? lineEnd)%nat then (i + 1)%nat else lineEnd) = S i).
Proof.
  intros Hi lineEnd. unfold slice.
  destruct (Nat.eq_dec i (length stroke - 1)) as [Hlast|Hmore].
  - left. assert (lineEnd = i) as -> by (unfold lineEnd; lia).
    rewrite Nat.eqb_refl. repeat split; [exact Hlast | | lia].
    replace (i + 1 - i)%nat with 1%nat by lia.
    rewrite (skipn_nth stroke origin i Hi). cbn [firstn].
    now rewrite Hlast, nth_last.
  - right. assert (lineEnd = S i) as -> by (unfold lineEnd; lia).
    destruct (Nat.eqb_spec i (S i)); [lia|].
    repeat split; [lia|].
    replace (S i + 1 - i)%nat with 2%nat by lia.
    rewrite (skipn_nth stroke origin i Hi).
    rewrite (skipn_nth stroke origin (S i)) by lia. reflexivity.
Qed.

Section Loop.
Variable atan2_host : number -> number -> number.
Variable arcTolerance : number.
Variable fuel : nat.
Variable stroke : list Point.

Abbreviation fitArc' := (fitArc atan2_host arcTolerance fuel stroke).
Abbreviation detectLoop' := (detectLoop atan2_host arcTolerance fuel stroke).

Lemma detectLoop_done (turns i : nat) :
  (length stroke <= i)%nat -> detectLoop' turns i = Some [].
Proof.
  intros Hi. destruct turns; cbn [detectLoop];
    destruct (Nat.ltb_spec i (length stroke)); try lia; reflexivity.
Qed.

(** What one turn pushes and where it goes on, for the result [res] of
    [fitArc(stroke, i)]. *)
Inductive turn (i : nat) : Segment -> nat -> Prop :=
| turn_arc (a : ArcFit) :
    (i + 3 <= endIndex a < length stroke)%nat ->
    turn i (Arc (nth i stroke origin) (nth (endIndex a) stroke origin)
                (center a) (radius a) (clockwise a)) (endIndex a)
| turn_line :
    (S i < length stroke)%nat ->
    turn i (Line [nth i stroke origin; nth (S i) stroke origin]) (S i)
| turn_last :
    i = (length stroke - 1)%nat ->
    turn i (Line [last stroke origin]) (length stroke).

Lemma detectStep_turn (i : nat) (res : option ArcFit) :
  (i < length stroke)%nat ->
  fitArc' i = Some res ->
  turn i (fst (detectStep stroke i res)) (snd (detectStep stroke i res)).
Proof.
  intros Hi Hres.
  assert (turn i (Line (slice stroke i (Nat.min (i + 1) (length stroke - 1) + 1)))
            (if (i =? Nat.min (i + 1) (length stroke - 1))%nat
             then (i + 1)%nat else Nat.min (i + 1) (length stroke - 1))) as Hline.
  { destruct (lineStep_shape stroke i Hi) as [(H1 & -> & ->) | (H1 & -> & ->)];
      now constructor. }
  unfold detectStep. destruct res as [a|]; [|exact Hline].
  destruct (Nat.leb_spec 3 (endIndex a - i)); [|exact Hline].
  cbn [fst snd]. constructor.
  apply fitArc_found in Hres. lia.
Qed.

(** The loop of [detectArcs] from index [i] returns a path from
    [stroke[i]] to the last point of the stroke. *)
Lemma detectLoop_connected :
  forall turns i segments,
    (i < length stroke)%nat ->
    detectLoop' turns i = Some segments ->
    connected (nth i stroke origin) segments (last stroke origin).
Proof.
  induction turns as [|turns IH]; intros i segments Hi; cbn [detectLoop];
    destruct (Nat.ltb_spec i (length stroke)); try lia; [discriminate|].
  destruct (fitArc' i) as [res|] eqn:Hres; [|discriminate].
  pose proof (detectStep_turn i res Hi Hres) as Hturn.
  destruct (detectStep stroke i res) as [segment i']. cbn [fst snd] in Hturn.
  destruct (detectLoop' turns i') as [rest|] eqn:Hrest; [|discriminate].
  intros H'. injection H' as <-.
  destruct Hturn as [a Ha | Hn | Hn].
  - split; [reflexivity|]. eexists. split; [reflexivity|].
    apply IH; [lia | exact Hrest].
  - split; [reflexivity|]. eexists. split; [reflexivity|].
    apply IH; [lia | exact Hrest].
  - rewrite detectLoop_done in Hrest by lia. injection Hrest as <-.
    split; [cbn; now rewrite Hn, nth_last|].
    eexists. split; reflexivity.
Qed.

(** The Lines that the loop pushes hold two consecutive points of the
    stroke, but for the last segment, which is the Line of the last point
    alone. *)
Lemma detectLoop_lines :
  forall turns i segments,
    (i < length stroke)%nat ->
    detectLoop' turns i = Some segments ->
    exists init,
      segments = init ++ [Line [last stroke origin]] /\
      forall pts, In (Line pts) init ->
        exists k, (i <= k /\ S k < length stroke)%nat /\
                  pts = [nth k stroke origin; nth (S k) stroke origin].
Proof.
  induction turns as [|turns IH]; intros i segments Hi; cbn [detectLoop];
    destruct (Nat.ltb_spec i (length stroke)); try lia; [discriminate|].
  destruct (fitArc' i) as [res|] eqn:Hres; [|discriminate].
  pose proof (detectStep_turn i res Hi Hres) as Hturn.
  destruct (detectStep stroke i res) as [segment i']. cbn [fst snd] in Hturn.
  destruct (detectLoop' turns i') as [rest|] eqn:Hrest; [|discriminate].
  intros H'. injection H' as <-.
  destruct Hturn as [a Ha | Hn | Hn].
  - destruct (IH _ _ (proj2 Ha) Hrest) as (init & -> & Hinit).
    eexists (_ :: init). split; [reflexivity|].
    intros pts [Hin|Hin]; [discriminate|].
    destruct (Hinit pts Hin) as (k & Hk & ->). exists k. split; [lia | reflexivity].
  - destruct (IH _ _ Hn Hrest) as (init & -> & Hinit).
    eexists (_ :: init). split; [reflexivity|].
    intros pts [Hin|Hin].
    + injection Hin as <-. exists i. split; [lia | reflexivity].
    + destruct (Hinit pts Hin) as (k & Hk & ->). exists k. split; [lia | reflexivity].
  - rewrite detectLoop_done in Hrest by lia. injection Hrest as <-.
    exists []. split; [reflexivity|]. intros pts [].
Qed.

End Loop.

(** X4 ([detectArcs]).  The segments of a stroke that is not empty form
    one path along it: the first segment starts at the first point of the
    stroke, every segment starts at the point where the one before it
    ends, and the last one ends at the last point of the stroke. *)
Theorem detectArcs_connected (atan2_host : number -> number -> number)
    (arcTolerance : number) (fuel : nat) (stroke : list Point)
    (segments : list Segment) :
  stroke <> [] ->
  detectArcs atan2_host arcTolerance fuel stroke = Some segments ->
  connected (nth 0 stroke origin) segments (last stroke origin).
Proof.
  unfold detectArcs. intros Hne H.
  destruct (Nat.ltb_spec (length stroke) 5) as [Hs|Hs].
  - injection H as <-. destruct stroke as [|p pts]; [congruence|].
    split; [reflexivity|]. exists (last pts p). split; [reflexivity|].
    cbn [connected]. destruct pts as [|q pts]; [reflexivity|].
    symmetry. apply (StrokeMore.last_default (q :: pts)). discriminate.
  - eapply detectLoop_connected; [lia | exact H].
Qed.

Lemma detectArcs_connected_witness :
  exists segments,
    detectArcs DemoHost.atan2 0.5 2 quarter = Some segments /\
    connected (mkPoint 10 0) segments (mkPoint 6.123233995736766e-16 10).
Proof.
  eexists. split; [vm_compute; reflexivity|].
  apply (detectArcs_connected DemoHost.atan2 0.5 2 quarter).
  - discriminate.
  - vm_compute. reflexivity.
Defined.

(** X5 ([detectArcs]).  On a stroke of 5 points or more the last segment
    is always the Line that holds the last point alone, and every other
    Line holds two consecutive points of the stroke: a run of [n] points
    without an arc comes back as [n - 1] two-point Lines, not as one
    polyline. *)
Theorem detectArcs_lines (atan2_host : number -> number -> number)
    (arcTolerance : number) (fuel : nat) (stroke : list Point)
    (segments : list Segment) :
  (5 <= length stroke)%nat ->
  detectArcs atan2_host arcTolerance fuel stroke = Some segments ->
  exists init,
    segments = init ++ [Line [last stroke origin]] /\
    forall pts, In (Line pts) init ->
      exists k, (S k < length stroke)%nat /\
                pts = [nth k stroke origin; nth (S k) stroke origin].
Proof.
  unfold detectArcs. intros Hlen H.
  destruct (Nat.ltb_spec (length stroke) 5) as [Hs|Hs]; [lia|].
  assert (0 < length stroke)%nat as H0 by lia.
  destruct (detectLoop_lines _ _ _ _ _ _ _ H0 H) as (init & -> & Hinit).
  exists init. split; [reflexivity|].
  intros pts Hin. destruct (Hinit pts Hin) as (k & Hk & ->).
  exists k. split; [lia | reflexivity].
Qed.

Lemma detectArcs_lines_witness :
  exists init,
    detectArcs (fun _ _ => 0) 0.5 0 corner
    = Some (init ++ [Line [last corner origin]]) /\
    forall pts, In (Line pts) init ->
      exists k, (S k < length corner)%nat /\
                pts = [nth k corner origin; nth (S k) corner origin].
Proof.
  destruct (detectArcs_lines (fun _ _ => 0) 0.5 0 corner
              [Line [mkPoint 0 0; mkPoint 10 0]; Line [mkPoint 10 0; mkPoint 20 0];
               Line [mkPoint 20 0; mkPoint 20 10]; Line [mkPoint 20 10; mkPoint 20 20];
               Line [mkPoint 20 20; mkPoint 20 30]; Line [mkPoint 20 30]])
    as (init & Hinit & Hlines).
  - cbn [length corner]. lia.
  - vm_compute. reflexivity.
  - exists init. split; [|exact Hlines].
    rewrite <- Hinit. vm_compute. reflexivity.
Defined.

(** The candidates that the loop of [fitArc] passed over, from the end
    index where it was entered down to the one it returned (or to the
    shortest one), were all turned down. *)
Lemma fitArcFrom_longest (atan2_host : number -> number -> number)
    (arcTolerance : number) (fuel : nat) (stroke : list Point) (startIdx : nat) :
  forall endIdx res,
    fitArcFrom atan2_host arcTolerance fuel stroke startIdx endIdx = Some res ->
    forall j,
      (startIdx + 2 < j <= endIdx)%nat ->
      match res with Some a => (endIndex a < j)%nat | None => True end ->
      tryArc atan2_host arcTolerance fuel (slice stroke startIdx (j + 1))
      = Some Rejected.
Proof.
  induction endIdx as [|endIdx IH]; intros res H j Hj Hres; [lia|].
  cbn [fitArcFrom] in H.
  destruct (Nat.ltb_spec (startIdx + 2) (S endIdx)) as [Hlt|Hge]; [|lia].
  destruct (tryArc _ _ _ (slice stroke startIdx (S endIdx + 1)))
    as [[|c cw]|] eqn:Htry; [| |discriminate].
  - destruct (Nat.eq_dec j (S endIdx)) as [->|Hne]; [exact Htry|].
    apply (IH res H); [lia | exact Hres].
  - injection H as <-. cbn [endIndex] in Hres. lia.
Qed.

(** X6 ([fitArc]).  [fitArc] looks at the candidates
    [stroke[startIdx..j]] of at most 20 points, the longest first, and
    returns the first one that passes: every longer candidate within
    those 20 points was turned down, and when it returns [null] every
    candidate of 4 points or more was. *)
Theorem fitArc_longest (atan2_host : number -> number -> number)
    (arcTolerance : number) (fuel : nat) (stroke : list Point) (startIdx : nat)
    (res : option ArcFit) :
  fitArc atan2_host arcTolerance fuel stroke startIdx = Some res ->
  match res with
  | Some a => (startIdx + 3 <= endIndex a <= startIdx + 19)%nat
  | None => True
  end /\
  forall j,
    (startIdx + 3 <= j)%nat -> (j <= startIdx + 19)%nat -> (j < length stroke)%nat ->
    match res with Some a => (endIndex a < j)%nat | None => True end ->
    tryArc atan2_host arcTolerance fuel (slice stroke startIdx (j + 1))
    = Some Rejected.
Proof.
  unfold fitArc. intros H. split.
  - destruct res as [a|]; [|exact I].
    apply fitArcFrom_found in H. destruct H as [H _]. lia.
  - intros j H1 H2 H3 Hres.
    apply (fitArcFrom_longest _ _ _ _ _ _ _ H); [lia | exact Hres].
Qed.

Lemma fitArc_longest_witness :
  tryArc (fun _ _ => 0) 0.5 0 (slice corner 0 (4 + 1)) = Some Rejected.
Proof.
  apply (proj2 (fitArc_longest (fun _ _ => 0) 0.5 0 corner 0 None eq_refl) 4%nat);
    [lia | lia | cbn [length corner]; lia | exact I].
Defined.

End ArcMore.

(* ================================================================== *)
(** ** Undo, redo and the operations that save *)

Module HistoryMore.
Import History HistoryFacts.

Section Session.
Variable Strokes : Type.
Variable jsonCopy : Strokes -> Strokes.

(** The empty array of [this.strokes = []]. *)
Variable noStrokes : Strokes.

Abbreviation Editor' := (Editor Strokes).

(** The strokes on the canvas are a copy of the current history entry, as
    [undo], [redo] and [selectCharacter] leave them. *)
Definition synced (e : Editor') : Prop :=
  exists saved, at_ (history e) (historyIndex e) = Some saved /\
                strokes e = jsonCopy saved.

(** The state that the constructor, [clearCharacter()] and the loading of
    another font set: [strokes = []; history = []; historyIndex = -1]. *)
Definition initial : Editor' := mkEditor noStrokes [] (-1).

(** What the user does to the editor, by the methods that write
    [strokes], [history] or [historyIndex]. *)
Inductive Action :=
| StopDrawing (strokes' : Strokes)
    (* [stopDrawing()]: the strokes after [strokes.push(...)], or after a
       guide line was dragged, then [saveToHistory()] *)
| ClearCanvas                      (* [clearCanvas()] *)
| ClearCharacter                   (* [clearCharacter()] *)
| SelectCharacter (loaded : Strokes)
    (* [selectCharacter(char)], where [loaded] is the copy of the strokes
       of the character, or [[]] *)
| Undo                             (* [undo()] *)
| Redo.                            (* [redo()] *)

Definition perform (a : Action) (e : Editor') : option Editor' :=
  match a with
  | StopDrawing strokes' =>
      Some (saveToHistory jsonCopy (mkEditor strokes' (history e) (historyIndex e)))
  | ClearCanvas =>
      Some (saveToHistory jsonCopy (mkEditor noStrokes (history e) (historyIndex e)))
  | ClearCharacter => Some initial
  | SelectCharacter loaded => Some (mkEditor loaded [jsonCopy loaded] 0)
  | Undo => undo jsonCopy e
  | Redo => redo jsonCopy e
  end.

(** The actions in turn; [None] when one of them throws. *)
Fixpoint session (actions : list Action) (e : Editor') : option Editor' :=
  match actions with
  | [] => Some e
  | a :: rest =>
      match perform a e with
      | Some e' => session rest e'
      | None => None
      end
  end.

Lemma perform_safe (a : Action) (e : Editor') :
  invariant e \/ cleared e ->
  exists e', perform a e = Some e' /\ (invariant e' \/ cleared e').
Proof.
  intros H. destruct a as [s'| | |loaded| |]; cbn [perform].
  - eexists. split; [reflexivity|]. left.
    apply saveToHistory_invariant. exact H.
  - eexists. split; [reflexivity|]. left.
    apply saveToHistory_invariant. exact H.
  - eexists. split; [reflexivity|]. right. split; reflexivity.
  - eexists. split; [reflexivity|]. left. split; cbn; lia.
  - destruct H as [H|H].
    + destruct (undo_invariant _ jsonCopy e H) as (e' & -> & Hinv & _).
      exists e'. auto.
    + destruct (cleared_undo_redo _ jsonCopy e H) as [-> _]. exists e. auto.
  - destruct H as [H|H].
    + destruct (redo_invariant _ jsonCopy e H) as (e' & -> & Hinv & _).
      exists e'. auto.
    + destruct (cleared_undo_redo _ jsonCopy e H) as [_ ->]. exists e. auto.
Qed.

Lemma session_safe (actions : list Action) :
  forall e, invariant e \/ cleared e ->
    exists e', session actions e = Some e' /\ (invariant e' \/ cleared e').
Proof.
  induction actions as [|a rest IH]; intros e H; cbn [session].
  - exists e. auto.
  - destruct (perform_safe a e H) as (e1 & -> & H1). now apply IH.
Qed.

Lemma at_firstn {A} (l : list A) (n : nat) (i : Z) :
  (0 <= i < Z.of_nat n)%Z -> at_ (firstn n l) i = at_ l i.
Proof.
  intros H. unfold at_. destruct (Z.ltb_spec i 0); [lia|].
  rewrite nth_error_firstn.
  destruct (Nat.ltb_spec (Z.to_nat i) n); [reflexivity | lia].
Qed.

Lemma at_app_l {A} (l l' : list A) (i : Z) :
  (0 <= i < Z.of_nat (length l))%Z -> at_ (l ++ l') i = at_ l i.
Proof.
  intros H. unfold at_. destruct (Z.ltb_spec i 0); [lia|].
  apply nth_error_app1. lia.
Qed.

Lemma at_tl {A} (l : list A) (i : Z) :
  (0 <= i)%Z -> at_ (tl l) i = at_ l (i + 1).
Proof.
  intros H. unfold at_.
  destruct (Z.ltb_spec i 0); [lia|]. destruct (Z.ltb_spec (i + 1) 0); [lia|].
  replace (Z.to_nat (i + 1)) with (S (Z.to_nat i)) by lia.
  destruct l as [|x l]; [|reflexivity].
  cbn [tl nth_error]. now destruct (Z.to_nat i).
Qed.

Lemma at_last {A} (l : list A) (x : A) :
  at_ (l ++ [x]) (Z.of_nat (length l)) = Some x.
Proof.
  unfold at_. destruct (Z.ltb_spec (Z.of_nat (length l)) 0); [lia|].
  rewrite Nat2Z.id, nth_error_app2, Nat.sub_diag by lia. reflexivity.
Qed.

(** The two ways [saveToHistory] ends: under the cap, and at the cap of 50
    entries, where the oldest one is dropped. *)
Lemma saveToHistory_cases (e : Editor') :
  invariant e ->
  let h1 := firstn (Z.to_nat (historyIndex e + 1)) (history e)
            ++ [jsonCopy (strokes e)] in
  length h1 = Z.to_nat (historyIndex e + 2) /\
  ((historyIndex e = 49%Z /\
    saveToHistory jsonCopy e = mkEditor (strokes e) (tl h1) (historyIndex e)) \/
   ((historyIndex e < 49)%Z /\
    saveToHistory jsonCopy e = mkEditor (strokes e) h1 (historyIndex e + 1))).
Proof.
  intros [Hi Hl] h1.
  assert (length h1 = Z.to_nat (historyIndex e + 2)) as Hlen.
  { unfold h1. rewrite length_app, length_firstn. cbn [length]. lia. }
  split; [exact Hlen|].
  unfold saveToHistory, sliceTo.
  destruct (Z.ltb_spec (historyIndex e + 1) 0); [lia|]. fold h1.
  destruct (Nat.ltb_spec 50 (length h1)) as [Hbig|Hsmall].
  - left. split; [lia|]. f_equal. lia.
  - right. split; [lia|]. reflexivity.
Qed.

(** After a save the copy of the strokes is the current entry and the
    last one. *)
Lemma saveToHistory_last (e : Editor') :
  invariant e \/ cleared e ->
  let e' := saveToHistory jsonCopy e in
  at_ (history e') (historyIndex e') = Some (jsonCopy (strokes e)) /\
  redo jsonCopy e' = Some e'.
Proof.
  intros [Hinv | [Hh Hi]] e'; unfold e'; clear e'.
  - destruct (saveToHistory_cases e Hinv) as [Hlen Hcases].
    destruct Hinv as [Hi Hl].
    set (h0 := firstn (Z.to_nat (historyIndex e + 1)) (history e)) in *.
    assert (length h0 = Z.to_nat (historyIndex e + 1)) as Hh0.
    { unfold h0. rewrite length_firstn. lia. }
    assert (at_ (h0 ++ [jsonCopy (strokes e)]) (historyIndex e + 1)
            = Some (jsonCopy (strokes e))) as Hnew.
    { replace (historyIndex e + 1)%Z with (Z.of_nat (length h0)) by lia.
      apply at_last. }
    destruct Hcases as [[Hcap ->] | [Hunder ->]]; cbn [strokes history historyIndex].
    + assert (length (tl (h0 ++ [jsonCopy (strokes e)])) = 50%nat) as Htl.
      { destruct (h0 ++ [jsonCopy (strokes e)]); cbn [length tl] in *; lia. }
      split; [rewrite at_tl by lia; exact Hnew|].
      unfold redo. cbn [history historyIndex]. rewrite Htl.
      destruct (Z.ltb_spec (historyIndex e) (Z.of_nat 50 - 1)); [lia | reflexivity].
    + split; [exact Hnew|].
      unfold redo. cbn [history historyIndex]. rewrite Hlen.
      destruct (Z.ltb_spec (historyIndex e + 1)
                  (Z.of_nat (Z.to_nat (historyIndex e + 2)) - 1));
        [lia | reflexivity].
  - unfold saveToHistory, sliceTo. rewrite Hh, Hi. cbn. split; reflexivity.
Qed.

(** X7 ([saveToHistory], [undo], [redo], [clearCanvas], [clearCharacter],
    [selectCharacter], [stopDrawing]).  Whatever the user does, in whatever
    order, from the state that the constructor sets, no operation throws
    ([undo] and [redo] never read [history[i]] outside the array), the
    history is empty with index -1 or the index is that of one of its
    entries, and the history never holds more than 50 entries. *)
Theorem session_never_throws (actions : list Action) :
  exists e,
    session actions initial = Some e /\
    (invariant e \/ cleared e) /\
    (length (history e) <= 50)%nat.
Proof.
  destruct (session_safe actions initial) as (e & He & Hinv).
  { right. split; reflexivity. }
  exists e. repeat split; auto.
  destruct Hinv as [[_ Hl]|[Hh _]]; [exact Hl|]. rewrite Hh. cbn. lia.
Qed.

(** X8 ([undo], [redo]).  [undo] and [redo] are inverse to each other:
    when the strokes are a copy of the current entry, [undo] followed by
    [redo] gives back the same state, and so does [redo] followed by
    [undo], wherever the first of the two moves the index. *)
Theorem undo_redo_round_trip (e : Editor') :
  invariant e -> synced e ->
  ((0 < historyIndex e)%Z ->
     exists e1, undo jsonCopy e = Some e1 /\ redo jsonCopy e1 = Some e) /\
  ((historyIndex e < Z.of_nat (length (history e)) - 1)%Z ->
     exists e1, redo jsonCopy e = Some e1 /\ undo jsonCopy e1 = Some e).
Proof.
  intros [Hi Hl] (saved & Hsaved & Hs).
  destruct e as [s h i]. cbn [strokes history historyIndex] in *. subst s.
  split; intros Hmove.
  - destruct (at_in_range h (i - 1)) as [before Hb]; [lia|].
    eexists. unfold undo. cbn [historyIndex history].
    destruct (Z.ltb_spec 0 i); [|lia]. rewrite Hb. split; [reflexivity|].
    unfold redo. cbn [historyIndex history].
    destruct (Z.ltb_spec (i - 1) (Z.of_nat (length h) - 1)); [|lia].
    replace (i - 1 + 1)%Z with i by lia. now rewrite Hsaved.
  - destruct (at_in_range h (i + 1)) as [after Ha]; [lia|].
    eexists. unfold redo. cbn [historyIndex history].
    destruct (Z.ltb_spec i (Z.of_nat (length h) - 1)); [|lia].
    rewrite Ha. split; [reflexivity|].
    unfold undo. cbn [historyIndex history].
    destruct (Z.ltb_spec 0 (i + 1)); [|lia].
    replace (i + 1 - 1)%Z with i by lia. now rewrite Hsaved.
Qed.

(** X9 ([saveToHistory]).  A save makes its copy of the strokes the
    current and the last entry: what could be redone before is gone
    ([redo] changes nothing after it).  [undo] right after the save goes
    back to the entry that was current before it, also when the save
    dropped the oldest of 50 entries. *)
Theorem saveToHistory_then_undo (e : Editor') (saved : Strokes) :
  invariant e ->
  at_ (history e) (historyIndex e) = Some saved ->
  let e' := saveToHistory jsonCopy e in
  strokes e' = strokes e /\
  at_ (history e') (historyIndex e') = Some (jsonCopy (strokes e)) /\
  redo jsonCopy e' = Some e' /\
  undo jsonCopy e'
  = Some (mkEditor (jsonCopy saved) (history e') (historyIndex e' - 1)).
Proof.
  intros Hinv Hsaved e'.
  destruct (saveToHistory_cases e Hinv) as [Hlen Hcases].
  destruct Hinv as [Hi Hl].
  set (h0 := firstn (Z.to_nat (historyIndex e + 1)) (history e)) in *.
  assert (length h0 = Z.to_nat (historyIndex e + 1)) as Hh0.
  { unfold h0. rewrite length_firstn. lia. }
  assert (at_ (h0 ++ [jsonCopy (strokes e)]) (historyIndex e + 1)
          = Some (jsonCopy (strokes e))) as Hnew.
  { replace (historyIndex e + 1)%Z with (Z.of_nat (length h0)) by lia.
    apply at_last. }
  assert (at_ (h0 ++ [jsonCopy (strokes e)]) (historyIndex e) = Some saved) as Hold.
  { rewrite at_app_l by lia. unfold h0. rewrite at_firstn by lia. exact Hsaved. }
  unfold e'. clear e'.
  destruct Hcases as [[Hcap ->] | [Hunder ->]];
    cbn [strokes history historyIndex];
    (split; [reflexivity|]).
  - assert (length (tl (h0 ++ [jsonCopy (strokes e)])) = 50%nat) as Htl.
    { destruct (h0 ++ [jsonCopy (strokes e)]); cbn [length tl] in *; lia. }
    split; [rewrite at_tl by lia; exact Hnew|]. split.
    + unfold redo. cbn [history historyIndex]. rewrite Htl.
      destruct (Z.ltb_spec (historyIndex e) (Z.of_nat 50 - 1)); [lia | reflexivity].
    + unfold undo. cbn [history historyIndex].
      destruct (Z.ltb_spec 0 (historyIndex e)); [|lia].
      rewrite at_tl by lia.
      replace (historyIndex e - 1 + 1)%Z with (historyIndex e) by lia.
      now rewrite Hold.
  - split; [exact Hnew|]. split.
    + unfold redo. cbn [history historyIndex]. rewrite Hlen.
      destruct (Z.ltb_spec (historyIndex e + 1)
                  (Z.of_nat (Z.to_nat (historyIndex e + 2)) - 1));
        [lia | reflexivity].
    + unfold undo. cbn [history historyIndex].
      destruct (Z.ltb_spec 0 (historyIndex e + 1)); [|lia].
      replace (historyIndex e + 1 - 1)%Z with (historyIndex e) by lia.
      now rewrite Hold.
Qed.

End Session.

Lemma undo_redo_round_trip_witness :
  let e := mkEditor 2%nat [1; 2; 3]%nat 1%Z in
  (exists e1, undo id e = Some e1 /\ redo id e1 = Some e) /\
  (exists e1, redo id e = Some e1 /\ undo id e1 = Some e).
Proof.
  intros e.
  assert (invariant e) as Hinv by (split; cbn; lia).
  assert (synced nat id e) as Hsync by (exists 2%nat; split; reflexivity).
  destruct (undo_redo_round_trip nat id e Hinv Hsync) as [H1 H2].
  split; [apply H1 | apply H2]; cbn; lia.
Defined.

Lemma saveToHistory_then_undo_witness :
  let e := mkEditor 0%nat (repeat 7%nat 50) 49%Z in
  let e' := saveToHistory id e in
  strokes e' = 0%nat /\
  at_ (history e') (historyIndex e') = Some 0%nat /\
  redo id e' = Some e' /\
  undo id e' = Some (mkEditor 7%nat (history e') (historyIndex e' - 1)).
Proof.
  intros e.
  apply (saveToHistory_then_undo nat id e 7%nat).
  - split; cbn; lia.
  - reflexivity.
Defined.

End HistoryMore.

(* ================================================================== *)
(** ** Glyph selectors and the adding of kerning rules *)

Module KerningMore.
Import Text Font Kerning KerningFacts.

(** What the code accepts as a match of a glyph name by a glyph selector:
    neither is empty, and the selector is the name or lists it among its
    comma-separated items, trimmed.  There are no ranges. *)
Definition glyphMatch (name pattern : jsstring) : Prop :=
  pattern <> [] /\ name <> [] /\
  (pattern = name \/
   (In comma pattern /\ In name (map trim (split comma pattern)))).

Lemma matchesGlyphPattern_glyphMatch (name pattern : jsstring) :
  matchesGlyphPattern name pattern = true <-> glyphMatch name pattern.
Proof.
  unfold matchesGlyphPattern, glyphMatch.
  destruct pattern as [|p0 pattern]; [split; [discriminate | now intros [[] _]]|].
  destruct name as [|n0 name]; [split; [discriminate | now intros (_ & [] & _)]|].
  set (pat := p0 :: pattern). set (nm := n0 :: name).
  destruct (eqs pat nm) eqn:Heq.
  - apply eqs_eq in Heq. split; [|reflexivity].
    intros _. repeat split; try discriminate. now left.
  - rewrite andb_true_iff, includesUnit_In, includes_In. split.
    + intros H. repeat split; try discriminate. now right.
    + intros (_ & _ & [H|H]); [|exact H].
      apply eqs_eq in H. congruence.
Qed.

Lemma eqs_refl (a : jsstring) : eqs a a = true.
Proof. now apply eqs_eq. Qed.

(** [addKerning()], on the two text inputs, whether the selected type is
    ['unicode'] (the other one is ['glyph']) and the number that
    [parseFloat] read; [None] when it shows an alert and returns, leaving
    [this.kerning] as it is. *)
Definition addKerning (rules : list KernRule) (input1 input2 : jsstring)
    (unicode : bool) (value : number) : option (list KernRule) :=
  let u1 := trim input1 in
  let u2 := trim input2 in
  match u1, u2 with
  | [], _ | _, [] => None
  | _, _ =>
      if is_nan value then None
      else
        let kernRule :=
          if unicode then UnicodeRule u1 u2 value else GlyphRule u1 u2 value in
        Some (rules ++ [kernRule])
  end.

(** The loop over the rules with one more rule at the end. *)
Lemma getKerningAdjustment_app (font : Font) (rules : list KernRule)
    (rule : KernRule) (char1 char2 : jsstring) :
  getKerningAdjustment font (rules ++ [rule]) char1 char2
  = if ruleApplies font char1 char2 rule
    then getKerningAdjustment font rules char1 char2 + ruleK rule
    else getKerningAdjustment font rules char1 char2.
Proof. unfold getKerningAdjustment. now rewrite fold_left_app. Qed.

(** X10 ([matchesGlyphPattern], [matchesUnicodePattern]).  A glyph
    selector matches a glyph name when neither is empty and the selector
    is the name or lists it between commas (items trimmed); and it matches
    nothing that the same selector would not match as a unicode selector,
    which has the ranges besides. *)
Theorem glyph_selector_spec :
  (forall name pattern,
      matchesGlyphPattern name pattern = true <-> glyphMatch name pattern) /\
  (forall name pattern,
      matchesGlyphPattern name pattern = true ->
      matchesUnicodePattern name pattern = true) /\
  (matchesGlyphPattern (js "B") (js "A-Z") = false /\
   matchesUnicodePattern (js "B") (js "A-Z") = true).
Proof.
  split; [exact matchesGlyphPattern_glyphMatch|].
  split; [|split; reflexivity].
  intros name pattern H.
  apply matchesGlyphPattern_glyphMatch in H. destruct H as (Hp & _ & H).
  apply matchesUnicodePattern_unicodeMatch. split; [exact Hp|].
  destruct H as [H|H]; [now left | right; now left].
Qed.

(** X11 ([addKerning], [getKerningAdjustment]).  Adding a unicode rule
    appends it with its selectors trimmed; looking up the pair of the two
    trimmed selectors then gives what it gave before plus the value of
    the rule, and a pair whose first character the first selector does
    not match gives what it gave before.  Whatever the other inputs, a
    selector that is empty once trimmed (empty, or white space only) or a
    value that is not a number adds nothing. *)
Theorem addKerning_lookup (font : Font) (rules : list KernRule)
    (input1 input2 : jsstring) (value : number) :
  trim input1 <> [] -> trim input2 <> [] -> is_nan value = false ->
  let rules' := rules ++ [UnicodeRule (trim input1) (trim input2) value] in
  addKerning rules input1 input2 true value = Some rules' /\
  getKerningAdjustment font rules' (trim input1) (trim input2)
  = getKerningAdjustment font rules (trim input1) (trim input2) + value /\
  (forall c1 c2, matchesUnicodePattern c1 (trim input1) = false ->
     getKerningAdjustment font rules' c1 c2
     = getKerningAdjustment font rules c1 c2) /\
  (forall text1 text2 unicode number,
     trim text1 = [] \/ trim text2 = [] \/ is_nan number = true ->
     addKerning rules text1 text2 unicode number = None).
Proof.
  intros H1 H2 Hv rules'. unfold rules'.
  split; [|split; [|split]].
  - unfold addKerning. rewrite Hv.
    destruct (trim input1); [congruence|]. destruct (trim input2); [congruence|].
    reflexivity.
  - rewrite getKerningAdjustment_app. cbn [ruleApplies ruleK].
    unfold matchesUnicodePattern. rewrite !eqs_refl.
    destruct (trim input1); [congruence|]. destruct (trim input2); [congruence|].
    reflexivity.
  - intros c1 c2 Hc. rewrite getKerningAdjustment_app. cbn [ruleApplies].
    now rewrite Hc.
  - intros text1 text2 unicode number H. unfold addKerning.
    destruct H as [-> | [-> | ->]]; [reflexivity | |].
    + now destruct (trim text1).
    + destruct (trim text1); [reflexivity|]. now destruct (trim text2).
Qed.

Lemma addKerning_lookup_witness :
  addKerning [UnicodeRule (js "A-Z") (js "V") 2] (js " A ") (js "V") true 1.5
  = Some [UnicodeRule (js "A-Z") (js "V") 2; UnicodeRule (js "A") (js "V") 1.5] /\
  getKerningAdjustment noFont
    [UnicodeRule (js "A-Z") (js "V") 2; UnicodeRule (js "A") (js "V") 1.5]
    (js "A") (js "V")
  = getKerningAdjustment noFont [UnicodeRule (js "A-Z") (js "V") 2]
      (js "A") (js "V") + 1.5 /\
  addKerning [UnicodeRule (js "A-Z") (js "V") 2] (js "  ") (js "V") true 1.5 = None /\
  addKerning [UnicodeRule (js "A-Z") (js "V") 2] (js "A") (js "V") false nan = None.
Proof.
  destruct (addKerning_lookup noFont [UnicodeRule (js "A-Z") (js "V") 2]
              (js " A ") (js "V") 1.5) as (Ha & Hl & _ & Hnone);
    [discriminate | discriminate | reflexivity |].
  split; [exact Ha | split; [exact Hl | split]].
  - apply Hnone. left. reflexivity.
  - apply Hnone. right. right. reflexivity.
Defined.

End KerningMore.

(* ================================================================== *)
(** ** The program of a stroke: what [addGCode] guarantees *)

Module GCodeMore.
Import Stroke Arcs Text GCode GCodeFacts.

(** No line of the program is followed by the same line. *)
Fixpoint noRepeat (l : list jsstring) : Prop :=
  match l with
  | a :: ((b :: _) as rest) => a <> b /\ noRepeat rest
  | _ => True
  end.

Lemma noRepeat_snoc (l : list jsstring) (x : jsstring) :
  noRepeat l -> last l [] <> x -> noRepeat (l ++ [x]).
Proof.
  induction l as [|a [|b t] IH]; intros Hl Hx.
  - exact I.
  - cbn in *. auto.
  - destruct Hl as [Hab Hl]. split; [exact Hab|].
    apply IH; [exact Hl | exact Hx].
Qed.

Lemma last_cons {A} (a d : A) (l : list A) : last (a :: l) d = last l a.
Proof.
  destruct l as [|b l]; [reflexivity|].
  change (last (a :: b :: l) d) with (last (b :: l) d).
  apply StrokeMore.last_default. discriminate.
Qed.

Lemma last_app_default {A} (l1 l2 : list A) (d : A) :
  last (l1 ++ l2) d = last l2 (last l1 d).
Proof.
  revert d. induction l1 as [|a l1 IH]; intros d; [reflexivity|].
  cbn [app]. now rewrite !last_cons, IH.
Qed.

Lemma noRepeat_app (l1 l2 : list jsstring) :
  forall t, noRepeat (t :: l1) -> noRepeat (last l1 t :: l2) ->
            noRepeat (t :: l1 ++ l2).
Proof.
  induction l1 as [|a l1 IH]; intros t H1 H2; [exact H2|].
  destruct H1 as [Hta H1]. rewrite last_cons in H2.
  split; [exact Hta | now apply IH].
Qed.

(** [st'] comes after [st]: its program is that of [st] with lines added
    at the end, the first of them is not the line that the tracker
    [lastGCodeLine] of [st] holds, none of them is the line before it, and
    the tracker of [st'] holds the last of them (what it held in [st] when
    no line was added).  Nothing is asked of the program of [st]:
    [generateGCode] also pushes comment lines and empty lines without
    going through [addGCode], so that the tracker need not be the last
    line of the program. *)
Definition follows (st st' : Emitter) : Prop :=
  exists added,
    gcode st' = gcode st ++ added /\
    noRepeat (lastGCodeLine st :: added) /\
    last added (lastGCodeLine st) = lastGCodeLine st'.

Lemma follows_refl (st : Emitter) : follows st st.
Proof. exists []. rewrite app_nil_r. now repeat split. Qed.

Lemma follows_trans (a b c : Emitter) : follows a b -> follows b c -> follows a c.
Proof.
  intros (x & Hx & Nx & Lx) (y & Hy & Ny & Ly).
  exists (x ++ y). split; [|split].
  - now rewrite Hy, Hx, app_assoc.
  - apply noRepeat_app; [exact Nx | now rewrite Lx].
  - now rewrite last_app_default, Lx.
Qed.

Lemma follows_addGCode (st : Emitter) (line : jsstring) :
  follows st (addGCode st line).
Proof.
  unfold addGCode. destruct (eqs line (lastGCodeLine st)) eqn:E; cbn [negb].
  - apply follows_refl.
  - exists [line]. cbn [gcode lastGCodeLine last]. repeat split.
    intros H. symmetry in H. apply KerningFacts.eqs_eq in H. congruence.
Qed.

(** A state that differs in the feed rate and the flags only. *)
Lemma follows_same (st st' : Emitter) :
  gcode st' = gcode st -> lastGCodeLine st' = lastGCodeLine st -> follows st st'.
Proof.
  intros Hg Hl. exists []. rewrite app_nil_r. now repeat split.
Qed.

Section Facts.
Variable numberToString : number -> jsstring.
Variable toFixed3 : number -> jsstring.
Variable m : Machine.
Variable p : Placement.

Lemma follows_add_feed (st : Emitter) (line : jsstring) (f : option number) :
  follows st (setLastFeedRate (addGCode st line) f).
Proof.
  eapply follows_trans; [apply follows_addGCode|]. now apply follows_same.
Qed.

Lemma follows_penDown (st : Emitter) (x y : number) :
  follows st (penDown numberToString toFixed3 m st x y).
Proof.
  unfold penDown. cbv zeta.
  eapply follows_trans; [|apply follows_same; reflexivity].
  eapply follows_trans; [|apply follows_add_feed].
  eapply follows_trans; [|apply follows_add_feed].
  destruct (isAtSafeZ st); cbn [negb];
    [apply follows_refl | apply follows_add_feed].
Qed.

Lemma follows_emitSegment (st : Emitter) (segment : Segment) :
  follows st (emitSegment numberToString toFixed3 m p st segment).
Proof.
  destruct segment as [points|start end_ center radius cw]; cbn [emitSegment].
  - set (step := fun (acc : Emitter * nat) (point : Point) => _).
    assert (forall pts acc, follows (fst acc) (fst (fold_left step pts acc)))
      as Hfold.
    { induction pts as [|pt pts IH]; intros [st0 idx]; [apply follows_refl|].
      cbn [fold_left]. eapply follows_trans; [|apply IH].
      unfold step. cbn [fst].
      destruct (isFirstSegment st0 && (idx =? 0)%nat);
        [apply follows_penDown | apply follows_add_feed]. }
    apply (Hfold points (st, 0%nat)).
  - eapply follows_trans; [|apply follows_add_feed].
    destruct (isFirstSegment st); [apply follows_penDown | apply follows_refl].
Qed.

Lemma follows_segments (segments : list Segment) :
  forall st, follows st (fold_left (emitSegment numberToString toFixed3 m p)
                           segments st).
Proof.
  induction segments as [|seg segments IH]; intros st; [apply follows_refl|].
  cbn [fold_left]. eapply follows_trans; [apply follows_emitSegment | apply IH].
Qed.

End Facts.

(** X12 ([generateGCode]: [addGCode] and the emission of a stroke).  From
    any state, the emission of a stroke only appends lines to the program;
    the first line appended is not the line that the tracker
    [lastGCodeLine] held, no appended line repeats the one before it, and
    the tracker ends on the last appended line.  The stroke ends with the
    pen up: the tracker holds [G0 Z<safeZ>], the flag [isAtSafeZ] is set
    and the remembered feed rate is forgotten. *)
Theorem emitStroke_appends (numberToString toFixed3 : number -> jsstring)
    (m : Machine) (p : Placement) (st : Emitter) (segments : list Segment) :
  let st' := emitStroke numberToString toFixed3 m p st segments in
  exists added,
    gcode st' = gcode st ++ added /\
    noRepeat (lastGCodeLine st :: added) /\
    last added (lastGCodeLine st) = lastGCodeLine st' /\
    lastGCodeLine st' = js "G0 Z" ++ numberToString (safeZ m) /\
    isAtSafeZ st' = true /\ lastFeedRate st' = None.
Proof.
  intros st'.
  set (st0 := mkEmitter (gcode st) (lastGCodeLine st) (lastFeedRate st) true
                        (isAtSafeZ st)).
  set (st1 := fold_left (emitSegment numberToString toFixed3 m p) segments st0).
  set (st2 := addGCode st1 (js "G0 Z" ++ numberToString (safeZ m))).
  assert (follows st st2) as (added & Hgrow & Hno & Hlast).
  { eapply follows_trans; [apply (follows_same st st0); reflexivity|].
    eapply follows_trans; [apply follows_segments | apply follows_addGCode]. }
  exists added. split; [exact Hgrow|]. split; [exact Hno|].
  split; [exact Hlast|]. split; [|split; reflexivity].
  unfold st'. cbn [emitStroke lastGCodeLine]. apply addGCode_lastGCodeLine.
Qed.

(** The state of [generateGCode] at the first stroke of the first
    character of a text: the tracker holds the line that moved to the safe
    height, and the program ends on comment lines pushed past
    [addGCode]. *)
Definition firstStroke : Emitter :=
  mkEmitter [js "G0 Z5 F300 ; Move to safe Z"; []; [];
             js "; Line 1: " ++ [34; 65; 34]%N; js "; Character: 'A'"]
            (js "G0 Z5 F300 ; Move to safe Z") None true true.

(** From that state the quarter circle adds the travel, the plunge, the
    arc, the closing point and the lift; a stroke without a point that
    follows adds nothing, as the tracker already holds the lift, and the
    program is as it was. *)
Example emitStroke_first_stroke :
  let emit := emitStroke DemoHost.numberToString (DemoHost.toFixed 3)
                machine placement in
  gcode (emit firstStroke quarterSegments)
  = gcode firstStroke
    ++ [js "G0 X10.000 Y20.000 F1000"; js "G1 Z-1 F300";
        js "G2 X0.000 Y10.000 I-10.000 J0.000 F1000"; js "G1 X0.000 Y10.000";
        js "G0 Z5"] /\
  lastGCodeLine (emit firstStroke quarterSegments) = js "G0 Z5" /\
  gcode (emit (emit firstStroke quarterSegments) [Line []])
  = gcode (emit firstStroke quarterSegments) /\
  gcode (emit firstStroke [Line []]) = gcode firstStroke ++ [js "G0 Z5"].
Proof. vm_compute. repeat split. Qed.

End GCodeMore.

(* ================================================================== *)
(** ** Word wrap and the advance of the two exporters *)

Module LayoutMore.
Import Text Font Kerning Layout.

(** The characters of a string that are not spaces. *)
Definition inked (s : jsstring) : jsstring :=
  filter (fun c => negb (c =? space)%N) s.

Lemma inked_app (a b : jsstring) : inked (a ++ b) = inked a ++ inked b.
Proof. apply filter_app. Qed.

Lemma split_nonempty (sep : codeUnit) (s : jsstring) : split sep s <> [].
Proof.
  destruct s as [|c s]; cbn [split]; [discriminate|].
  destruct (c =? sep)%N; [discriminate|].
  destruct (split sep s); discriminate.
Qed.

(** The words of a line hold its characters but for the spaces. *)
Lemma inked_split (s : jsstring) : inked (concat (split space s)) = inked s.
Proof.
  induction s as [|c s IH]; [reflexivity|].
  cbn [split]. destruct (c =? space)%N eqn:E.
  - cbn [concat app]. rewrite IH. unfold inked at 2. cbn [filter].
    now rewrite E.
  - pose proof (split_nonempty space s) as Hne.
    destruct (split space s) as [|w ws]; [congruence|].
    cbn [concat app] in *. unfold inked in *. cbn [filter]. rewrite E.
    cbn [negb]. now rewrite IH.
Qed.

(** A string without the separator is its own single part. *)
Lemma split_without (sep : codeUnit) (s : jsstring) :
  includesUnit s sep = false -> split sep s = [s].
Proof.
  unfold includesUnit. induction s as [|c s IH]; intros H; [reflexivity|].
  cbn [existsb] in H. apply orb_false_iff in H. destruct H as [Hc Hs].
  cbn [split]. rewrite N.eqb_sym, Hc. now rewrite IH.
Qed.

Section Wrap.
Variable cfg : Settings.
Variable spaceWidthTotal : number.
Variable measure : jsstring -> number.

Abbreviation wrapWord' := (wrapWord cfg spaceWidthTotal measure).

(** The text of a state of the word loop: the lines pushed, then the
    current line. *)
Definition textOf (st : WrapState) : jsstring :=
  let '(lines, currentLine, _) := st in concat lines ++ currentLine.

Lemma wrapWord_inked (st : WrapState) (word : jsstring) :
  inked (textOf (wrapWord' st word)) = inked (textOf st) ++ inked word.
Proof.
  destruct st as [[lines cur] w]. unfold wrapWord, textOf.
  destruct (0 <? length cur)%nat eqn:Hcur; cbn [andb].
  - destruct (_ >? maxWidth cfg).
    + rewrite concat_app. cbn [concat]. rewrite app_nil_r. apply inked_app.
    + rewrite !inked_app. change (inked [space]) with (@nil codeUnit).
      cbn [app]. now rewrite <- app_assoc.
  - destruct cur; [|discriminate]. now rewrite !inked_app, app_nil_r.
Qed.

Lemma wrapWords_inked (words : list jsstring) :
  forall st,
    inked (textOf (fold_left wrapWord' words st))
    = inked (textOf st) ++ inked (concat words).
Proof.
  induction words as [|word words IH]; intros st; cbn [fold_left concat].
  - now rewrite app_nil_r.
  - now rewrite IH, wrapWord_inked, inked_app, app_assoc.
Qed.

End Wrap.

(** X13 (the word wrap of [generateGCode] and of [calculateDimensions]).
    Wrapping a line loses, adds and reorders no character but spaces;
    every input line gives at least one line (a blank line stays a
    line); and a line without a space is never broken, however wide it
    measures. *)
Theorem wrapLine_keeps_text (cfg : Settings) (spaceWidthTotal : number)
    (measure : jsstring -> number) (inputLine : jsstring) :
  inked (concat (wrapLine cfg spaceWidthTotal measure inputLine)) = inked inputLine /\
  wrapLine cfg spaceWidthTotal measure inputLine <> [] /\
  (includesUnit inputLine space = false ->
   wrapLine cfg spaceWidthTotal measure inputLine = [inputLine]).
Proof.
  split; [|split].
  - unfold wrapLine.
    pose proof (wrapWords_inked cfg spaceWidthTotal measure
                  (split space inputLine) ([], [], 0)) as H.
    destruct (fold_left _ _ _) as [[lines cur] w].
    cbn [textOf concat app] in H.
    rewrite concat_app. cbn [concat]. rewrite app_nil_r, H.
    change (inked []) with (@nil codeUnit). cbn [app].
    apply inked_split.
  - unfold wrapLine. destruct (fold_left _ _ _) as [[lines cur] w].
    now destruct lines.
  - intros H. unfold wrapLine. rewrite (split_without _ _ H).
    reflexivity.
Qed.

(** Subtracting [+0] changes no number. *)
Lemma sub_zero (x : number) : x - 0 = x.
Proof.
  apply Prim2SF_inj. rewrite sub_spec.
  change (Prim2SF 0) with (S754_zero false).
  destruct (Prim2SF x) as [[|]| | |]; reflexivity.
Qed.

(** No rule applies to the pair: the loop of [getKerningAdjustment]
    returns the 0 that it starts with. *)
Lemma getKerningAdjustment_none (font : Font) (rules : list KernRule)
    (char1 char2 : jsstring) :
  forallb (fun rule => negb (ruleApplies font char1 char2 rule)) rules = true ->
  getKerningAdjustment font rules char1 char2 = 0.
Proof.
  unfold getKerningAdjustment. generalize 0.
  induction rules as [|rule rules IH]; intros acc H; [reflexivity|].
  cbn [forallb] in H. apply andb_true_iff in H. destruct H as [Hr Hrs].
  cbn [fold_left]. apply negb_true_iff in Hr. rewrite Hr. now apply IH.
Qed.

(** X14 ([generateGCode], [exportImage]).  The two exporters advance by
    the same amount for a character that is its own normal form and that
    no kerning rule pairs with the next character (or that ends the
    line): normalization and kerning are all that sets them apart. *)
Theorem advances_agree (font : Font) (fontMetrics : FontMetrics)
    (kerning : list KernRule) (cfg : Settings) (size : number)
    (c : codeUnit) (rest : jsstring) :
  normalizeCharacter [c] = [c] ->
  match rest with
  | nextChar :: _ =>
      forallb (fun rule => negb (ruleApplies font [c] [nextChar] rule)) kerning = true
  | [] => True
  end ->
  gcodeAdvance font fontMetrics kerning cfg size c rest
  = imageAdvance font fontMetrics cfg size c rest.
Proof.
  intros Hnorm Hkern. unfold gcodeAdvance, imageAdvance. rewrite Hnorm.
  destruct (font [c]) as [charData|] eqn:Hc.
  - assert (match rest with
            | nextChar :: _ =>
                charSpacing cfg - getKerningAdjustment font kerning [c] [nextChar]
            | [] => charSpacing cfg
            end = charSpacing cfg) as ->.
    { destruct rest as [|nextChar rest']; [reflexivity|].
      rewrite getKerningAdjustment_none by exact Hkern. apply sub_zero. }
    unfold charWidthCanvas. now destruct (horizAdvX charData).
  - destruct (N.eqb_spec c space) as [->|Hne]; [|reflexivity].
    change (js " ") with [space]. now rewrite Hc.
Qed.

(** The rules of [LayoutFacts.kerning_AV] and a glyph rule: none of them
    pairs [V] with a following [A]. *)
Definition kerning_VA : list KernRule :=
  LayoutFacts.kerning_AV ++ [GlyphRule (js "A") (js "V,W") 3].

Lemma advances_agree_witness :
  gcodeAdvance LayoutFacts.font_AV LayoutFacts.metrics kerning_VA
    LayoutFacts.cfg_AV 10 86%N (js "A")
  = imageAdvance LayoutFacts.font_AV LayoutFacts.metrics LayoutFacts.cfg_AV 10 86%N
      (js "A").
Proof.
  apply (advances_agree LayoutFacts.font_AV LayoutFacts.metrics
           kerning_VA LayoutFacts.cfg_AV 10 86%N (js "A"));
    reflexivity.
Defined.

(** With the pair the other way round both rules apply (a glyph without
    a name goes by its character), and the two advances differ by the sum
    of their [k]. *)
Example advances_differ :
  gcodeAdvance LayoutFacts.font_AV LayoutFacts.metrics kerning_VA
    LayoutFacts.cfg_AV 50 65%N (js "V") = 6 /\
  imageAdvance LayoutFacts.font_AV LayoutFacts.metrics LayoutFacts.cfg_AV 50 65%N
    (js "V") = 11.
Proof. vm_compute. split; reflexivity. Qed.

End LayoutMore.

(* ================================================================== *)
(** ** The glyph of the current character: bounds, saving, selecting *)

Module Glyphs.
Import Stroke Text Font History.

(** [Math.min(a, b)]: NaN when an argument is NaN, and [-0] counts as
    smaller than [+0]. *)
Definition Math_min (a b : number) : number :=
  if is_nan a || is_nan b then nan
  else if a <? b then a
  else if b <? a then b
  else if get_sign a then a else b.

(** [{ minX: 0, minY: 0, maxX: 0, maxY: 0, width: 0, height: 0 }]. *)
Definition zeroBox : BBox := mkBBox 0 0 0 0 0 0.

(** The body of [stroke.forEach(point => ...)] of [calculateBounds], on
    [(minX, minY, maxX, maxY)]. *)
Definition extend (acc : number * number * number * number) (point : Point)
    : number * number * number * number :=
  let '(minX, minY, maxX, maxY) := acc in
  (Math_min minX (px point), Math_min minY (py point),
   Math_max maxX (px point), Math_max maxY (py point)).

(** [calculateBounds(strokes)]. *)
Definition calculateBounds (strokes : list (list Point)) : BBox :=
  match strokes with
  | [] => zeroBox
  | _ =>
      let '(minX, minY, maxX, maxY) :=
        fold_left (fun acc stroke => fold_left extend stroke acc) strokes
                  (infinity, infinity, neg_infinity, neg_infinity) in
      if (minX =? infinity) || (minY =? infinity) then zeroBox
      else mkBBox minX minY maxX maxY (maxX - minX) (maxY - minY)
  end.

(** [this.font[key] = charData]. *)
Definition setEntry (font : Font) (key : jsstring) (charData : CharData) : Font :=
  fun k => if eqs k key then Some charData else font k.

Section Controller.

(** [JSON.parse(JSON.stringify(strokes))]. *)
Variable jsonCopy : list (list Point) -> list (list Point).

(** [this.canvas.width], [this.canvas.height] and [this.fontMetrics]. *)
Variable canvasWidth canvasHeight : number.
Variable fontMetrics : FontMetrics.

(** The fields of the controller that selecting and saving a character
    touch: [currentChar] ([None] is [null]), [font], and [strokes],
    [history], [historyIndex]. *)
Record Controller := mkController {
  currentChar : option jsstring;
  font : Font;
  editor : Editor (list (list Point)) }.

(** The entry of a character that has no glyph yet: no strokes, and an
    advance of half the canvas. *)
Definition newEntry : CharData :=
  let fontRange := ascent fontMetrics - descent fontMetrics in
  let svgToCanvasScale := (canvasHeight * 0.7) / fontRange in
  let targetAdvanceCanvas := canvasWidth * 0.5 in
  mkCharData [] zeroBox (Some (targetAdvanceCanvas / svgToCanvasScale)) None.

(** [updateCharacterInFont()]. *)
Definition updateCharacterInFont (st : Controller) : Controller :=
  match currentChar st with
  | Some ((_ :: _) as char) =>
      let bounds := calculateBounds (strokes (editor st)) in
      let horizAdvX :=
        match font st char with
        | Some existingChar => horizAdvX existingChar
        | None => None
        end in
      mkController (currentChar st)
        (setEntry (font st) char
           (mkCharData (jsonCopy (strokes (editor st))) bounds horizAdvX None))
        (editor st)
  | _ => st
  end.

(** [selectCharacter(char)]. *)
Definition selectCharacter (st : Controller) (char : jsstring) : Controller :=
  let st :=
    match currentChar st, strokes (editor st) with
    | Some (_ :: _), _ :: _ => updateCharacterInFont st
    | _, _ => st
    end in
  let normalizedChar := normalizeCharacter char in
  let strokes' :=
    match font st normalizedChar with
    | Some charData => jsonCopy (Font.strokes charData)
    | None => []
    end in
  let font' :=
    match font st normalizedChar with
    | Some _ => font st
    | None => setEntry (font st) normalizedChar newEntry
    end in
  mkController (Some char) font' (mkEditor strokes' [jsonCopy strokes'] 0).

(** [clearCanvas()]. *)
Definition clearCanvas (st : Controller) : Controller :=
  mkController (currentChar st) (font st)
    (saveToHistory jsonCopy
       (mkEditor [] (history (editor st)) (historyIndex (editor st)))).

End Controller.

End Glyphs.

Module GlyphFacts.
Import Stroke Text Font History Glyphs.

(** ** Order facts for [Math.min] and [Math.max] *)

Lemma SFleb_refl (a : spec_float) : a <> S754_nan -> SFleb a a = true.
Proof.
  unfold SFleb. destruct a as [sa| sa | |sa ma ea]; intros H;
    try congruence; try (now destruct sa).
  simpl. destruct sa; rewrite Z.compare_refl;
    change (Pos.compare_cont Eq ma ma) with (Pos.compare ma ma);
    now rewrite Pos.compare_refl.
Qed.

Lemma is_nan_Prim2SF (a : float) : is_nan a = false -> Prim2SF a <> S754_nan.
Proof.
  unfold is_nan. intros H. apply negb_false_iff in H.
  rewrite FloatAxioms.eqb_spec in H. now apply NumFacts.SFeqb_not_nan.
Qed.

Lemma leb_refl (a : float) : is_nan a = false -> (a <=? a) = true.
Proof. intros H. rewrite leb_spec. now apply SFleb_refl, is_nan_Prim2SF. Qed.

Lemma SFltb_leb (a b : spec_float) : SFltb a b = true -> SFleb a b = true.
Proof.
  unfold SFltb, SFleb. now destruct (SFcompare a b) as [[| |]|].
Qed.

Lemma ltb_leb (a b : float) : (a <? b) = true -> (a <=? b) = true.
Proof. rewrite ltb_spec, leb_spec. apply SFltb_leb. Qed.

Lemma SFleb_trans (a b c : spec_float) :
  SFleb a b = true -> SFleb b c = true -> SFleb a c = true.
Proof.
  unfold SFleb.
  destruct a as [sa| sa | |sa ma ea], b as [sb| sb | |sb mb eb],
           c as [sc| sc | |sc mc ec]; NumFacts.by_sign;
    NumFacts.three_way ea eb ec ma mb mc.
Qed.

Lemma leb_trans (a b c : float) :
  (a <=? b) = true -> (b <=? c) = true -> (a <=? c) = true.
Proof. rewrite !leb_spec. apply SFleb_trans. Qed.

Lemma SFltb_not_eqb (a b : spec_float) : SFltb a b = true -> SFeqb a b = false.
Proof.
  unfold SFltb, SFeqb. now destruct (SFcompare a b) as [[| |]|].
Qed.

Lemma ltb_not_eqb (a b : float) : (a <? b) = true -> (a =? b) = false.
Proof. rewrite ltb_spec, FloatAxioms.eqb_spec. apply SFltb_not_eqb. Qed.

(** A finite number is a number strictly between the infinities. *)
Lemma is_finite_between (x : float) :
  is_finite x = true ->
  is_nan x = false /\ (neg_infinity <? x) = true /\ (x <? infinity) = true.
Proof.
  unfold is_finite, is_infinity, is_nan. intros H.
  apply negb_true_iff, orb_false_iff in H. destruct H as [Hn Hi].
  split; [exact Hn|].
  apply negb_false_iff in Hn.
  rewrite FloatAxioms.eqb_spec in Hn, Hi. rewrite abs_spec in Hi.
  rewrite !ltb_spec.
  change (Prim2SF infinity) with (S754_infinity false) in *.
  change (Prim2SF neg_infinity) with (S754_infinity true).
  destruct (Prim2SF x) as [s|s| |s m e]; try discriminate;
    destruct s; split; reflexivity.
Qed.

Lemma Math_min_spec (a b : number) :
  is_nan a = false -> is_nan b = false ->
  is_nan (Math_min a b) = false /\
  (Math_min a b <=? a) = true /\ (Math_min a b <=? b) = true /\
  (Math_min a b = a \/ Math_min a b = b).
Proof.
  intros Ha Hb. unfold Math_min. rewrite Ha, Hb. cbn [orb].
  destruct (a <? b) eqn:Hab.
  { repeat split; auto using leb_refl, ltb_leb. }
  destruct (b <? a) eqn:Hba.
  { repeat split; auto using leb_refl, ltb_leb. }
  pose proof (NumFacts.not_ltb_leb _ _ Ha Hb Hab) as H1.
  pose proof (NumFacts.not_ltb_leb _ _ Hb Ha Hba) as H2.
  destruct (get_sign a); repeat split; auto using leb_refl.
Qed.

Lemma Math_max_spec (a b : number) :
  is_nan a = false -> is_nan b = false ->
  is_nan (Math_max a b) = false /\
  (a <=? Math_max a b) = true /\ (b <=? Math_max a b) = true /\
  (Math_max a b = a \/ Math_max a b = b).
Proof.
  intros Ha Hb. unfold Math_max. rewrite Ha, Hb. cbn [orb].
  destruct (a <? b) eqn:Hab.
  { repeat split; auto using leb_refl, ltb_leb. }
  destruct (b <? a) eqn:Hba.
  { repeat split; auto using leb_refl, ltb_leb. }
  pose proof (NumFacts.not_ltb_leb _ _ Ha Hb Hab) as H1.
  pose proof (NumFacts.not_ltb_leb _ _ Hb Ha Hba) as H2.
  destruct (get_sign a); repeat split; auto using leb_refl.
Qed.

(** The running minimum over numbers: below its start and below each of
    them, and one of these. *)
Lemma fold_min (xs : list number) :
  forall m,
    is_nan m = false -> (forall x, In x xs -> is_nan x = false) ->
    let r := fold_left Math_min xs m in
    is_nan r = false /\ (r <=? m) = true /\
    (forall x, In x xs -> (r <=? x) = true) /\
    (r = m \/ In r xs).
Proof.
  induction xs as [|y xs IH]; intros m Hm Hxs; cbn [fold_left].
  - repeat split; auto using leb_refl; intros x [].
  - destruct (Math_min_spec m y Hm (Hxs y (or_introl eq_refl)))
      as (Hn & Hlm & Hly & Hor).
    destruct (IH (Math_min m y) Hn (fun x Hx => Hxs x (or_intror Hx)))
      as (Hrn & Hrm & Hrx & Hror).
    split; [exact Hrn|]. split; [eapply leb_trans; eauto|]. split.
    + intros x [<-|Hx]; [eapply leb_trans; eauto | now apply Hrx].
    + destruct Hror as [Hr|Hr]; [|right; now right].
      rewrite Hr. destruct Hor as [->| ->]; [now left | right; now left].
Qed.

Lemma fold_max (xs : list number) :
  forall m,
    is_nan m = false -> (forall x, In x xs -> is_nan x = false) ->
    let r := fold_left Math_max xs m in
    is_nan r = false /\ (m <=? r) = true /\
    (forall x, In x xs -> (x <=? r) = true) /\
    (r = m \/ In r xs).
Proof.
  induction xs as [|y xs IH]; intros m Hm Hxs; cbn [fold_left].
  - repeat split; auto using leb_refl; intros x [].
  - destruct (Math_max_spec m y Hm (Hxs y (or_introl eq_refl)))
      as (Hn & Hlm & Hly & Hor).
    destruct (IH (Math_max m y) Hn (fun x Hx => Hxs x (or_intror Hx)))
      as (Hrn & Hrm & Hrx & Hror).
    split; [exact Hrn|]. split; [eapply leb_trans; eauto|]. split.
    + intros x [<-|Hx]; [eapply leb_trans; eauto | now apply Hrx].
    + destruct Hror as [Hr|Hr]; [|right; now right].
      rewrite Hr. destruct Hor as [->| ->]; [now left | right; now left].
Qed.

(** The loops of [calculateBounds] are four running extrema over the
    points of all the strokes. *)
Lemma fold_extend (points : list Point) :
  forall a b c d,
    fold_left extend points (a, b, c, d)
    = (fold_left Math_min (map px points) a, fold_left Math_min (map py points) b,
       fold_left Math_max (map px points) c, fold_left Math_max (map py points) d).
Proof.
  induction points as [|pt points IH]; intros a b c d; [reflexivity|].
  cbn [fold_left map extend]. apply IH.
Qed.

Lemma fold_strokes (strokes : list (list Point)) :
  forall acc,
    fold_left (fun acc stroke => fold_left extend stroke acc) strokes acc
    = fold_left extend (concat strokes) acc.
Proof.
  induction strokes as [|stroke strokes IH]; intros acc; [reflexivity|].
  cbn [fold_left concat]. now rewrite fold_left_app, IH.
Qed.

(** Every coordinate is a finite number, as the coordinates of pointer
    events are. *)
Definition finiteStrokes (strokes : list (list Point)) : bool :=
  forallb (forallb (fun point => is_finite (px point) && is_finite (py point)))
          strokes.

Lemma finiteStrokes_points (strokes : list (list Point)) (point : Point) :
  finiteStrokes strokes = true -> In point (concat strokes) ->
  is_finite (px point) = true /\ is_finite (py point) = true.
Proof.
  unfold finiteStrokes. intros H Hin. apply in_concat in Hin.
  destruct Hin as (stroke & Hs & Hp).
  rewrite forallb_forall in H. specialize (H stroke Hs).
  rewrite forallb_forall in H. specialize (H point Hp).
  now apply andb_true_iff in H.
Qed.

(** X15 ([calculateBounds]).  For strokes with finite coordinates the
    bounds are the smallest box around all the points: every point lies
    within [minX..maxX] and [minY..maxY], each of the four is the
    coordinate of a point, and [width] and [height] are their
    differences.  Strokes without any point (none, or empty ones only)
    give the box of zeros. *)
Theorem calculateBounds_box (strokes : list (list Point)) :
  finiteStrokes strokes = true ->
  let b := calculateBounds strokes in
  (concat strokes = [] -> b = zeroBox) /\
  (concat strokes <> [] ->
   (forall point, In point (concat strokes) ->
      (minX b <=? px point) = true /\ (px point <=? maxX b) = true /\
      (minY b <=? py point) = true /\ (py point <=? maxY b) = true) /\
   In (minX b) (map px (concat strokes)) /\ In (maxX b) (map px (concat strokes)) /\
   In (minY b) (map py (concat strokes)) /\ In (maxY b) (map py (concat strokes)) /\
   width b = maxX b - minX b /\ height b = maxY b - minY b).
Proof.
  intros Hfin b. subst b. unfold calculateBounds.
  destruct strokes as [|stroke0 strokes0]; [split; [reflexivity | now intros []]|].
  set (strokes := stroke0 :: strokes0) in *.
  rewrite fold_strokes, fold_extend.
  set (points := concat strokes) in *.
  assert (forall x, In x (map px points) -> is_finite x = true) as Hfx.
  { intros x Hx. apply in_map_iff in Hx. destruct Hx as (pt & <- & Hpt).
    now apply (finiteStrokes_points strokes). }
  assert (forall y, In y (map py points) -> is_finite y = true) as Hfy.
  { intros y Hy. apply in_map_iff in Hy. destruct Hy as (pt & <- & Hpt).
    now apply (finiteStrokes_points strokes). }
  destruct (fold_min (map px points) infinity eq_refl
              (fun x Hx => proj1 (is_finite_between x (Hfx x Hx))))
    as (_ & _ & HminX & HinMinX).
  destruct (fold_min (map py points) infinity eq_refl
              (fun y Hy => proj1 (is_finite_between y (Hfy y Hy))))
    as (_ & _ & HminY & HinMinY).
  destruct (fold_max (map px points) neg_infinity eq_refl
              (fun x Hx => proj1 (is_finite_between x (Hfx x Hx))))
    as (_ & _ & HmaxX & HinMaxX).
  destruct (fold_max (map py points) neg_infinity eq_refl
              (fun y Hy => proj1 (is_finite_between y (Hfy y Hy))))
    as (_ & _ & HmaxY & HinMaxY).
  set (minX_ := fold_left Math_min (map px points) infinity) in *.
  set (minY_ := fold_left Math_min (map py points) infinity) in *.
  set (maxX_ := fold_left Math_max (map px points) neg_infinity) in *.
  set (maxY_ := fold_left Math_max (map py points) neg_infinity) in *.
  split.
  - intros Hnil. unfold minX_. rewrite Hnil. reflexivity.
  - intros Hne. destruct points as [|p0 points'] eqn:Epts; [congruence|].
    rewrite <- Epts in *. clear Hne.
    assert (In p0 points) as Hp0 by (rewrite Epts; now left).
    assert (In (px p0) (map px points)) as Hx0 by now apply in_map.
    assert (In (py p0) (map py points)) as Hy0 by now apply in_map.
    destruct (is_finite_between _ (Hfx _ Hx0)) as (_ & Hx0lo & Hx0hi).
    destruct (is_finite_between _ (Hfy _ Hy0)) as (_ & Hy0lo & Hy0hi).
    assert ((minX_ =? infinity) = false) as EminX.
    { apply ltb_not_eqb. eapply StrokeMore.leb_ltb_trans; eauto. }
    assert ((minY_ =? infinity) = false) as EminY.
    { apply ltb_not_eqb. eapply StrokeMore.leb_ltb_trans; eauto. }
    rewrite EminX, EminY. cbn [orb minX minY maxX maxY width height].
    split; [|repeat split].
    + intros point Hpt. repeat split;
        [apply HminX | apply HmaxX | apply HminY | apply HmaxY];
        now apply in_map.
    + destruct HinMinX as [H|H]; [|exact H].
      rewrite H in EminX. discriminate EminX.
    + destruct HinMaxX as [H|H]; [|exact H].
      pose proof (NumFacts.leb_not_ltb _ _ (HmaxX _ Hx0)) as Hc.
      rewrite H in Hc. congruence.
    + destruct HinMinY as [H|H]; [|exact H].
      rewrite H in EminY. discriminate EminY.
    + destruct HinMaxY as [H|H]; [|exact H].
      pose proof (NumFacts.leb_not_ltb _ _ (HmaxY _ Hy0)) as Hc.
      rewrite H in Hc. congruence.
Qed.

Lemma calculateBounds_box_witness :
  calculateBounds [[mkPoint 1 2; mkPoint 3 (-1)]; []; [mkPoint 0 5]]
  = mkBBox 0 (-1) 3 5 3 6 /\
  (minX (calculateBounds [[mkPoint 1 2; mkPoint 3 (-1)]; []; [mkPoint 0 5]]) <=? 3)
  = true.
Proof.
  split; [reflexivity|].
  destruct (calculateBounds_box [[mkPoint 1 2; mkPoint 3 (-1)]; []; [mkPoint 0 5]]
              eq_refl) as [_ H].
  destruct H as [H _]; [discriminate|].
  apply (H (mkPoint 3 (-1))). right. now left.
Defined.

(** ** Saving the strokes of a character and loading them again *)

Lemma setEntry_same (font : Font) (key : jsstring) (charData : CharData) :
  setEntry font key charData key = Some charData.
Proof. unfold setEntry. now rewrite KerningMore.eqs_refl. Qed.

Lemma setEntry_other (font : Font) (key k : jsstring) (charData : CharData) :
  k <> key -> setEntry font key charData k = font k.
Proof.
  intros H. unfold setEntry. destruct (eqs k key) eqn:E; [|reflexivity].
  apply KerningFacts.eqs_eq in E. congruence.
Qed.

(** What [updateCharacterInFont] writes for the current character
    [key]. *)
Lemma updateCharacterInFont_entry (jsonCopy : list (list Point) -> list (list Point))
    (st : Controller) (key : jsstring) :
  currentChar st = Some key -> key <> [] ->
  updateCharacterInFont jsonCopy st
  = mkController (Some key)
      (setEntry (font st) key
         (mkCharData (jsonCopy (strokes (editor st)))
            (calculateBounds (strokes (editor st)))
            match font st key with
            | Some existingChar => horizAdvX existingChar
            | None => None
            end
            None))
      (editor st).
Proof.
  intros Hc Hne. unfold updateCharacterInFont. rewrite Hc.
  destruct key; [congruence | reflexivity].
Qed.

Section Selecting.
Variable jsonCopy : list (list Point) -> list (list Point).
Variable canvasWidth canvasHeight : number.
Variable fontMetrics : FontMetrics.

Abbreviation updateCharacterInFont' := (updateCharacterInFont jsonCopy).
Abbreviation selectCharacter' :=
  (selectCharacter jsonCopy canvasWidth canvasHeight fontMetrics).

(** The character [c] whose strokes are followed, its own normal form,
    and the strokes [t] that a copy leaves as they are. *)
Variable c : jsstring.
Variable t : list (list Point).
Hypothesis c_normal : normalizeCharacter c = c.
Hypothesis t_copied : jsonCopy t = t.

(** The font holds strokes for [c] that load as [t]. *)
Definition holds (font : Font) : Prop :=
  exists charData, font c = Some charData /\ jsonCopy (Font.strokes charData) = t.

(** [t] is what the next selection of [c] will load: the strokes on the
    canvas are those of [c] and will be saved as [t], or the font holds
    [t] and what is on the canvas does not replace it. *)
Definition settled (st : Controller) : Prop :=
  (currentChar st = Some c /\ c <> [] /\ strokes (editor st) <> [] /\
   jsonCopy (strokes (editor st)) = t) \/
  (holds (font st) /\
   (currentChar st = Some c ->
    strokes (editor st) = [] \/ jsonCopy (strokes (editor st)) = t)).

Lemma updateCharacterInFont_holds (st : Controller) :
  holds (font st) ->
  (currentChar st = Some c -> jsonCopy (strokes (editor st)) = t) ->
  holds (font (updateCharacterInFont' st)).
Proof.
  intros Hh Hc.
  destruct (currentChar st) as [key|] eqn:Ek;
    [|unfold updateCharacterInFont; rewrite Ek; exact Hh].
  destruct (list_eq_dec N.eq_dec key []) as [->|Hne].
  { unfold updateCharacterInFont. rewrite Ek. exact Hh. }
  rewrite (updateCharacterInFont_entry jsonCopy st key Ek Hne). cbn [font].
  destruct (list_eq_dec N.eq_dec key c) as [E|E].
  - eexists. rewrite <- E at 1. rewrite setEntry_same. split; [reflexivity|].
    cbn [Font.strokes]. rewrite Hc by congruence. exact t_copied.
  - destruct Hh as (d & Hd & Ht). exists d.
    rewrite setEntry_other by congruence. auto.
Qed.

(** The first step of [selectCharacter]: the strokes of the character
    that is left are saved when there are any. *)
Definition saved (st : Controller) : Controller :=
  match currentChar st, strokes (editor st) with
  | Some (_ :: _), _ :: _ => updateCharacterInFont' st
  | _, _ => st
  end.

Lemma saved_holds (st : Controller) : settled st -> holds (font (saved st)).
Proof.
  intros [(Hc & Hne & Hs & Ht) | (Hh & Hc)].
  - assert (saved st = updateCharacterInFont' st) as ->.
    { unfold saved. rewrite Hc.
      destruct (strokes (editor st)); [congruence|].
      revert Hne. clear. now destruct c. }
    rewrite (updateCharacterInFont_entry jsonCopy st c Hc Hne). cbn [font].
    eexists. rewrite setEntry_same. split; [reflexivity|].
    cbn [Font.strokes]. rewrite Ht. exact t_copied.
  - unfold saved.
    destruct (currentChar st) as [[|k0 k]|] eqn:Ek; try exact Hh.
    destruct (strokes (editor st)) as [|s0 s'] eqn:Es; [exact Hh|].
    apply updateCharacterInFont_holds; [exact Hh|].
    rewrite Ek, Es. intros E. destruct (Hc E) as [H|H]; [discriminate | exact H].
Qed.

Lemma selectCharacter_settled (st : Controller) (char : jsstring) :
  settled st ->
  settled (selectCharacter' st char) /\
  (normalizeCharacter char = c -> strokes (editor (selectCharacter' st char)) = t).
Proof.
  intros Hst. pose proof (saved_holds st Hst) as Hh.
  unfold selectCharacter. cbv zeta. fold (saved st).
  set (st1 := saved st) in *.
  cbn [editor strokes font currentChar].
  destruct Hh as (d & Hd & Ht).
  assert (normalizeCharacter char = c ->
          match font st1 (normalizeCharacter char) with
          | Some charData => jsonCopy (Font.strokes charData)
          | None => []
          end = t) as Hload.
  { intros ->. now rewrite Hd. }
  split; [|exact Hload].
  right. cbn [font currentChar editor strokes]. split.
  - destruct (font st1 (normalizeCharacter char)) eqn:En.
    + exists d. auto.
    + exists d. rewrite setEntry_other by congruence. auto.
  - intros E. injection E as ->. right.
    rewrite Hload by exact c_normal. exact t_copied.
Qed.

Lemma visit_settled (chars : list jsstring) :
  forall st, settled st -> settled (fold_left selectCharacter' chars st).
Proof.
  induction chars as [|char chars IH]; intros st Hst; [exact Hst|].
  cbn [fold_left]. apply IH. now apply selectCharacter_settled.
Qed.

Lemma return_loads (chars : list jsstring) (st : Controller) :
  settled st ->
  editor (selectCharacter' (fold_left selectCharacter' chars st) c)
  = mkEditor t [t] 0.
Proof.
  intros Hst. apply (visit_settled chars) in Hst.
  destruct (selectCharacter_settled _ c Hst) as [_ Hload].
  specialize (Hload c_normal).
  unfold selectCharacter in *. cbv zeta in *. cbn [editor strokes] in *.
  rewrite Hload. now rewrite t_copied.
Qed.

End Selecting.

(** X17 ([selectCharacter], [updateCharacterInFont]).  The strokes drawn
    for a character come back when the user returns to it: after
    selecting any other characters and then the character again, the
    canvas holds the copy of the strokes that were on it, and the undo
    history holds that copy alone.  (The character is its own normal
    form, and copying a copy changes nothing.) *)
Theorem selectCharacter_restores
    (jsonCopy : list (list Point) -> list (list Point))
    (canvasWidth canvasHeight : number) (fontMetrics : FontMetrics)
    (st : Controller) (c : jsstring) (chars : list jsstring) :
  (forall s, jsonCopy (jsonCopy s) = jsonCopy s) ->
  normalizeCharacter c = c -> c <> [] ->
  currentChar st = Some c -> strokes (editor st) <> [] ->
  let select := selectCharacter jsonCopy canvasWidth canvasHeight fontMetrics in
  editor (select (fold_left select chars st) c)
  = mkEditor (jsonCopy (strokes (editor st))) [jsonCopy (strokes (editor st))] 0.
Proof.
  intros Hcopy Hn Hne Hc Hs select.
  apply (return_loads jsonCopy canvasWidth canvasHeight fontMetrics c
           (jsonCopy (strokes (editor st))) Hn (Hcopy _)).
  left. auto.
Qed.

(** X18 ([clearCanvas], [selectCharacter]).  [clearCanvas] does not save
    the empty canvas to the font, and [selectCharacter] saves no empty
    canvas either: after clearing the canvas of a character, selecting
    other characters and returning to it, the strokes that its entry of
    the font held are on the canvas again. *)
Theorem clearCanvas_not_saved
    (jsonCopy : list (list Point) -> list (list Point))
    (canvasWidth canvasHeight : number) (fontMetrics : FontMetrics)
    (st : Controller) (c : jsstring) (charData : CharData)
    (chars : list jsstring) :
  (forall s, jsonCopy (jsonCopy s) = jsonCopy s) ->
  normalizeCharacter c = c ->
  currentChar st = Some c -> font st c = Some charData ->
  let select := selectCharacter jsonCopy canvasWidth canvasHeight fontMetrics in
  strokes (editor (clearCanvas jsonCopy st)) = [] /\
  editor (select (fold_left select chars (clearCanvas jsonCopy st)) c)
  = mkEditor (jsonCopy (Font.strokes charData)) [jsonCopy (Font.strokes charData)] 0.
Proof.
  intros Hcopy Hn Hc Hd select.
  assert (strokes (editor (clearCanvas jsonCopy st)) = []) as Hempty.
  { unfold clearCanvas, saveToHistory. cbn [editor].
    now destruct (_ <? _)%nat. }
  split; [exact Hempty|].
  apply (return_loads jsonCopy canvasWidth canvasHeight fontMetrics c
           (jsonCopy (Font.strokes charData)) Hn (Hcopy _)).
  right. split.
  - exists charData. split; [exact Hd | reflexivity].
  - intros _. now left.
Qed.

(** A controller on the character [A] with one stroke on the canvas, and
    a font that holds another stroke for [A]. *)
Definition metrics0 : FontMetrics := mkFontMetrics 1000 800 (-200) 700 500.
Definition stored : CharData :=
  mkCharData [[mkPoint 0 0; mkPoint 5 5]] zeroBox (Some 600) (Some (js "Alpha")).
Definition drawing : Controller :=
  mkController (Some (js "A"))
    (fun k => if eqs k (js "A") then Some stored else None)
    (mkEditor [[mkPoint 1 1; mkPoint 2 3]] [[]; [[mkPoint 1 1; mkPoint 2 3]]] 1).

Lemma selectCharacter_restores_witness :
  let select := selectCharacter (fun s => s) 400 400 metrics0 in
  editor (select (fold_left select [js "B"; js "C"] drawing) (js "A"))
  = mkEditor [[mkPoint 1 1; mkPoint 2 3]] [[[mkPoint 1 1; mkPoint 2 3]]] 0.
Proof.
  intros select.
  apply (selectCharacter_restores (fun s => s) 400 400 metrics0 drawing (js "A")
           [js "B"; js "C"]);
    [reflexivity | reflexivity | discriminate | reflexivity | discriminate].
Defined.

Lemma clearCanvas_not_saved_witness :
  let select := selectCharacter (fun s => s) 400 400 metrics0 in
  strokes (editor (clearCanvas (fun s => s) drawing)) = [] /\
  editor (select (fold_left select [js "B"] (clearCanvas (fun s => s) drawing))
            (js "A"))
  = mkEditor [[mkPoint 0 0; mkPoint 5 5]] [[[mkPoint 0 0; mkPoint 5 5]]] 0.
Proof.
  intros select.
  apply (clearCanvas_not_saved (fun s => s) 400 400 metrics0 drawing (js "A")
           stored [js "B"]); reflexivity.
Defined.

End GlyphFacts.

(* ================================================================== *)
(** ** The character set: adding, removing, stepping through *)

Module CharSet.
Import Text Font History.

(** [array.indexOf(s)]; [None] is -1. *)
Fixpoint indexOf (l : list jsstring) (s : jsstring) : option nat :=
  match l with
  | [] => None
  | x :: rest => if eqs x s then Some 0%nat else option_map S (indexOf rest s)
  end.

Definition isHighSurrogate (u : codeUnit) : bool := ((0xD800 <=? u) && (u <=? 0xDBFF))%N.
Definition isLowSurrogate (u : codeUnit) : bool := ((0xDC00 <=? u) && (u <=? 0xDFFF))%N.

(** The strings that [for (const char of chars)] visits: the code points
    of [chars], a surrogate pair as one string of two units. *)
Fixpoint codePoints (chars : jsstring) : list jsstring :=
  match chars with
  | [] => []
  | h :: rest =>
      match rest with
      | l :: rest' =>
          if isHighSurrogate h && isLowSurrogate l then [h; l] :: codePoints rest'
          else [h] :: codePoints rest
      | [] => [[h]]
      end
  end.

(** [addCustomCharacters(chars)], on [this.charArray]. *)
Definition addCustomCharacters (charArray : list jsstring) (chars : jsstring)
    : list jsstring :=
  fold_left
    (fun charArray char =>
       if includes charArray char then charArray else charArray ++ [char])
    (codePoints chars) charArray.

(** [array.splice(index, 1)]. *)
Definition splice1 {A} (l : list A) (index : nat) : list A :=
  firstn index l ++ skipn (S index) l.

(** [removeCustomCharacter(char)], on [this.charArray] and
    [this.currentChar]; [confirmed] is what [confirm(...)] answers when
    the character has a glyph.  The character that becomes current is
    the one passed to [selectCharacter]. *)
Definition removeCustomCharacter (defaultCharArray : list jsstring) (font : Font)
    (confirmed : bool) (charArray : list jsstring) (currentChar : option jsstring)
    (char : jsstring) : list jsstring * option jsstring :=
  if includes defaultCharArray char then (charArray, currentChar)
  else
    match indexOf charArray char with
    | None => (charArray, currentChar)
    | Some index =>
        let hasGlyph :=
          match font (normalizeCharacter char) with
          | Some charData => (0 <? length (Font.strokes charData))%nat
          | None => false
          end in
        if hasGlyph && negb confirmed then (charArray, currentChar)
        else
          let charArray' := splice1 charArray index in
          match currentChar with
          | Some current =>
              if eqs current char then (charArray', hd_error charArray')
              else (charArray', currentChar)
          | None => (charArray', currentChar)
          end
    end.

(** What [navigateCharacter] does: nothing, or a call of
    [selectCharacter] ([None] is the argument [undefined]). *)
Inductive Navigation :=
| Stay
| Select (char : option jsstring).

(** [navigateCharacter(direction)]. *)
Definition navigateCharacter (charArray : list jsstring)
    (currentChar : option jsstring) (direction : Z) : Navigation :=
  match currentChar with
  | None | Some [] => Select (hd_error charArray)
  | Some current =>
      match indexOf charArray current with
      | None => Stay
      | Some currentIndex =>
          let newIndex := (Z.of_nat currentIndex + direction)%Z in
          let newIndex :=
            if (newIndex <? 0)%Z then (Z.of_nat (length charArray) - 1)%Z
            else newIndex in
          let newIndex :=
            if (Z.of_nat (length charArray) <=? newIndex)%Z then 0%Z else newIndex in
          Select (at_ charArray newIndex)
      end
  end.

End CharSet.

Module CharSetFacts.
Import Text Font History CharSet.

Lemma indexOf_Some (l : list jsstring) (s : jsstring) :
  forall i, indexOf l s = Some i ->
    nth_error l i = Some s /\ forall j, (j < i)%nat -> nth_error l j <> Some s.
Proof.
  induction l as [|x l IH]; intros i H; [discriminate|].
  cbn [indexOf] in H. destruct (eqs x s) eqn:E.
  - apply KerningFacts.eqs_eq in E. injection H as <-. subst x.
    split; [reflexivity | intros j Hj; lia].
  - destruct (indexOf l s) as [k|]; [|discriminate].
    injection H as <-. destruct (IH k eq_refl) as [Hk Hlt].
    split; [exact Hk|]. intros [|j] Hj; cbn [nth_error].
    + intros Hx. injection Hx as ->. rewrite KerningMore.eqs_refl in E. discriminate.
    + apply Hlt. lia.
Qed.

Lemma indexOf_None (l : list jsstring) (s : jsstring) :
  indexOf l s = None <-> ~ In s l.
Proof.
  induction l as [|x l IH]; cbn [indexOf In]; [tauto|].
  destruct (eqs x s) eqn:E.
  - apply KerningFacts.eqs_eq in E. split; [discriminate | tauto].
  - assert (x <> s) as Hne by (intros H; apply KerningFacts.eqs_eq in H; congruence).
    destruct (indexOf l s); [|tauto].
    split; [discriminate|]. intros H.
    assert (~ In s l) as Hn by tauto. apply IH in Hn. discriminate Hn.
Qed.

(** In an array without duplicates every element is found at its own
    index. *)
Lemma indexOf_NoDup (l : list jsstring) :
  NoDup l -> forall i s, nth_error l i = Some s -> indexOf l s = Some i.
Proof.
  induction 1 as [|x l Hx Hl IH]; intros i s Hi; [now destruct i|].
  cbn [indexOf]. destruct i as [|i]; cbn [nth_error] in Hi.
  - injection Hi as ->. now rewrite KerningMore.eqs_refl.
  - destruct (eqs x s) eqn:E.
    + apply KerningFacts.eqs_eq in E. subst x.
      exfalso. apply Hx. eapply nth_error_In; eauto.
    + now rewrite (IH i s Hi).
Qed.

Lemma NoDup_snoc {A} (l : list A) (x : A) :
  NoDup l -> ~ In x l -> NoDup (l ++ [x]).
Proof.
  intros Hl Hx. apply NoDup_app; [exact Hl | repeat constructor; intros [] |].
  intros y Hy [<-|[]]. contradiction.
Qed.

(** The body of the loop of [addCustomCharacters]. *)
Abbreviation addOne := (fun (charArray : list jsstring) (char : jsstring) =>
  if includes charArray char then charArray else charArray ++ [char]).

Lemma addAll_spec (chars : list jsstring) :
  forall charArray,
    NoDup charArray ->
    let r := fold_left addOne chars charArray in
    NoDup r /\ (exists added, r = charArray ++ added) /\ incl chars r.
Proof.
  induction chars as [|char chars IH]; intros charArray Hnd; cbn [fold_left].
  - split; [exact Hnd|]. split; [exists []; now rewrite app_nil_r | intros x []].
  - assert (NoDup (addOne charArray char) /\
            (exists a, addOne charArray char = charArray ++ a) /\
            In char (addOne charArray char)) as (Hnd1 & [a Ha] & Hin).
    { destruct (includes charArray char) eqn:E.
      - apply KerningFacts.includes_In in E.
        split; [exact Hnd|]. split; [exists []; now rewrite app_nil_r | exact E].
      - split; [|split; [now exists [char] | apply in_or_app; right; now left]].
        apply NoDup_snoc; [exact Hnd|].
        intros H. apply KerningFacts.includes_In in H. congruence. }
    destruct (IH _ Hnd1) as (Hnd2 & [b Hb] & Hincl).
    split; [exact Hnd2|]. split.
    + exists (a ++ b). now rewrite Hb, Ha, app_assoc.
    + intros x [<-|Hx]; [|now apply Hincl].
      rewrite Hb. apply in_or_app. now left.
Qed.

Lemma addAll_present (chars : list jsstring) :
  forall charArray, incl chars charArray -> fold_left addOne chars charArray = charArray.
Proof.
  induction chars as [|char chars IH]; intros charArray H; [reflexivity|].
  cbn [fold_left].
  assert (In char charArray) as Hc by (apply H; now left).
  apply KerningFacts.includes_In in Hc. rewrite Hc.
  apply IH. intros x Hx. apply H. now right.
Qed.

(** The iteration over a string visits all its units, in order. *)
Lemma concat_codePoints (chars : jsstring) : concat (codePoints chars) = chars.
Proof.
  assert (forall n chars, (length chars <= n)%nat -> concat (codePoints chars) = chars)
    as H.
  { induction n as [|n IH]; intros [|h [|l rest]] Hlen; try reflexivity;
      cbn [length] in Hlen; try lia.
    change (codePoints (h :: l :: rest))
      with (if isHighSurrogate h && isLowSurrogate l
            then [h; l] :: codePoints rest else [h] :: codePoints (l :: rest)).
    destruct (isHighSurrogate h && isLowSurrogate l); cbn [concat app].
    - rewrite IH by lia. reflexivity.
    - rewrite (IH (l :: rest)) by (cbn [length]; lia). reflexivity. }
  apply (H (length chars)). lia.
Qed.

Lemma splice1_at (l : list jsstring) (index : nat) (s : jsstring) :
  nth_error l index = Some s ->
  l = firstn index l ++ s :: skipn (S index) l.
Proof.
  revert index. induction l as [|x l IH]; intros [|i] H; try discriminate.
  - injection H as ->. reflexivity.
  - cbn [nth_error] in H. cbn [firstn skipn app]. f_equal. now apply IH.
Qed.

(** The character set has no duplicates, holds the default characters,
    and the current character, if any, is one of its characters. *)
Definition wellFormed (defaultCharArray charArray : list jsstring)
    (currentChar : option jsstring) : Prop :=
  NoDup charArray /\ incl defaultCharArray charArray /\
  forall c, currentChar = Some c -> In c charArray.

(** X19 ([addCustomCharacters], [removeCustomCharacter],
    [deleteCurrentCharacter], [navigateCharacter]).  The operations on
    the character set keep it well formed: without duplicates, with all
    the default characters (none of them can be removed), and with the
    current character among its characters; [navigateCharacter] never
    selects [undefined], whatever the step. *)
Theorem charSet_invariant (defaultCharArray charArray : list jsstring)
    (currentChar : option jsstring) :
  wellFormed defaultCharArray charArray currentChar ->
  (forall chars,
      wellFormed defaultCharArray (addCustomCharacters charArray chars) currentChar) /\
  (forall font confirmed char,
      let result := removeCustomCharacter defaultCharArray font confirmed
                      charArray currentChar char in
      wellFormed defaultCharArray (fst result) (snd result) /\
      (In char defaultCharArray -> result = (charArray, currentChar))) /\
  (forall direction,
      charArray <> [] ->
      match navigateCharacter charArray currentChar direction with
      | Stay => False
      | Select char =>
          exists c, char = Some c /\ wellFormed defaultCharArray charArray (Some c)
      end).
Proof.
  intros (Hnd & Hdef & Hcur). split; [|split].
  - intros chars. unfold addCustomCharacters.
    destruct (addAll_spec (codePoints chars) charArray Hnd) as (Hnd' & [added Ha] & _).
    split; [exact Hnd'|]. rewrite Ha.
    split; [intros x Hx | intros c Hc]; apply in_or_app; left; auto.
  - intros font confirmed char result. subst result.
    unfold removeCustomCharacter.
    destruct (includes defaultCharArray char) eqn:Ed.
    { cbn [fst snd]. repeat split; auto. }
    assert (~ In char defaultCharArray) as Hnot.
    { intros H. apply KerningFacts.includes_In in H. congruence. }
    split; [|tauto].
    destruct (indexOf charArray char) as [index|] eqn:Ei;
      [|cbn [fst snd]; repeat split; auto].
    destruct (_ && negb confirmed); [cbn [fst snd]; repeat split; auto|].
    apply indexOf_Some in Ei. destruct Ei as [Ei _].
    pose proof (splice1_at _ _ _ Ei) as Hsplit.
    assert (NoDup (splice1 charArray index)) as Hnd'.
    { rewrite Hsplit in Hnd. now apply NoDup_remove_1 in Hnd. }
    assert (forall x, In x charArray -> x <> char -> In x (splice1 charArray index))
      as Hkeep.
    { intros x Hx Hne. rewrite Hsplit in Hx. unfold splice1.
      apply in_app_or in Hx. apply in_or_app.
      destruct Hx as [Hx|[Hx|Hx]]; [now left | congruence | now right]. }
    assert (incl defaultCharArray (splice1 charArray index)) as Hdef'.
    { intros x Hx. apply Hkeep; [now apply Hdef | congruence]. }
    destruct currentChar as [current|]; cbn [fst snd].
    + destruct (eqs current char) eqn:Ec; cbn [fst snd].
      * split; [exact Hnd'|]. split; [exact Hdef'|].
        intros c Hc. destruct (splice1 charArray index); [discriminate|].
        injection Hc as ->. now left.
      * split; [exact Hnd'|]. split; [exact Hdef'|].
        intros c Hc. injection Hc as <-. apply Hkeep; [now apply Hcur|].
        intros H. apply KerningFacts.eqs_eq in H. congruence.
    + split; [exact Hnd'|]. split; [exact Hdef'|]. discriminate.
  - intros direction Hne. unfold navigateCharacter.
    assert (exists c, hd_error charArray = Some c /\
                      wellFormed defaultCharArray charArray (Some c)) as Hfirst.
    { destruct charArray as [|c0 rest]; [congruence|]. exists c0.
      split; [reflexivity|]. split; [exact Hnd|]. split; [exact Hdef|].
      intros c Hc. injection Hc as <-. now left. }
    destruct currentChar as [[|u current]|]; try exact Hfirst.
    destruct (indexOf charArray (u :: current)) as [currentIndex|] eqn:Ei.
    2:{ apply indexOf_None in Ei. apply Ei. now apply Hcur. }
    apply indexOf_Some in Ei. destruct Ei as [Ei _].
    apply StrokeFacts.nth_error_Some_lt in Ei. cbv zeta.
    match goal with
    | |- context [at_ charArray ?i] =>
        destruct (HistoryFacts.at_in_range charArray i) as [c Hc]
    end.
    { destruct (Z.ltb_spec (Z.of_nat currentIndex + direction) 0);
        match goal with |- context [(?a <=? ?b)%Z] => destruct (Z.leb_spec a b) end;
        lia. }
    rewrite Hc. exists c. split; [reflexivity|].
    split; [exact Hnd|]. split; [exact Hdef|].
    intros c' Hc'. injection Hc' as <-.
    unfold at_ in Hc. destruct (_ <? 0)%Z; [discriminate|].
    eapply nth_error_In; eauto.
Qed.

Definition abc : list jsstring := [js "A"; js "B"; js "C"].

Lemma charSet_invariant_witness :
  wellFormed [js "A"; js "B"] (addCustomCharacters abc (js "CD")) (Some (js "C")) /\
  removeCustomCharacter [js "A"; js "B"] KerningFacts.noFont false abc
    (Some (js "C")) (js "C") = ([js "A"; js "B"], Some (js "A")) /\
  navigateCharacter abc (Some (js "C")) 1 = Select (Some (js "A")).
Proof.
  assert (wellFormed [js "A"; js "B"] abc (Some (js "C"))) as H.
  { split; [|split].
    - repeat constructor; cbn; intuition discriminate.
    - intros x [<-|[<-|[]]]; cbn; auto.
    - intros c Hc. injection Hc as <-. cbn. auto. }
  split; [|split; reflexivity].
  apply (charSet_invariant [js "A"; js "B"] abc (Some (js "C")) H).
Defined.

(** The step of [navigateCharacter] from an element of the array. *)
Lemma navigate_from (charArray : list jsstring) (i : nat) (c : jsstring)
    (direction : Z) :
  NoDup charArray -> nth_error charArray i = Some c -> c <> [] ->
  navigateCharacter charArray (Some c) direction
  = Select (at_ charArray
              (let newIndex := (Z.of_nat i + direction)%Z in
               let newIndex :=
                 if (newIndex <? 0)%Z then (Z.of_nat (length charArray) - 1)%Z
                 else newIndex in
               if (Z.of_nat (length charArray) <=? newIndex)%Z then 0%Z
               else newIndex)).
Proof.
  intros Hnd Hi Hne. unfold navigateCharacter.
  rewrite (indexOf_NoDup _ Hnd _ _ Hi). now destruct c.
Qed.

Lemma at_nat {A} (l : list A) (i : nat) : at_ l (Z.of_nat i) = nth_error l i.
Proof.
  unfold at_. destruct (Z.ltb_spec (Z.of_nat i) 0); [lia|]. now rewrite Nat2Z.id.
Qed.

(** X20 ([navigateCharacter]).  In a character set without duplicates
    the next and the previous character undo each other, also across the
    ends of the array, where the step wraps around. *)
Theorem navigateCharacter_round_trip (charArray : list jsstring) (c : jsstring) :
  NoDup charArray -> (forall x, In x charArray -> x <> []) -> In c charArray ->
  (exists next,
      navigateCharacter charArray (Some c) 1 = Select (Some next) /\
      navigateCharacter charArray (Some next) (-1) = Select (Some c)) /\
  (exists previous,
      navigateCharacter charArray (Some c) (-1) = Select (Some previous) /\
      navigateCharacter charArray (Some previous) 1 = Select (Some c)).
Proof.
  intros Hnd Hne Hin.
  destruct (In_nth_error _ _ Hin) as [i Hi].
  pose proof (StrokeFacts.nth_error_Some_lt _ _ _ Hi) as Hlt.
  assert (forall j, (j < length charArray)%nat ->
            exists x, nth_error charArray j = Some x /\ x <> []) as Hat.
  { intros j Hj. destruct (nth_error charArray j) as [x|] eqn:Ex.
    - exists x. split; [reflexivity|]. apply Hne. eapply nth_error_In; eauto.
    - apply nth_error_None in Ex. lia. }
  split.
  - set (j := if (S i <? length charArray)%nat then S i else 0%nat).
    destruct (Hat j) as (next & Hj & Hnext).
    { unfold j. destruct (Nat.ltb_spec (S i) (length charArray)); lia. }
    exists next. split.
    + rewrite (navigate_from _ i c 1 Hnd Hi (Hne _ Hin)). cbv zeta.
      rewrite <- Hj, <- at_nat. do 2 f_equal. unfold j.
      destruct (Z.ltb_spec (Z.of_nat i + 1) 0); [lia|].
      destruct (Nat.ltb_spec (S i) (length charArray));
        destruct (Z.leb_spec (Z.of_nat (length charArray)) (Z.of_nat i + 1)); lia.
    + rewrite (navigate_from _ j next (-1) Hnd Hj Hnext). cbv zeta.
      rewrite <- Hi, <- at_nat. do 2 f_equal. unfold j.
      destruct (Nat.ltb_spec (S i) (length charArray)).
      * destruct (Z.ltb_spec (Z.of_nat (S i) + -1) 0); [lia|].
        destruct (Z.leb_spec (Z.of_nat (length charArray)) (Z.of_nat (S i) + -1)); lia.
      * destruct (Z.ltb_spec (Z.of_nat 0 + -1) 0); [|lia].
        destruct (Z.leb_spec (Z.of_nat (length charArray))
                    (Z.of_nat (length charArray) - 1)); lia.
  - set (j := match i with O => (length charArray - 1)%nat | S k => k end).
    destruct (Hat j) as (previous & Hj & Hprevious).
    { unfold j. destruct i; lia. }
    exists previous. split.
    + rewrite (navigate_from _ i c (-1) Hnd Hi (Hne _ Hin)). cbv zeta.
      rewrite <- Hj, <- at_nat. do 2 f_equal. unfold j.
      destruct i as [|k].
      * destruct (Z.ltb_spec (Z.of_nat 0 + -1) 0); [|lia].
        destruct (Z.leb_spec (Z.of_nat (length charArray))
                    (Z.of_nat (length charArray) - 1)); lia.
      * destruct (Z.ltb_spec (Z.of_nat (S k) + -1) 0); [lia|].
        destruct (Z.leb_spec (Z.of_nat (length charArray)) (Z.of_nat (S k) + -1)); lia.
    + rewrite (navigate_from _ j previous 1 Hnd Hj Hprevious). cbv zeta.
      rewrite <- Hi, <- at_nat. do 2 f_equal. unfold j.
      destruct i as [|k].
      * destruct (Z.ltb_spec (Z.of_nat (length charArray - 1) + 1) 0); [lia|].
        destruct (Z.leb_spec (Z.of_nat (length charArray))
                    (Z.of_nat (length charArray - 1) + 1)); lia.
      * destruct (Z.ltb_spec (Z.of_nat k + 1) 0); [lia|].
        destruct (Z.leb_spec (Z.of_nat (length charArray)) (Z.of_nat k + 1)); lia.
Qed.

Lemma navigateCharacter_round_trip_witness :
  (exists next,
      navigateCharacter abc (Some (js "C")) 1 = Select (Some next) /\
      navigateCharacter abc (Some next) (-1) = Select (Some (js "C"))) /\
  (exists previous,
      navigateCharacter abc (Some (js "C")) (-1) = Select (Some previous) /\
      navigateCharacter abc (Some previous) 1 = Select (Some (js "C"))).
Proof.
  apply (navigateCharacter_round_trip abc (js "C")).
  - repeat constructor; cbn; intuition discriminate.
  - intros x [<-|[<-|[<-|[]]]]; discriminate.
  - cbn. auto.
Defined.

(** X21 ([addCustomCharacters]).  Adding characters appends to the
    character set, so the characters that were there keep their places;
    it adds each code point of the input once (a surrogate pair as one
    character, no unit of the input is lost), keeps the set free of
    duplicates, and adding the same input again changes nothing. *)
Theorem addCustomCharacters_spec (charArray : list jsstring) (chars : jsstring) :
  NoDup charArray ->
  let charArray' := addCustomCharacters charArray chars in
  (exists added, charArray' = charArray ++ added) /\
  NoDup charArray' /\
  incl (codePoints chars) charArray' /\
  concat (codePoints chars) = chars /\
  addCustomCharacters charArray' chars = charArray'.
Proof.
  intros Hnd charArray'. subst charArray'. unfold addCustomCharacters.
  destruct (addAll_spec (codePoints chars) charArray Hnd) as (Hnd' & Hadd & Hincl).
  split; [exact Hadd|]. split; [exact Hnd'|]. split; [exact Hincl|].
  split; [apply concat_codePoints|]. now apply addAll_present.
Qed.

Lemma addCustomCharacters_spec_witness :
  addCustomCharacters abc [66; 0xD83D; 0xDE00; 0xE9; 0xE9]%N
  = abc ++ [[0xD83D; 0xDE00]; [0xE9]]%N /\
  NoDup (addCustomCharacters abc [66; 0xD83D; 0xDE00; 0xE9; 0xE9]%N).
Proof.
  split; [reflexivity|].
  apply (addCustomCharacters_spec abc [66; 0xD83D; 0xDE00; 0xE9; 0xE9]%N).
  repeat constructor; cbn; intuition discriminate.
Defined.

End CharSetFacts.

(* ================================================================== *)
(** ** Escaping of the kerning selectors in the exported SVG font *)

Module Escape.
Import Text.

(** [str.replace(/c/g, by)] for a pattern of one character; none of the
    replacements below holds a [$]. *)
Definition replaceAll (c : codeUnit) (by_ : jsstring) (str : jsstring) : jsstring :=
  flat_map (fun u => if (u =? c)%N then by_ else [u]) str.

Definition amp : codeUnit := 38%N.
Definition lt : codeUnit := 60%N.
Definition gt : codeUnit := 62%N.
Definition quot : codeUnit := 34%N.
Definition apos : codeUnit := 39%N.

(** [escapeXML(str)]. *)
Definition escapeXML (str : jsstring) : jsstring :=
  replaceAll apos (js "&apos;")
    (replaceAll quot (js "&quot;")
       (replaceAll gt (js "&gt;")
          (replaceAll lt (js "&lt;")
             (replaceAll amp (js "&amp;") str)))).

End Escape.

Module EscapeFacts.
Import Text Escape.

(** The entity that stands for a character, or the character. *)
Definition escapeUnit (u : codeUnit) : jsstring :=
  if (u =? amp)%N then js "&amp;"
  else if (u =? lt)%N then js "&lt;"
  else if (u =? gt)%N then js "&gt;"
  else if (u =? quot)%N then js "&quot;"
  else if (u =? apos)%N then js "&apos;"
  else [u].

Lemma replaceAll_app (c : codeUnit) (by_ a b : jsstring) :
  replaceAll c by_ (a ++ b) = replaceAll c by_ a ++ replaceAll c by_ b.
Proof. apply flat_map_app. Qed.

(** The five replacements in a row do to each character what one pass
    would: no replacement brings in a character that a later one
    replaces. *)
Lemma escapeXML_cons (u : codeUnit) (str : jsstring) :
  escapeXML (u :: str) = escapeUnit u ++ escapeXML str.
Proof.
  unfold escapeXML.
  change (replaceAll amp (js "&amp;") (u :: str))
    with ((if (u =? amp)%N then js "&amp;" else [u])
          ++ replaceAll amp (js "&amp;") str).
  rewrite !replaceAll_app. f_equal.
  unfold escapeUnit.
  destruct (N.eqb_spec u amp) as [->|Hamp]; [reflexivity|].
  unfold replaceAll at 4. cbn [flat_map app].
  destruct (N.eqb_spec u lt) as [->|Hlt]; [reflexivity|].
  unfold replaceAll at 3. cbn [flat_map app].
  destruct (N.eqb_spec u gt) as [->|Hgt]; [reflexivity|].
  unfold replaceAll at 2. cbn [flat_map app].
  destruct (N.eqb_spec u quot) as [->|Hquot]; [reflexivity|].
  unfold replaceAll. cbn [flat_map app].
  destruct (N.eqb_spec u apos) as [->|Hapos]; reflexivity.
Qed.

Lemma escapeXML_flat_map (str : jsstring) :
  escapeXML str = flat_map escapeUnit str.
Proof.
  induction str as [|u str IH]; [reflexivity|].
  rewrite escapeXML_cons. cbn [flat_map]. now rewrite IH.
Qed.

Definition markup (u : codeUnit) : bool :=
  (u =? lt)%N || (u =? gt)%N || (u =? quot)%N || (u =? apos)%N.

Lemma escapeUnit_clean (u : codeUnit) : forallb (fun v => negb (markup v)) (escapeUnit u) = true.
Proof.
  unfold escapeUnit, markup.
  destruct (N.eqb_spec u amp); [reflexivity|].
  destruct (N.eqb_spec u lt); [reflexivity|].
  destruct (N.eqb_spec u gt); [reflexivity|].
  destruct (N.eqb_spec u quot); [reflexivity|].
  destruct (N.eqb_spec u apos); [reflexivity|].
  cbn [forallb]. 
  destruct (N.eqb_spec u lt); [contradiction|].
  destruct (N.eqb_spec u gt); [contradiction|].
  destruct (N.eqb_spec u quot); [contradiction|].
  destruct (N.eqb_spec u apos); [contradiction|]. reflexivity.
Qed.

(** The text of a character can be told from what follows it. *)
Lemma escapeUnit_prefix (u v : codeUnit) (a b : jsstring) :
  escapeUnit u ++ a = escapeUnit v ++ b -> u = v /\ a = b.
Proof.
  unfold escapeUnit.
  destruct (N.eqb_spec u amp) as [->|Hu1]; [|
  destruct (N.eqb_spec u lt) as [->|Hu2]; [|
  destruct (N.eqb_spec u gt) as [->|Hu3]; [|
  destruct (N.eqb_spec u quot) as [->|Hu4]; [|
  destruct (N.eqb_spec u apos) as [->|Hu5]]]]];
  (destruct (N.eqb_spec v amp) as [->|Hv1]; [|
   destruct (N.eqb_spec v lt) as [->|Hv2]; [|
   destruct (N.eqb_spec v gt) as [->|Hv3]; [|
   destruct (N.eqb_spec v quot) as [->|Hv4]; [|
   destruct (N.eqb_spec v apos) as [->|Hv5]]]]]);
  cbn; intros H; inversion H; subst;
    try (exfalso; now apply Hu1); try (exfalso; now apply Hv1);
    try (split; reflexivity); congruence.
Qed.

Lemma escapeUnit_nonempty (u : codeUnit) : escapeUnit u <> [].
Proof.
  unfold escapeUnit.
  destruct (u =? amp)%N; [discriminate|]. destruct (u =? lt)%N; [discriminate|].
  destruct (u =? gt)%N; [discriminate|]. destruct (u =? quot)%N; [discriminate|].
  destruct (u =? apos)%N; discriminate.
Qed.

(** X22 ([escapeXML], used by [exportSVGFont] on the kerning selectors).
    The five replacements in a row amount to one pass that writes each of
    [&], [<], [>], the double and the single quote as its entity and
    leaves the other characters; the result holds none of [<], [>] and
    the two quotes; and no two strings are escaped to the same text. *)
Theorem escapeXML_spec :
  (forall str, escapeXML str = flat_map escapeUnit str) /\
  (forall str u, In u (escapeXML str) -> markup u = false) /\
  (forall a b, escapeXML a = escapeXML b -> a = b).
Proof.
  split; [exact escapeXML_flat_map|]. split.
  - intros str u. rewrite escapeXML_flat_map, in_flat_map.
    intros (v & _ & Hu). pose proof (escapeUnit_clean v) as H.
    rewrite forallb_forall in H. apply H in Hu. now apply negb_true_iff in Hu.
  - induction a as [|u a IH]; intros [|v b] H.
    + reflexivity.
    + rewrite escapeXML_cons in H. cbn in H. symmetry in H.
      apply app_eq_nil in H. destruct H as [H _].
      now apply escapeUnit_nonempty in H.
    + rewrite escapeXML_cons in H. cbn in H.
      apply app_eq_nil in H. destruct H as [H _].
      now apply escapeUnit_nonempty in H.
    + rewrite !escapeXML_cons in H. apply escapeUnit_prefix in H.
      destruct H as [-> H]. f_equal. now apply IH.
Qed.

Example escapeXML_run :
  GCodeFacts.show (escapeXML (js "A&B<'")) = "A&amp;B&lt;&apos;"%string.
Proof. reflexivity. Qed.

End EscapeFacts.

(* ================================================================== *)
(** ** The arc test of the older controller *)

(** [src/js/font-creator-controller.js] holds an older copy of the
    controller.  Its [douglasPeucker], [detectArcs], [fitCircle] and
    [isClockwise] are those above; its [isCollinear] and [fitArc] have
    fewer tests. *)
Module Older.
Import Stroke Arcs.

(** [isCollinear(points, tolerance)], without the check of the
    directions. *)
Definition isCollinear (points : list Point) (tolerance : number) : bool :=
  match points with
  | start :: ((_ :: _ :: _) as rest) =>
      let end_ := last rest start in
      let dx := px end_ - px start in
      let dy := py end_ - py start in
      let lineLength := sqrt (dx * dx + dy * dy) in
      if lineLength <? 0.1 then true
      else if existsb (fun pt =>
                abs ((dy * px pt - dx * py pt + px end_ * py start - py end_ * px start)
                     / lineLength) >? tolerance) (removelast rest)
      then false
      else true
  | _ => true
  end.

Section WithHost.
Variable atan2_host : number -> number -> number.
Variable arcTolerance : number.

(** The body of the [for] loop of [fitArc]: the candidate is returned as
    soon as all its points fit the circle. *)
Definition tryArc (fuel : nat) (points : list Point) : option Verdict :=
  if isCollinear points arcTolerance then Some Rejected
  else
    match fitCircle points with
    | None => Some Rejected
    | Some circle =>
        if (r circle <? 0.5) || (r circle >? 50) then Some Rejected
        else if forallb (fun pt =>
                  negb (abs (distanceTo (cx circle) (cy circle) pt - r circle)
                        >? arcTolerance)) points
        then
          match isClockwise atan2_host fuel points circle with
          | None => None
          | Some cw => Some (Accepted circle cw)
          end
        else Some Rejected
    end.

End WithHost.

End Older.

Module OlderFacts.
Import Stroke Arcs ArcFacts.

(** X23 ([isCollinear] and [fitArc] of both controllers).  The check of
    the directions only takes candidates out of the straight ones:
    whatever the newer [isCollinear] calls straight, the older one does.
    And the tests on the angle and on the ratio of arc to chord only turn
    candidates down: a candidate that the newer [fitArc] accepts is
    accepted by the older one with the same circle and direction, unless
    the older [isCollinear] calls it straight. *)
Theorem older_fitArc_accepts (atan2_host : number -> number -> number)
    (arcTolerance : number) (fuel : nat) (points : list Point) :
  (Arcs.isCollinear points arcTolerance = true ->
   Older.isCollinear points arcTolerance = true) /\
  (forall c cw,
      Arcs.tryArc atan2_host arcTolerance fuel points = Some (Accepted c cw) ->
      Older.isCollinear points arcTolerance = false ->
      Older.tryArc atan2_host arcTolerance fuel points = Some (Accepted c cw)).
Proof.
  split.
  - unfold Arcs.isCollinear, Older.isCollinear.
    destruct points as [|start [|a [|b rest]]]; try reflexivity.
    cbv zeta. destruct (_ <? 0.1); [reflexivity|].
    destruct (existsb _ _); [discriminate | reflexivity].
  - intros c cw Hnew Hold. unfold Older.tryArc. rewrite Hold.
    unfold Arcs.tryArc in Hnew.
    destruct (Arcs.isCollinear points arcTolerance); [discriminate|].
    destruct (fitCircle points) as [circle|]; [|discriminate].
    destruct ((r circle <? 0.5) || (r circle >? 50)); [discriminate|].
    destruct (forallb _ points); [|discriminate].
    destruct (normalizeAngle _ _) as [arcAngle|]; [|discriminate].
    destruct (_ <? 20); [discriminate|].
    cbv zeta in Hnew.
    match type of Hnew with
    | (if ?b then _ else _) = _ => destruct b; [discriminate|]
    end.
    exact Hnew.
Qed.

End OlderFacts.

(* ================================================================== *)
(** ** Finishing a stroke *)

Module Drawing.
Import Stroke Text Font History Glyphs.

Section Controller.
Variable jsonCopy : list (list Point) -> list (list Point).

(** [stopDrawing()] while a stroke is being drawn ([isDrawing] is set,
    [currentStroke] is the array of the points so far and no guide line
    is dragged), for the [tolerance] read from the page; [None] when
    [simplifyPath] does not return. *)
Definition stopDrawing (tolerance : number) (currentStroke : list Point)
    (st : Controller) : option Controller :=
  if (1 <? length currentStroke)%nat then
    match simplifyPath currentStroke tolerance with
    | None => None
    | Some simplified =>
        let e := editor st in
        Some (updateCharacterInFont jsonCopy
                (mkController (currentChar st) (font st)
                   (saveToHistory jsonCopy
                      (mkEditor (strokes e ++ [simplified]) (history e)
                                (historyIndex e)))))
    end
  else Some st.

End Controller.

End Drawing.

Module DrawingFacts.
Import Stroke StrokeFacts Text Font History HistoryFacts Glyphs GlyphFacts Drawing.

(** [simplifyPath] returns for every tolerance that is not negative, NaN
    included. *)
Lemma simplifyPath_returns (points : list Point) (tolerance : number) :
  (tolerance <? 0) = false -> exists r, simplifyPath points tolerance = Some r.
Proof.
  intros Htol. unfold simplifyPath.
  destruct (Nat.ltb_spec (length points) 3); [now exists points|].
  apply douglasPeucker_terminates; [exact Htol | lia | lia].
Qed.

Lemma simplifyPath_length (points r : list Point) (tolerance : number) :
  simplifyPath points tolerance = Some r ->
  (2 <= length points)%nat -> (2 <= length r)%nat.
Proof.
  unfold simplifyPath. destruct (length points <? 3)%nat.
  - intros H; injection H as <-. auto.
  - apply douglasPeucker_length_ge2.
Qed.

Lemma simplifyPath_kept (points r : list Point) (tolerance : number) :
  simplifyPath points tolerance = Some r -> StrokeMore.keeps r points.
Proof.
  unfold simplifyPath, StrokeMore.keeps. intros H.
  destruct (length points <? 3)%nat.
  - injection H as <-. repeat split; auto using StrokeMore.Subseq_refl.
  - split; [|split; [|split]].
    + now destruct (StrokeMore.douglasPeucker_keeps tolerance (mkPoint 0 0) _ _ _ H).
    + apply StrokeMore.Subseq_length.
      now destruct (StrokeMore.douglasPeucker_keeps tolerance (mkPoint 0 0) _ _ _ H).
    + now destruct (StrokeMore.douglasPeucker_keeps tolerance (mkPoint 0 0) _ _ _ H)
        as (_ & Hh & _).
    + intros d.
      now destruct (StrokeMore.douglasPeucker_keeps tolerance d _ _ _ H) as (_ & _ & Hl).
Qed.

(** X24 ([stopDrawing], with [simplifyPath], [saveToHistory] and
    [updateCharacterInFont]).  For a tolerance that is not negative (NaN
    included) [stopDrawing] returns.  A stroke of one point is dropped.
    A longer one is simplified and appended to the strokes: what is
    appended has at least 2 points, all of them drawn points in their
    order, the first and the last among them (so the exporters, which
    skip strokes of fewer than 2 points, never skip it); the new strokes
    are saved as the current, last entry of the history, and to the font
    under the current character. *)
Theorem stopDrawing_appends (jsonCopy : list (list Point) -> list (list Point))
    (tolerance : number) (currentStroke : list Point) (st : Controller) :
  (tolerance <? 0) = false ->
  invariant (editor st) \/ cleared (editor st) ->
  exists st',
    stopDrawing jsonCopy tolerance currentStroke st = Some st' /\
    ((length currentStroke <= 1)%nat -> st' = st) /\
    ((1 < length currentStroke)%nat ->
     exists simplified,
       strokes (editor st') = strokes (editor st) ++ [simplified] /\
       (2 <= length simplified)%nat /\
       StrokeMore.keeps simplified currentStroke /\
       invariant (editor st') /\
       at_ (history (editor st')) (historyIndex (editor st'))
       = Some (jsonCopy (strokes (editor st'))) /\
       redo jsonCopy (editor st') = Some (editor st') /\
       forall c, currentChar st = Some c -> c <> [] ->
         exists charData,
           font st' c = Some charData /\
           Font.strokes charData = jsonCopy (strokes (editor st')) /\
           bounds charData = calculateBounds (strokes (editor st'))).
Proof.
  intros Htol Hinv. unfold stopDrawing.
  destruct (Nat.ltb_spec 1 (length currentStroke)) as [Hlong|Hshort].
  2:{ exists st. split; [reflexivity|]. split; [reflexivity | lia]. }
  destruct (simplifyPath_returns currentStroke tolerance Htol) as [simplified Hs].
  rewrite Hs. eexists. split; [reflexivity|]. split; [lia|].
  intros _. exists simplified.
  set (e0 := mkEditor (strokes (editor st) ++ [simplified]) (history (editor st))
                      (historyIndex (editor st))).
  set (st1 := mkController (currentChar st) (font st) (saveToHistory jsonCopy e0)).
  assert (invariant e0 \/ cleared e0) as Hinv0 by exact Hinv.
  assert (editor (updateCharacterInFont jsonCopy st1) = saveToHistory jsonCopy e0) as He.
  { unfold updateCharacterInFont. now destruct (currentChar st1) as [[|? ?]|]. }
  assert (strokes (saveToHistory jsonCopy e0) = strokes e0) as Hstrokes.
  { unfold saveToHistory. now destruct (_ <? _)%nat. }
  rewrite He, Hstrokes.
  split; [reflexivity|].
  split; [eapply simplifyPath_length; eauto; lia|].
  split; [now apply (simplifyPath_kept currentStroke simplified tolerance)|].
  split; [now apply saveToHistory_invariant|].
  destruct (HistoryMore.saveToHistory_last _ jsonCopy e0 Hinv0) as [Hat Hredo].
  split; [exact Hat|]. split; [exact Hredo|].
  intros c Hc Hne.
  rewrite (updateCharacterInFont_entry jsonCopy st1 c Hc Hne). cbn [font].
  eexists. rewrite setEntry_same. split; [reflexivity|].
  cbn [Font.strokes bounds editor st1]. now rewrite Hstrokes.
Qed.

Lemma stopDrawing_appends_witness :
  exists st',
    stopDrawing (fun s => s) 0.75 zigzag drawing = Some st' /\
    strokes (editor st')
    = [[mkPoint 1 1; mkPoint 2 3]; [mkPoint 0 0; mkPoint 1 1; mkPoint 4 0]] /\
    history (editor st')
    = [[]; [[mkPoint 1 1; mkPoint 2 3]];
       [[mkPoint 1 1; mkPoint 2 3]; [mkPoint 0 0; mkPoint 1 1; mkPoint 4 0]]].
Proof.
  destruct (stopDrawing_appends (fun s => s) 0.75 zigzag drawing eq_refl)
    as (st' & Hst' & _).
  { left. split; cbn; lia. }
  exists st'. split; [exact Hst'|].
  vm_compute in Hst'. injection Hst' as <-. split; reflexivity.
Defined.

End DrawingFacts.

(* ================================================================== *)
(** ** The error of a simplified stroke *)

Module StrokeBound.
Import Stroke StrokeFacts StrokeMore.

(** [result] covers [points] within [tolerance]: it starts and ends with
    them, and between two of its points that follow each other lie only
    points of [points] whose distance to the chord between the two is not
    above the tolerance. *)
Inductive Covered (tolerance : number) : list Point -> list Point -> Prop :=
| Covered_nil : Covered tolerance [] []
| Covered_one (p : Point) : Covered tolerance [p] [p]
| Covered_chord (a b : Point) (between rest result : list Point) :
    (forall p, In p between ->
       (calculateDistanceToLine p a b >? tolerance) = false) ->
    Covered tolerance (b :: rest) (b :: result) ->
    Covered tolerance (a :: between ++ b :: rest) (a :: b :: result).

Lemma SFltb_leb_trans (a b c : spec_float) :
  SFltb a b = true -> SFleb b c = true -> SFltb a c = true.
Proof.
  unfold SFleb, SFltb.
  destruct a as [sa| sa | |sa ma ea], b as [sb| sb | |sb mb eb],
           c as [sc| sc | |sc mc ec]; NumFacts.by_sign;
    NumFacts.three_way ea eb ec ma mb mc.
Qed.

Lemma ltb_leb_trans (a b c : float) :
  (a <? b) = true -> (b <=? c) = true -> (a <? c) = true.
Proof. rewrite leb_spec, !ltb_spec. apply SFltb_leb_trans. Qed.

(** When the scan ends at a distance that is not above the tolerance, no
    point that it visited is farther than the tolerance. *)
Lemma farthest_bound (s e : Point) (pts : list Point) (tolerance d : number)
    (m : nat) :
  farthest s e pts 1 0 0%nat = (d, m) ->
  (d >? tolerance) = false ->
  forall p, In p pts -> (calculateDistanceToLine p s e >? tolerance) = false.
Proof.
  intros Hf Hd p Hp. unfold gtb in *.
  destruct (tolerance <? calculateDistanceToLine p s e) eqn:Htp; [|reflexivity].
  exfalso. destruct (ltb_not_nan _ _ Htp) as [_ Hnp].
  destruct (farthest_selected s e pts 1%nat 0 0%nat d m eq_refl Hf)
    as [(-> & _ & Hall) | (pre & q & post & -> & _ & -> & Hq & Hpre & Hpost)].
  - specialize (Hall p Hp).
    pose proof (NumFacts.not_ltb_leb 0 _ eq_refl Hnp Hall) as Hle.
    pose proof (ltb_leb_trans _ _ _ Htp Hle). congruence.
  - destruct (ltb_not_nan _ _ Hq) as [_ Hnq].
    apply in_app_or in Hp. destruct Hp as [Hp|[<-|Hp]].
    + destruct (Hpre p Hp) as [Hlt|Hnan]; [|congruence].
      pose proof (NumFacts.ltb_trans _ _ _ Htp Hlt). congruence.
    + congruence.
    + pose proof (NumFacts.not_ltb_leb _ _ Hnq Hnp (Hpost p Hp)) as Hle.
      pose proof (ltb_leb_trans _ _ _ Htp Hle). congruence.
Qed.

Lemma Covered_refl (tolerance : number) (points : list Point) :
  Covered tolerance points points.
Proof.
  induction points as [|a [|b rest] IH]; try constructor.
  apply (Covered_chord tolerance a b [] rest rest); [intros p [] | exact IH].
Qed.

Lemma Covered_head (tolerance : number) (a : Point) (points result : list Point) :
  Covered tolerance (a :: points) result -> exists result', result = a :: result'.
Proof. intros H. inversion H; subst; eauto. Qed.

Lemma Covered_single (tolerance : number) (b : Point) (result : list Point) :
  Covered tolerance [b] result -> result = [b].
Proof.
  intros H. inversion H as [|p|a' b' between rest result' Hin H' E1 E2];
    [reflexivity|].
  destruct between; discriminate.
Qed.

Lemma Covered_longer (tolerance : number) (b c : Point) (rest result : list Point) :
  Covered tolerance (b :: c :: rest) result ->
  exists r0 result', result = b :: r0 :: result'.
Proof. intros H. inversion H; subst; eauto. Qed.

(** Two covers that meet in a point [q] make one. *)
Lemma Covered_join (tolerance : number) (q : Point) (l2 r2 : list Point) :
  Covered tolerance (q :: l2) r2 ->
  forall l1q r1, Covered tolerance l1q r1 ->
    forall l1, l1q = l1 ++ [q] ->
      Covered tolerance (l1 ++ q :: l2) (removelast r1 ++ r2).
Proof.
  intros H2. induction 1 as [|p|a b between rest result Hin H1 IH]; intros l1 E.
  - now destruct l1.
  - destruct l1 as [|x [|y l1]]; try discriminate.
    injection E as ->. exact H2.
  - destruct (Covered_head _ _ _ _ H2) as [r2' ->].
    destruct rest as [|c rest].
    + apply Covered_single in H1. injection H1 as ->.
      assert (l1 = a :: between /\ b = q) as [-> ->].
      { change (a :: between ++ [b]) with ((a :: between) ++ [b]) in E.
        apply app_inj_tail in E. now destruct E. }
      cbn [removelast app].
      apply (Covered_chord tolerance a q between l2 r2'); assumption.
    + destruct (exists_last (l := c :: rest) ltac:(discriminate)) as (rest' & z & Ez).
      rewrite Ez in E.
      assert (l1 = a :: between ++ b :: rest' /\ z = q) as [-> ->].
      { change (a :: between ++ b :: rest' ++ [z])
          with (a :: between ++ (b :: rest') ++ [z]) in E.
        rewrite app_assoc in E.
        change (a :: (between ++ b :: rest') ++ [z])
          with ((a :: between ++ b :: rest') ++ [z]) in E.
        apply app_inj_tail in E. now destruct E. }
      specialize (IH (b :: rest')). rewrite Ez in IH. specialize (IH eq_refl).
      destruct (Covered_longer _ _ _ _ _ H1) as (r0 & result' & Er).
      injection Er as ->.
      change (removelast (a :: b :: r0 :: result'))
        with (a :: b :: removelast (r0 :: result')).
      change (removelast (b :: r0 :: result'))
        with (b :: removelast (r0 :: result')) in IH.
      cbn [app] in *. rewrite <- app_assoc. cbn [app].
      apply Covered_chord; assumption.
Qed.

Lemma firstn_snoc_nth {A} (l : list A) (d : A) :
  forall m, (m < length l)%nat -> firstn (S m) l = firstn m l ++ [nth m l d].
Proof.
  induction l as [|a l IH]; intros m Hm; [cbn in Hm; lia|].
  destruct m as [|m]; [reflexivity|].
  cbn [length] in Hm. cbn [firstn nth app]. f_equal. apply IH. lia.
Qed.

Lemma douglasPeucker_covered (tolerance : number) :
  forall fuel points r,
    douglasPeucker fuel points tolerance = Some r ->
    Covered tolerance points r.
Proof.
  induction fuel as [|fuel IH]; intros points r H; [discriminate|].
  destruct points as [|start rest]; [injection H as <-; constructor|].
  destruct (Nat.lt_ge_cases (length rest) 2) as [Hshort|Hlong].
  { destruct rest as [|a [|b tl]]; cbn [length] in Hshort; try lia;
      injection H as <-; apply Covered_refl. }
  rewrite (douglasPeucker_step _ _ _ _ Hlong) in H. cbv zeta in H.
  destruct (farthest start _ _ 1 0 0%nat) as [d m] eqn:Ef.
  pose proof (farthest_index_le _ _ _ _ _ Ef) as Hm.
  assert (rest <> []) as Hne by (intros ->; cbn in Hlong; lia).
  assert (length (removelast rest) = (length rest - 1)%nat) as Hlen.
  { rewrite (app_removelast_last start Hne) at 2.
    rewrite length_app. cbn [length]. lia. }
  destruct (d >? tolerance) eqn:Hd.
  - destruct (douglasPeucker fuel (firstn _ _) tolerance) as [l|] eqn:El; [|discriminate].
    destruct (douglasPeucker fuel (skipn _ _) tolerance) as [q|] eqn:Er; [|discriminate].
    injection H as <-.
    apply IH in El. apply IH in Er.
    set (points := start :: rest) in *.
    assert (m < length points)%nat as Hmp by (cbn [length points]; lia).
    rewrite Nat.add_1_r, (firstn_snoc_nth points start m Hmp) in El.
    rewrite (ArcMore.skipn_nth points start m Hmp) in Er.
    rewrite <- (firstn_skipn m points) at 1.
    rewrite (ArcMore.skipn_nth points start m Hmp).
    eapply Covered_join; [exact Er | exact El | reflexivity].
  - injection H as <-.
    rewrite (app_removelast_last start Hne) at 1.
    apply (Covered_chord tolerance start (last rest start) (removelast rest) [] []).
    + now apply (farthest_bound _ _ _ _ _ _ Ef).
    + constructor.
Qed.

(** X25 ([simplifyPath], [douglasPeucker]).  The error of the
    simplification is bounded by the tolerance: between two points of
    the result that follow each other, every point that was left out has
    a distance to the chord between the two (as
    [calculateDistanceToLine] computes it) that is not above the
    tolerance. *)
Theorem simplifyPath_within_tolerance (S r : list Point) (tolerance : number) :
  simplifyPath S tolerance = Some r -> Covered tolerance S r.
Proof.
  unfold simplifyPath. destruct (length S <? 3)%nat.
  - intros H. injection H as <-. apply Covered_refl.
  - apply douglasPeucker_covered.
Qed.

Lemma simplifyPath_within_tolerance_witness :
  Covered 0.75 zigzag [mkPoint 0 0; mkPoint 1 1; mkPoint 4 0].
Proof.
  apply (simplifyPath_within_tolerance zigzag _ 0.75). reflexivity.
Defined.

End StrokeBound.

(* ================================================================== *)
(** ** The simplifier at tolerance 0 *)

Module StrokeZero.
Import Stroke StrokeFacts StrokeMore.

(** The pair [(maxDist, maxIndex)] that the scan of [douglasPeucker]
    leaves for a chain. *)
Definition scan (points : list Point) : number * nat :=
  match points with
  | start :: rest => farthest start (last rest start) (removelast rest) 1 0 0%nat
  | [] => (0, 0%nat)
  end.

(** A chain is flat when none of its interior points is at a computed
    distance above 0 from the chord between its end points. *)
Definition flatb (points : list Point) : bool :=
  match points with
  | start :: rest =>
      forallb (fun p => negb (calculateDistanceToLine p start (last rest start) >? 0))
              (removelast rest)
  | [] => true
  end.

(** The chain [S[i..k]], both ends included. *)
Definition chain (S : list Point) (i k : nat) : list Point :=
  firstn (k - i + 1) (skipn i S).

(** No chain [S[i..k]] of three or more points of the stroke is flat. *)
Definition curvedb (S : list Point) : bool :=
  forallb (fun i =>
    forallb (fun k => negb (flatb (chain S i k)))
            (seq (i + 2) (length S - i - 2)))
    (seq 0 (length S)).

(** The chains that the recursion reaches at tolerance 0: the stroke, and
    the two parts of a reached chain of three or more points that is split
    at the point the scan selects, [points.slice(0, maxIndex + 1)] and
    [points.slice(maxIndex)]. *)
Inductive Reached : list Point -> list Point -> Prop :=
| Reached_whole (points : list Point) : Reached points points
| Reached_left (points c : list Point) (d : number) (m : nat) :
    (3 <= length points)%nat -> scan points = (d, m) -> (d >? 0) = true ->
    Reached (firstn (m + 1) points) c -> Reached points c
| Reached_right (points c : list Point) (d : number) (m : nat) :
    (3 <= length points)%nat -> scan points = (d, m) -> (d >? 0) = true ->
    Reached (skipn m points) c -> Reached points c.

(** A flat chain has nothing for the scan to select; a chain that is not
    flat has a point at a distance above 0. *)
Lemma scan_flat (points : list Point) :
  flatb points = true -> scan points = (0, 0%nat).
Proof.
  destruct points as [|start rest]; [reflexivity|]. cbn [flatb scan].
  intros H. apply farthest_no_record. intros p Hp.
  rewrite forallb_forall in H. apply H in Hp.
  now apply negb_true_iff in Hp.
Qed.

Lemma scan_not_flat (points : list Point) (d : number) (m : nat) :
  scan points = (d, m) -> flatb points = false -> (d >? 0) = true.
Proof.
  destruct points as [|start rest]; [discriminate|]. cbn [flatb scan].
  intros Hs Hf.
  destruct (farthest_selected _ _ _ _ 0 _ _ _ eq_refl Hs)
    as [(_ & _ & Hall) | (pre & q & post & _ & _ & -> & Hq & _)].
  - exfalso. apply not_true_iff_false in Hf. apply Hf.
    apply forallb_forall. intros p Hp.
    apply negb_true_iff. exact (Hall p Hp).
  - exact Hq.
Qed.

Lemma scan_positive_not_flat (points : list Point) (d : number) (m : nat) :
  scan points = (d, m) -> (d >? 0) = true -> flatb points = false.
Proof.
  intros Hs Hd. destruct (flatb points) eqn:Hf; [|reflexivity].
  rewrite (scan_flat _ Hf) in Hs. inversion Hs; subst. discriminate Hd.
Qed.

(** The index that the scan selects is that of an interior point. *)
Lemma scan_index (points : list Point) (d : number) (m : nat) :
  scan points = (d, m) -> (d >? 0) = true -> (1 <= m /\ m + 2 <= length points)%nat.
Proof.
  destruct points as [|start rest]; [intros H; inversion H; subst; discriminate|].
  cbn [scan]. intros Hs Hd.
  pose proof (farthest_index _ _ _ 0 _ _ eq_refl Hs Hd) as Hm.
  destruct rest as [|a rest]; [cbn in Hm; lia|].
  rewrite length_removelast_cons in Hm. cbn [length]. lia.
Qed.

(** One step of [douglasPeucker] at tolerance 0 on three points or more,
    by the scan. *)
Lemma douglasPeucker_zero_step (fuel : nat) (start : Point) (rest : list Point) :
  (2 <= length rest)%nat ->
  douglasPeucker (S fuel) (start :: rest) 0 =
  let '(d, m) := scan (start :: rest) in
  if d >? 0 then
    match douglasPeucker fuel (firstn (m + 1) (start :: rest)) 0 with
    | None => None
    | Some left_ =>
        match douglasPeucker fuel (skipn m (start :: rest)) 0 with
        | None => None
        | Some right_ => Some (removelast left_ ++ right_)
        end
    end
  else Some [start; last rest start].
Proof. intros H. now rewrite douglasPeucker_step. Qed.

(** A flat chain of three points or more collapses to its end points. *)
Lemma simplifyPath_flat (start : Point) (rest : list Point) :
  (2 <= length rest)%nat -> flatb (start :: rest) = true ->
  simplifyPath (start :: rest) 0 = Some [start; last rest start].
Proof.
  intros Hlen Hf. unfold simplifyPath.
  destruct (Nat.ltb_spec (length (start :: rest)) 3) as [H|_];
    [cbn [length] in H; lia|].
  cbn [length]. rewrite douglasPeucker_zero_step by exact Hlen.
  now rewrite (scan_flat _ Hf).
Qed.

Lemma Subseq_length_eq {A} (l l' : list A) :
  Subseq l l' -> length l = length l' -> l = l'.
Proof.
  induction 1 as [|a l l' H IH|a l l' H IH]; cbn [length]; intros Hlen.
  - reflexivity.
  - apply Subseq_length in H. lia.
  - f_equal. apply IH. lia.
Qed.

(** A chain of which no reached chain is flat is returned as it is. *)
Lemma douglasPeucker_whole :
  forall fuel points,
    (forall c, Reached points c -> (3 <= length c)%nat -> flatb c = false) ->
    (1 <= fuel)%nat -> (length points <= fuel + 1)%nat ->
    douglasPeucker fuel points 0 = Some points.
Proof.
  induction fuel as [|fuel IH]; intros points Hall H1 Hlen; [lia|].
  destruct (Nat.ltb_spec (length points) 3) as [Hshort|Hlong].
  { destruct points as [|a [|b [|c tl]]]; try reflexivity.
    cbn [length] in Hshort. lia. }
  destruct points as [|start rest]; [cbn [length] in Hlong; lia|].
  assert (2 <= length rest)%nat as Hrest by (cbn [length] in Hlong; lia).
  rewrite douglasPeucker_zero_step by exact Hrest.
  destruct (scan (start :: rest)) as [d m] eqn:Hs.
  pose proof (scan_not_flat _ _ _ Hs (Hall _ (Reached_whole _) Hlong)) as Hd.
  rewrite Hd.
  destruct (scan_index _ _ _ Hs Hd) as [Hm1 Hm2].
  rewrite (IH (firstn (m + 1) (start :: rest))).
  - rewrite (IH (skipn m (start :: rest))).
    + rewrite Nat.add_1_r, removelast_firstn by lia.
      now rewrite firstn_skipn.
    + intros c Hc. apply Hall. eapply Reached_right; eassumption.
    + lia.
    + rewrite length_skipn. lia.
  - intros c Hc. apply Hall. eapply Reached_left; eassumption.
  - lia.
  - rewrite length_firstn. lia.
Qed.

(** Conversely, when a chain is returned as it is, so are the two parts
    it was split in. *)
Lemma douglasPeucker_whole_parts (fuel : nat) (points : list Point) (d : number)
    (m : nat) :
  (3 <= length points)%nat -> scan points = (d, m) ->
  douglasPeucker (S fuel) points 0 = Some points ->
  (d >? 0) = true /\
  douglasPeucker fuel (firstn (m + 1) points) 0 = Some (firstn (m + 1) points) /\
  douglasPeucker fuel (skipn m points) 0 = Some (skipn m points).
Proof.
  intros Hlong Hs Hrun.
  destruct points as [|start rest]; [cbn [length] in Hlong; lia|].
  assert (2 <= length rest)%nat as Hrest by (cbn [length] in Hlong; lia).
  rewrite douglasPeucker_zero_step in Hrun by exact Hrest.
  rewrite Hs in Hrun.
  destruct (d >? 0) eqn:Hd.
  2:{ injection Hrun as E. apply (f_equal (@length Point)) in E.
      cbn [length] in E. lia. }
  split; [reflexivity|].
  destruct (scan_index _ _ _ Hs Hd) as [Hm1 Hm2].
  set (points := start :: rest) in *.
  destruct (douglasPeucker fuel (firstn (m + 1) points) 0) as [l|] eqn:El;
    [|discriminate].
  destruct (douglasPeucker fuel (skipn m points) 0) as [q|] eqn:Er;
    [|discriminate].
  injection Hrun as E.
  pose proof (douglasPeucker_length_ge2 _ _ _ _ El) as Hl2.
  rewrite length_firstn in Hl2. specialize (Hl2 ltac:(lia)).
  destruct (douglasPeucker_keeps 0 start _ _ _ El) as (Sl & _ & _).
  destruct (douglasPeucker_keeps 0 start _ _ _ Er) as (Sq & _ & _).
  pose proof (Subseq_length _ _ Sl) as Ll. rewrite length_firstn in Ll.
  pose proof (Subseq_length _ _ Sq) as Lq. rewrite length_skipn in Lq.
  pose proof (f_equal (@length Point) E) as Hlen.
  rewrite length_app, removelast_firstn_len, length_firstn in Hlen.
  split; f_equal; apply Subseq_length_eq; try assumption.
  - rewrite length_firstn. lia.
  - rewrite length_skipn. lia.
Qed.

Lemma douglasPeucker_whole_reached (points c : list Point) :
  Reached points c ->
  forall fuel,
    douglasPeucker fuel points 0 = Some points ->
    (3 <= length c)%nat -> flatb c = false.
Proof.
  induction 1 as [points|points c d m Hlong Hs Hd Hr IH|points c d m Hlong Hs Hd Hr IH];
    intros fuel Hrun Hc; (destruct fuel as [|fuel]; [discriminate|]).
  - destruct (scan points) as [d m] eqn:Hs.
    destruct (douglasPeucker_whole_parts fuel points d m Hc Hs Hrun) as (Hd & _).
    eapply scan_positive_not_flat; eassumption.
  - destruct (douglasPeucker_whole_parts fuel points d m Hlong Hs Hrun)
      as (_ & Hl & _).
    exact (IH fuel Hl Hc).
  - destruct (douglasPeucker_whole_parts fuel points d m Hlong Hs Hrun)
      as (_ & _ & Hq).
    exact (IH fuel Hq Hc).
Qed.

(** *** Strokes without a flat chain *)

Definition curved (S : list Point) : Prop :=
  forall i k, (i + 2 <= k < length S)%nat -> flatb (chain S i k) = false.

Lemma curvedb_curved (S : list Point) : curvedb S = true -> curved S.
Proof.
  unfold curvedb, curved. intros H i k Hik.
  rewrite forallb_forall in H.
  assert (In i (seq 0 (length S))) as Ii by (apply in_seq; lia).
  specialize (H i Ii). rewrite forallb_forall in H.
  assert (In k (seq (i + 2) (length S - i - 2))) as Ik by (apply in_seq; lia).
  specialize (H k Ik). now apply negb_true_iff in H.
Qed.

Lemma chain_firstn (S : list Point) (n i k : nat) :
  (i <= k < n)%nat -> chain (firstn n S) i k = chain S i k.
Proof.
  intros H. unfold chain. rewrite skipn_firstn_comm, firstn_firstn.
  f_equal. lia.
Qed.

Lemma chain_skipn (S : list Point) (n i k : nat) :
  (i <= k)%nat -> chain (skipn n S) i k = chain S (n + i) (n + k).
Proof.
  intros H. unfold chain. rewrite skipn_skipn. f_equal; [lia | f_equal; lia].
Qed.

Lemma chain_whole (S : list Point) : chain S 0 (length S - 1) = S.
Proof.
  unfold chain. cbn [skipn]. destruct S as [|a S]; [reflexivity|].
  replace (length (a :: S) - 1 - 0 + 1)%nat with (length (a :: S))
    by (cbn [length]; lia).
  apply firstn_all.
Qed.

Lemma curved_firstn (S : list Point) (n : nat) : curved S -> curved (firstn n S).
Proof.
  intros H i k Hik. rewrite length_firstn in Hik.
  rewrite chain_firstn by lia. apply H. lia.
Qed.

Lemma curved_skipn (S : list Point) (n : nat) : curved S -> curved (skipn n S).
Proof.
  intros H i k Hik. rewrite length_skipn in Hik.
  rewrite chain_skipn by lia. apply H. lia.
Qed.

Lemma curved_reached (S c : list Point) :
  Reached S c -> curved S -> (3 <= length c)%nat -> flatb c = false.
Proof.
  induction 1 as [points|points c d m _ _ _ _ IH|points c d m _ _ _ _ IH];
    intros Hcurved Hc.
  - rewrite <- (chain_whole points). apply Hcurved. lia.
  - apply IH; [now apply curved_firstn | exact Hc].
  - apply IH; [now apply curved_skipn | exact Hc].
Qed.

(** C5, amended: at tolerance 0 the simplifier returns for every stroke,
    and it returns the stroke itself exactly when no chain that the
    recursion reaches (the stroke, then the two parts of a reached chain
    at the interior point farthest from its chord) is flat, that is, has
    all its interior points at a computed distance not above 0 from its
    chord.  So a stroke of fewer than three points is returned as it is,
    and so is a stroke none of whose chains [S[i..k]] of three points or
    more is flat; a flat chain of three points or more, such as collinear
    points, is returned as its two end points. *)
Theorem simplifyPath_zero :
  (forall S, exists r, simplifyPath S 0 = Some r) /\
  (forall S,
      simplifyPath S 0 = Some S <->
      (forall c, Reached S c -> (3 <= length c)%nat -> flatb c = false)) /\
  (forall S, (length S < 3)%nat -> simplifyPath S 0 = Some S) /\
  (forall S, curvedb S = true -> simplifyPath S 0 = Some S) /\
  (forall start rest,
      (2 <= length rest)%nat -> flatb (start :: rest) = true ->
      simplifyPath (start :: rest) 0 = Some [start; last rest start]).
Proof.
  assert (forall S,
             (forall c, Reached S c -> (3 <= length c)%nat -> flatb c = false) ->
             simplifyPath S 0 = Some S) as Hwhole.
  { intros S H. unfold simplifyPath.
    destruct (Nat.ltb_spec (length S) 3) as [Hs|Hs]; [reflexivity|].
    apply douglasPeucker_whole; [exact H | lia | lia]. }
  split; [|split; [|split; [|split]]].
  - intros S. unfold simplifyPath.
    destruct (Nat.ltb_spec (length S) 3) as [Hs|Hs]; [now exists S|].
    apply douglasPeucker_terminates; [reflexivity | lia | lia].
  - intros S. split; [|apply Hwhole].
    unfold simplifyPath.
    destruct (Nat.ltb_spec (length S) 3) as [Hs|Hs].
    + intros _ c Hc. inversion Hc; subst; lia.
    + intros Hrun c Hc. eapply douglasPeucker_whole_reached; eassumption.
  - intros S Hs. unfold simplifyPath.
    destruct (Nat.ltb_spec (length S) 3); [reflexivity | lia].
  - intros S Hc. apply Hwhole. intros c Hr.
    apply (curved_reached S c Hr). now apply curvedb_curved.
  - exact simplifyPath_flat.
Qed.

(** The zigzag has the point (2, 0) on the chord of the whole stroke, but
    no flat chain: it is returned as it is. *)
Example simplifyPath_zero_zigzag :
  curvedb zigzag = true /\ simplifyPath zigzag 0 = Some zigzag /\
  calculateDistanceToLine (mkPoint 2 0) (mkPoint 0 0) (mkPoint 4 0) = 0.
Proof. vm_compute. repeat split. Qed.

(** A stroke that turns back on itself: the chain of its last three
    points is flat, but the recursion splits the stroke at the third point
    (index 2) and does not reach that chain; the stroke is returned as it
    is. *)
Definition hook : list Point :=
  [mkPoint 0 1; mkPoint 1 0; mkPoint 4 0; mkPoint 2 0].

Example simplifyPath_zero_hook :
  flatb (chain hook 1 3) = true /\ curvedb hook = false /\
  snd (scan hook) = 2%nat /\
  simplifyPath hook 0 = Some hook.
Proof. vm_compute. repeat split. Qed.

(** Five points of which the middle three are on a line: the chain of
    these three is reached and collapses, and the stroke loses a point. *)
Example simplifyPath_zero_plateau :
  simplifyPath [mkPoint 0 0; mkPoint 1 1; mkPoint 2 1; mkPoint 3 1; mkPoint 4 0] 0
  = Some [mkPoint 0 0; mkPoint 1 1; mkPoint 3 1; mkPoint 4 0].
Proof. vm_compute. reflexivity. Qed.

End StrokeZero.

(* ================================================================== *)
(** ** Undo and redo save to the font *)

Module Undoing.
Import Stroke Text Font History Glyphs.

Section Controller.
Variable jsonCopy : list (list Point) -> list (list Point).

(** [undo()] with its call of [updateCharacterInFont()]; [None] when
    [JSON.parse] throws. *)
Definition undo (st : Controller) : option Controller :=
  if (0 <? historyIndex (editor st))%Z then
    match History.undo jsonCopy (editor st) with
    | Some e => Some (updateCharacterInFont jsonCopy
                        (mkController (currentChar st) (font st) e))
    | None => None
    end
  else Some st.

(** [redo()] with its call of [updateCharacterInFont()]. *)
Definition redo (st : Controller) : option Controller :=
  if (historyIndex (editor st) <? Z.of_nat (length (history (editor st))) - 1)%Z then
    match History.redo jsonCopy (editor st) with
    | Some e => Some (updateCharacterInFont jsonCopy
                        (mkController (currentChar st) (font st) e))
    | None => None
    end
  else Some st.

End Controller.

End Undoing.

Module UndoingFacts.
Import Stroke Text Font History HistoryFacts Glyphs GlyphFacts.

(** The strokes on the canvas are those that the font holds for the
    character [c], copied. *)
Definition inFont (st : Controller) (c : jsstring)
    (jsonCopy : list (list Point) -> list (list Point)) : Prop :=
  exists charData,
    font st c = Some charData /\
    Font.strokes charData = jsonCopy (strokes (editor st)) /\
    bounds charData = calculateBounds (strokes (editor st)).

Lemma update_inFont (jsonCopy : list (list Point) -> list (list Point))
    (st : Controller) (c : jsstring) :
  currentChar st = Some c -> c <> [] ->
  inFont (updateCharacterInFont jsonCopy st) c jsonCopy /\
  editor (updateCharacterInFont jsonCopy st) = editor st.
Proof.
  intros Hc Hne. rewrite (updateCharacterInFont_entry jsonCopy st c Hc Hne).
  split; [|reflexivity].
  eexists. cbn [font]. rewrite setEntry_same. repeat split.
Qed.

(** X26 ([undo], [redo], [clearCanvas], with [updateCharacterInFont]).
    An undo or a redo that moves the index also saves the strokes that
    it restores to the font, under the current character, an empty
    canvas included; [clearCanvas] empties the canvas and saves to the
    history, but leaves the font as it is.  So after [clearCanvas] the
    font still holds the strokes, and after [clearCanvas], [undo],
    [redo] it does not. *)
Theorem undo_saves_to_font (jsonCopy : list (list Point) -> list (list Point))
    (st : Controller) (c : jsstring) :
  invariant (editor st) -> currentChar st = Some c -> c <> [] ->
  (exists st',
      Undoing.undo jsonCopy st = Some st' /\
      History.undo jsonCopy (editor st) = Some (editor st') /\
      (historyIndex (editor st) = 0%Z -> st' = st) /\
      ((0 < historyIndex (editor st))%Z -> inFont st' c jsonCopy)) /\
  (exists st',
      Undoing.redo jsonCopy st = Some st' /\
      History.redo jsonCopy (editor st) = Some (editor st') /\
      (historyIndex (editor st) = (Z.of_nat (length (history (editor st))) - 1)%Z ->
       st' = st) /\
      ((historyIndex (editor st) < Z.of_nat (length (history (editor st))) - 1)%Z ->
       inFont st' c jsonCopy)) /\
  (font (clearCanvas jsonCopy st) = font st /\
   strokes (editor (clearCanvas jsonCopy st)) = []).
Proof.
  intros Hinv Hc Hne. split; [|split].
  - destruct (undo_invariant _ jsonCopy (editor st) Hinv) as (e & He & _).
    unfold Undoing.undo.
    destruct (Z.ltb_spec 0 (historyIndex (editor st))) as [Hpos|Hzero].
    + rewrite He.
      destruct (update_inFont jsonCopy
                  (mkController (currentChar st) (font st) e) c Hc Hne)
        as [Hin Hed].
      eexists. split; [reflexivity|]. rewrite Hed. cbn [editor].
      split; [reflexivity|]. split; [intros; exfalso; lia | intros _; exact Hin].
    + exists st. split; [reflexivity|]. split.
      * unfold History.undo.
        destruct (Z.ltb_spec 0 (historyIndex (editor st))); [lia | reflexivity].
      * split; [reflexivity | intros; exfalso; lia].
  - destruct (redo_invariant _ jsonCopy (editor st) Hinv) as (e & He & _).
    unfold Undoing.redo.
    destruct (Z.ltb_spec (historyIndex (editor st))
                (Z.of_nat (length (history (editor st))) - 1)) as [Hlt|Hge].
    + rewrite He.
      destruct (update_inFont jsonCopy
                  (mkController (currentChar st) (font st) e) c Hc Hne)
        as [Hin Hed].
      eexists. split; [reflexivity|]. rewrite Hed. cbn [editor].
      split; [reflexivity|]. split; [intros; exfalso; lia | intros _; exact Hin].
    + exists st. split; [reflexivity|]. split.
      * unfold History.redo.
        destruct (Z.ltb_spec (historyIndex (editor st))
                    (Z.of_nat (length (history (editor st))) - 1));
          [lia | reflexivity].
      * destruct Hinv as [Hi _]. split; [reflexivity | intros; exfalso; lia].
  - split; [reflexivity|].
    unfold clearCanvas, saveToHistory. cbn [editor]. now destruct (_ <? _)%nat.
Qed.

Lemma undo_saves_to_font_witness :
  font (clearCanvas (fun s => s) drawing) (js "A") = Some stored /\
  exists st1 st2,
    Undoing.undo (fun s => s) (clearCanvas (fun s => s) drawing) = Some st1 /\
    Undoing.redo (fun s => s) st1 = Some st2 /\
    strokes (editor st2) = [] /\
    inFont st2 (js "A") (fun s => s).
Proof.
  split; [reflexivity|].
  assert (editor (clearCanvas (fun s => s) drawing)
          = mkEditor [] [[]; [[mkPoint 1 1; mkPoint 2 3]]; []] 2) as He0
    by reflexivity.
  destruct (undo_saves_to_font (fun s => s) (clearCanvas (fun s => s) drawing)
              (js "A")) as [(st1 & Hu & _ & _ & _) _];
    [rewrite He0; split; cbn; lia | reflexivity | discriminate |].
  exists st1.
  assert (editor st1
          = mkEditor [[mkPoint 1 1; mkPoint 2 3]]
              [[]; [[mkPoint 1 1; mkPoint 2 3]]; []] 1) as He1
    by (vm_compute in Hu; injection Hu as <-; reflexivity).
  assert (currentChar st1 = Some (js "A")) as Hc1
    by (vm_compute in Hu; injection Hu as <-; reflexivity).
  destruct (undo_saves_to_font (fun s => s) st1 (js "A")) as (_ & (st2 & Hr & He & _ & Hin) & _);
    [rewrite He1; split; cbn; lia | exact Hc1 | discriminate |].
  exists st2. split; [exact Hu|]. split; [exact Hr|].
  rewrite He1 in He, Hin.
  assert (History.redo (fun s => s)
            (mkEditor [[mkPoint 1 1; mkPoint 2 3]]
               [[]; [[mkPoint 1 1; mkPoint 2 3]]; []] 1)
          = Some (mkEditor [] [[]; [[mkPoint 1 1; mkPoint 2 3]]; []] 2)) as Hredo
    by reflexivity.
  rewrite Hredo in He. injection He as He.
  split; [now rewrite <- He|]. apply Hin. cbn. lia.
Defined.

End UndoingFacts.

(* ================================================================== *)
(** ** Rounding in binary64: sums and differences

    The sum and the difference of two numbers are the exact sum and
    difference, rounded.  Rounding does not cross a number of the format:
    the rounded result is on the same side as the exact value of every
    binary64 number.  This is what the angle loops of [fitArc] need to
    end. *)

Module Rounding.
#[local] Open Scope Z_scope.

(** The number of binary digits of a mantissa. *)
Lemma digits2_bounds (m : positive) :
  2 ^ (Zpos (digits2_pos m) - 1) <= Zpos m < 2 ^ Zpos (digits2_pos m).
Proof.
  induction m as [m IH|m IH|]; cbn [digits2_pos].
  - rewrite Pos2Z.inj_succ, Z.pow_succ_r by lia.
    replace (Z.succ (Zpos (digits2_pos m)) - 1) with (Z.succ (Zpos (digits2_pos m) - 1)) by lia.
    rewrite Z.pow_succ_r by lia. lia.
  - rewrite Pos2Z.inj_succ, Z.pow_succ_r by lia.
    replace (Z.succ (Zpos (digits2_pos m)) - 1) with (Z.succ (Zpos (digits2_pos m) - 1)) by lia.
    rewrite Z.pow_succ_r by lia. lia.
  - cbn. lia.
Qed.

(** A number between two powers of 2 has that many digits. *)
Lemma digits2_unique (m : positive) (d : Z) :
  2 ^ (d - 1) <= Zpos m < 2 ^ d -> 1 <= d -> Zpos (digits2_pos m) = d.
Proof.
  intros [Hlo Hhi] Hd. pose proof (digits2_bounds m) as [Blo Bhi].
  set (d' := Zpos (digits2_pos m)) in *.
  assert (0 < d') as Hd' by (unfold d'; lia).
  destruct (Z.lt_trichotomy d' d) as [H|[H|H]]; [|exact H|].
  - assert (2 ^ d' <= 2 ^ (d - 1)) by (apply Z.pow_le_mono_r; lia). lia.
  - assert (2 ^ d <= 2 ^ (d' - 1)) by (apply Z.pow_le_mono_r; lia). lia.
Qed.

(** The value of a number in units of [2 ^ -1074], the least exponent of
    binary64. *)
Definition units (x : spec_float) : Z :=
  match x with
  | S754_finite s m e => cond_Zopp s (Zpos m * 2 ^ (e + 1074))
  | _ => 0
  end.

(** The bound of the finite numbers, in the same units. *)
Definition top : Z := 2 ^ 2098.

(** The place of a number that is not NaN in the order. *)
Definition rank (x : spec_float) : Z :=
  match x with
  | S754_infinity s => cond_Zopp s top
  | _ => units x
  end.

Definition is_SFnan (x : spec_float) : bool :=
  match x with S754_nan => true | _ => false end.

(** What [valid_binary] says of a mantissa and an exponent. *)
Lemma bounded_facts (m : positive) (e : Z) :
  bounded prec emax m e = true ->
  -1074 <= e <= 971 /\ Zpos (digits2_pos m) <= 53 /\
  (-1074 < e -> Zpos (digits2_pos m) = 53).
Proof.
  unfold bounded, canonical_mantissa, fexp, SpecFloat.emin, prec, emax.
  rewrite andb_true_iff, Z.eqb_eq, Z.leb_le. lia.
Qed.

Lemma canonical_facts (m : positive) (e : Z) :
  canonical_mantissa prec emax m e = true ->
  -1074 <= e /\ Zpos (digits2_pos m) <= 53 /\
  (-1074 < e -> Zpos (digits2_pos m) = 53).
Proof.
  unfold canonical_mantissa, fexp, SpecFloat.emin, prec, emax.
  rewrite Z.eqb_eq. lia.
Qed.

(** Of two canonical numbers the one with the larger exponent is the
    larger. *)
Lemma canonical_exponent_lt (m1 m2 : positive) (e1 e2 : Z) :
  canonical_mantissa prec emax m1 e1 = true ->
  canonical_mantissa prec emax m2 e2 = true ->
  e1 < e2 ->
  Zpos m1 * 2 ^ (e1 + 1074) < Zpos m2 * 2 ^ (e2 + 1074).
Proof.
  intros H1 H2 Hlt.
  apply canonical_facts in H1, H2.
  destruct H1 as (He1 & Hd1 & _), H2 as (He2 & _ & Hd2).
  specialize (Hd2 ltac:(lia)).
  pose proof (digits2_bounds m1) as [_ B1].
  pose proof (digits2_bounds m2) as [B2 _].
  rewrite Hd2 in B2.
  assert (2 ^ Zpos (digits2_pos m1) <= 2 ^ 53) as P1
    by (apply Z.pow_le_mono_r; lia).
  assert (0 < 2 ^ (e1 + 1074)) as Q1 by (apply Z.pow_pos_nonneg; lia).
  assert (2 ^ (e2 + 1074) = 2 ^ (e1 + 1074) * 2 ^ (e2 - e1)) as ->
    by (rewrite <- Z.pow_add_r by lia; f_equal; lia).
  assert (2 ^ 1 <= 2 ^ (e2 - e1)) as Q2 by (apply Z.pow_le_mono_r; lia).
  change (2 ^ 1) with 2 in Q2. change (53 - 1) with 52 in B2.
  assert (2 ^ 53 = 2 * 2 ^ 52) as E53 by reflexivity.
  assert (Zpos m1 < Zpos m2 * 2 ^ (e2 - e1)) as H.
  { apply Z.lt_le_trans with (2 * Zpos m2); [lia|].
    rewrite (Z.mul_comm 2). apply Z.mul_le_mono_nonneg_l; lia. }
  rewrite (Z.mul_comm (2 ^ (e1 + 1074))), Z.mul_assoc.
  apply Z.mul_lt_mono_pos_r; assumption.
Qed.

Lemma valid_units_lt_top (x : spec_float) :
  valid_binary x = true -> - top < units x < top.
Proof.
  destruct x as [s|s| |s m e]; cbn [valid_binary units]; intros H;
    try (unfold top; split; [|apply Z.pow_pos_nonneg; lia];
         assert (0 < 2 ^ 2098) by (apply Z.pow_pos_nonneg; lia); lia).
  apply bounded_facts in H. destruct H as (He & Hd & _).
  pose proof (digits2_bounds m) as [_ B].
  assert (2 ^ Zpos (digits2_pos m) <= 2 ^ 53) as P1
    by (apply Z.pow_le_mono_r; lia).
  assert (0 < 2 ^ (e + 1074)) as Q1 by (apply Z.pow_pos_nonneg; lia).
  assert (2 ^ (e + 1074) <= 2 ^ 2045) as Q2 by (apply Z.pow_le_mono_r; lia).
  assert (top = 2 ^ 53 * 2 ^ 2045) as -> by (unfold top; rewrite <- Z.pow_add_r by lia; reflexivity).
  destruct s; cbn [cond_Zopp]; nia.
Qed.

Ltac order :=
  f_equal; symmetry;
  first [ apply Z.compare_eq_iff; nia
        | apply Z.compare_lt_iff; nia
        | apply Z.compare_gt_iff; nia ].

(** On valid numbers that are not NaN, [SFcompare] is the order of the
    ranks. *)
Lemma SFcompare_rank (x y : spec_float) :
  valid_binary x = true -> valid_binary y = true ->
  is_SFnan x = false -> is_SFnan y = false ->
  SFcompare x y = Some (rank x ?= rank y).
Proof.
  intros Vx Vy Nx Ny.
  pose proof (valid_units_lt_top x Vx) as Bx.
  pose proof (valid_units_lt_top y Vy) as By.
  assert (0 < top) as Ht by (apply Z.pow_pos_nonneg; lia).
  destruct x as [sx|sx| |sx mx ex]; try discriminate Nx;
  destruct y as [sy|sy| |sy my ey]; try discriminate Ny;
  cbn [SFcompare rank units] in *.
  - reflexivity.
  - destruct sy; cbn [cond_Zopp]; order.
  - assert (0 < Zpos my * 2 ^ (ey + 1074))
      by (apply Z.mul_pos_pos; [lia | apply Z.pow_pos_nonneg; apply bounded_facts in Vy; lia]).
    destruct sy; cbn [cond_Zopp]; order.
  - destruct sx; cbn [cond_Zopp]; order.
  - destruct sx, sy; cbn [cond_Zopp]; order.
  - destruct sx; cbn [cond_Zopp]; order.
  - assert (0 < Zpos mx * 2 ^ (ex + 1074))
      by (apply Z.mul_pos_pos; [lia | apply Z.pow_pos_nonneg; apply bounded_facts in Vx; lia]).
    destruct sx; cbn [cond_Zopp]; order.
  - destruct sy; cbn [cond_Zopp]; order.
  - pose proof Vx as Fx. pose proof Vy as Fy.
    apply bounded_facts in Fx, Fy.
    assert (0 < Zpos mx * 2 ^ (ex + 1074)) as Px
      by (apply Z.mul_pos_pos; [lia | apply Z.pow_pos_nonneg; lia]).
    assert (0 < Zpos my * 2 ^ (ey + 1074)) as Py
      by (apply Z.mul_pos_pos; [lia | apply Z.pow_pos_nonneg; lia]).
    unfold bounded in Vx, Vy. apply andb_true_iff in Vx, Vy.
    destruct Vx as [Cx _], Vy as [Cy _].
    assert (0 < 2 ^ (ex + 1074)) as Q by (apply Z.pow_pos_nonneg; lia).
    destruct sx, sy; cbn [cond_Zopp]; try order.
    + destruct (Z.compare_spec ex ey) as [E|L|G].
      * subst ey. change (Pos.compare_cont Eq mx my) with (mx ?= my)%positive.
        rewrite <- Pos.compare_antisym.
        change (my ?= mx)%positive with (Zpos my ?= Zpos mx).
        destruct (Z.compare_spec (Zpos my) (Zpos mx)) as [E|L|G]; order.
      * pose proof (canonical_exponent_lt _ _ _ _ Cx Cy L). order.
      * pose proof (canonical_exponent_lt _ _ _ _ Cy Cx ltac:(lia)). order.
    + destruct (Z.compare_spec ex ey) as [E|L|G].
      * subst ey. change (Pos.compare_cont Eq mx my) with (mx ?= my)%positive.
        change (mx ?= my)%positive with (Zpos mx ?= Zpos my).
        destruct (Z.compare_spec (Zpos mx) (Zpos my)) as [E|L|G]; order.
      * pose proof (canonical_exponent_lt _ _ _ _ Cx Cy L). order.
      * pose proof (canonical_exponent_lt _ _ _ _ Cy Cx ltac:(lia)). order.
Qed.

(** *** Shifting a mantissa *)

Lemma iter_pos_nat {A : Type} (f : A -> A) (p : positive) :
  forall x, iter_pos f p x = Nat.iter (Pos.to_nat p) f x.
Proof.
  induction p as [p IH|p IH|]; intros x; cbn [iter_pos].
  - rewrite !IH, <- Nat.iter_succ_r, <- Nat.iter_add. f_equal. lia.
  - rewrite !IH, <- Nat.iter_add. f_equal. lia.
  - reflexivity.
Qed.

(** One shift to the right halves the mantissa, remembers the digit that
    falls off, and whether anything fell off before. *)
Lemma shr_1_spec (m : Z) (r s : bool) :
  0 <= m ->
  shr_1 {| shr_m := m; shr_r := r; shr_s := s |}
  = {| shr_m := m / 2; shr_r := Z.odd m; shr_s := r || s |}.
Proof.
  intros Hm. rewrite <- Z.div2_div.
  destruct m as [|[p|p|]|p]; try reflexivity. lia.
Qed.

Lemma shr_iter (m : Z) (n : nat) :
  0 <= m ->
  let mrs := Nat.iter n shr_1 {| shr_m := m; shr_r := false; shr_s := false |} in
  shr_m mrs = m / 2 ^ Z.of_nat n /\
  (m mod 2 ^ Z.of_nat n = 0 -> shr_r mrs = false /\ shr_s mrs = false).
Proof.
  intros Hm. induction n as [|n IH]; cbn zeta.
  - change (Nat.iter 0 shr_1 ?x) with x. cbn [shr_m shr_r shr_s].
    change (2 ^ Z.of_nat 0) with 1. rewrite Z.div_1_r. auto.
  - rewrite Nat.iter_succ. cbn zeta in IH.
    destruct (Nat.iter n shr_1 _) as [q r s]. cbn [shr_m shr_r shr_s] in IH.
    destruct IH as [Hq Hrs].
    assert (0 < 2 ^ Z.of_nat n) as Hp by (apply Z.pow_pos_nonneg; lia).
    assert (0 <= q) as Hq0 by (rewrite Hq; apply Z.div_pos; lia).
    rewrite shr_1_spec by exact Hq0. cbn [shr_m shr_r shr_s].
    rewrite Nat2Z.inj_succ, Z.pow_succ_r by lia.
    split.
    + rewrite Hq, Z.div_div by lia. f_equal. lia.
    + intros Hmod.
      apply Z.mod_divide in Hmod; [|lia]. destruct Hmod as [t Ht].
      assert (m = (2 * t) * 2 ^ Z.of_nat n) as Hm2 by lia.
      assert (m mod 2 ^ Z.of_nat n = 0) as H0
        by (rewrite Hm2; apply Z.mod_mul; lia).
      destruct (Hrs H0) as [-> ->].
      assert (q = 2 * t) as -> by (rewrite Hq, Hm2; apply Z.div_mul; lia).
      rewrite Z.odd_mul. now split.
Qed.

Lemma round_nearest_even_bounds (q : Z) (l : location) :
  q <= round_nearest_even q l <= q + 1.
Proof.
  destruct l as [|[| |]]; cbn [round_nearest_even]; try lia.
  destruct (Z.even q); lia.
Qed.

Lemma iter_xO (m d : positive) :
  Zpos (Pos.iter xO m d) = Zpos m * 2 ^ Zpos d.
Proof.
  induction d as [|d IH] using Pos.peano_ind.
  - cbn [Pos.iter]. rewrite Pos2Z.inj_xO. change (2 ^ 1) with 2. lia.
  - rewrite Pos.iter_succ, Pos2Z.inj_xO, IH, Pos2Z.inj_succ, Z.pow_succ_r by lia.
    lia.
Qed.

Lemma digits2_iter_xO (m d : positive) :
  Zpos (digits2_pos (Pos.iter xO m d)) = Zpos (digits2_pos m) + Zpos d.
Proof.
  apply digits2_unique; [|lia].
  rewrite iter_xO. pose proof (digits2_bounds m) as [Blo Bhi].
  assert (0 < 2 ^ Zpos d) as Hp by (apply Z.pow_pos_nonneg; lia).
  replace (Zpos (digits2_pos m) + Zpos d - 1)
    with ((Zpos (digits2_pos m) - 1) + Zpos d) by lia.
  rewrite !Z.pow_add_r by lia. nia.
Qed.

(** *** Rounding *)

(** [F] is [V] when [V] is canonical, and otherwise one of the two
    canonical numbers next to [V]: no canonical number lies between them. *)
Definition faithful (V F : Z) : Prop :=
  forall mR eR,
    canonical_mantissa prec emax mR eR = true ->
    (V <= Zpos mR * 2 ^ (eR + 1074) -> F <= Zpos mR * 2 ^ (eR + 1074)) /\
    (Zpos mR * 2 ^ (eR + 1074) <= V -> Zpos mR * 2 ^ (eR + 1074) <= F).

Lemma fexp_eq (z : Z) : fexp prec emax z = Z.max (z - 53) (-1074).
Proof. reflexivity. Qed.

Lemma canonical_iff (m : positive) (e : Z) :
  canonical_mantissa prec emax m e = true
  <-> Z.max (Zpos (digits2_pos m) + e - 53) (-1074) = e.
Proof. unfold canonical_mantissa. rewrite fexp_eq. apply Z.eqb_eq. Qed.

(** A canonical mantissa is not shifted. *)
Lemma shr_fexp_canonical (m : positive) (e : Z) :
  canonical_mantissa prec emax m e = true ->
  shr_fexp prec emax (Zpos m) e loc_Exact
  = ({| shr_m := Zpos m; shr_r := false; shr_s := false |}, e).
Proof.
  intros H. apply canonical_iff in H.
  unfold shr_fexp. cbn [Zdigits2 shr_record_of_loc]. rewrite fexp_eq, H.
  now rewrite Z.sub_diag.
Qed.

(** A mantissa of more than 53 digits is shifted down to 53 digits. *)
Lemma shr_fexp_long (m : positive) (e : Z) :
  -1074 <= e -> 53 < Zpos (digits2_pos m) ->
  let k := Zpos (digits2_pos m) - 53 in
  exists mrs,
    shr_fexp prec emax (Zpos m) e loc_Exact = (mrs, e + k) /\
    shr_m mrs = Zpos m / 2 ^ k /\
    (Zpos m mod 2 ^ k = 0 -> shr_r mrs = false /\ shr_s mrs = false).
Proof.
  intros He Hd k.
  unfold shr_fexp. cbn [Zdigits2 shr_record_of_loc]. rewrite fexp_eq.
  replace (Z.max (Zpos (digits2_pos m) + e - 53) (-1074) - e) with k
    by (unfold k; lia).
  destruct k as [|kp|kp] eqn:Ek; try lia.
  cbn [shr]. rewrite iter_pos_nat.
  pose proof (shr_iter (Zpos m) (Pos.to_nat kp) ltac:(lia)) as H.
  cbn zeta in H. rewrite positive_nat_Z in H.
  eexists. split; [reflexivity | exact H].
Qed.

Lemma pow2_split (a b : Z) : 0 <= a -> 0 <= b -> 2 ^ (a + b) = 2 ^ a * 2 ^ b.
Proof. intros. now apply Z.pow_add_r. Qed.

Lemma canonical_mantissa_lt (mR : positive) (eR : Z) :
  canonical_mantissa prec emax mR eR = true -> Zpos mR < 2 ^ 53 /\ -1074 <= eR.
Proof.
  intros H. apply canonical_facts in H. destruct H as (He & Hd & _).
  pose proof (digits2_bounds mR) as [_ B].
  assert (2 ^ Zpos (digits2_pos mR) <= 2 ^ 53) by (apply Z.pow_le_mono_r; lia).
  lia.
Qed.

(** Rounding a mantissa [m] with [q = m / 2 ^ k] of 53 digits to [q] or
    [q + 1], and to [q] when nothing is left over, is faithful. *)
Lemma faithful_round (m q q' e k : Z) :
  0 < k -> -1074 <= e -> 0 < m ->
  q = m / 2 ^ k -> 2 ^ 52 <= q -> q <= q' <= q + 1 ->
  (m mod 2 ^ k = 0 -> q' = q) ->
  faithful (m * 2 ^ (e + 1074)) (q' * 2 ^ (e + k + 1074)).
Proof.
  intros Hk He Hm Hq Hq52 Hq' Hexact mR eR HR.
  apply canonical_mantissa_lt in HR. destruct HR as [HmR HeR].
  set (P := 2 ^ k). set (u := 2 ^ (e + 1074)).
  assert (0 < P) as HP by (apply Z.pow_pos_nonneg; lia).
  assert (0 < u) as Hu by (apply Z.pow_pos_nonneg; lia).
  assert (2 ^ (e + k + 1074) = P * u) as ->
    by (unfold P, u; rewrite <- pow2_split by lia; f_equal; lia).
  pose proof (Z.div_mod m P ltac:(lia)) as Hdm.
  pose proof (Z.mod_pos_bound m P HP) as Hrem.
  fold P in Hq, Hexact. rewrite <- Hq in Hdm.
  set (rem := m mod P) in *.
  destruct (Z.le_gt_cases (e + k) eR) as [Hge|Hlt].
  - set (c := 2 ^ (eR - e - k)).
    assert (0 < c) as Hc by (apply Z.pow_pos_nonneg; lia).
    assert (2 ^ (eR + 1074) = c * (P * u)) as ->.
    { unfold c, P, u. rewrite <- !pow2_split by lia. f_equal. lia. }
    set (t := Zpos mR * c).
    replace (Zpos mR * (c * (P * u))) with (t * (P * u)) by (unfold t; ring).
    assert (0 < P * u) as HG by (apply Z.mul_pos_pos; assumption).
    split; intros H.
    + assert (q * P + rem <= t * P) as H1.
      { apply Z.mul_le_mono_pos_r with (p := u); [exact Hu|].
        rewrite Hdm in H. lia. }
      assert (q <= t) as Hqt by nia.
      apply Z.mul_le_mono_nonneg_r; [lia|].
      destruct (Z.eq_dec q t) as [E|NE]; [|lia].
      assert (rem = 0) as R0 by nia. rewrite (Hexact R0). lia.
    + assert (t * P <= q * P + rem) as H1.
      { apply Z.mul_le_mono_pos_r with (p := u); [exact Hu|].
        rewrite Hdm in H. lia. }
      assert (t <= q) as Hqt by nia.
      apply Z.mul_le_mono_nonneg_r; lia.
  - set (w := 2 ^ (eR + 1074)).
    assert (0 < w) as Hw by (apply Z.pow_pos_nonneg; lia).
    set (c := 2 ^ (e + k - eR)).
    assert (2 <= c) as Hc.
    { change 2 with (2 ^ 1). apply Z.pow_le_mono_r; lia. }
    assert (P * u = w * c) as HG.
    { unfold P, u, w, c. rewrite <- !pow2_split by lia. f_equal. lia. }
    assert (2 ^ 53 = 2 * 2 ^ 52) as E53 by reflexivity.
    assert (Zpos mR * w < q * (P * u)) as Hlow.
    { rewrite HG. apply Z.lt_le_trans with (2 ^ 53 * w); [nia|].
      rewrite E53. nia. }
    assert (q * (P * u) <= m * u) as HV by (rewrite Hdm; nia).
    assert (q * (P * u) <= q' * (P * u)) as HF by nia.
    split; intros H; lia.
Qed.

(** What [binary_round_aux] does with a mantissa that need not be shifted
    to the left. *)
Lemma round_aux_spec (s : bool) (m : positive) (e : Z) :
  -1074 <= e ->
  e <= fexp prec emax (Zpos (digits2_pos m) + e) ->
  exists mf ef,
    canonical_mantissa prec emax mf ef = true /\
    binary_round_aux prec emax s (Zpos m) e loc_Exact
    = (if ef <=? 971 then S754_finite s mf ef else S754_infinity s) /\
    faithful (Zpos m * 2 ^ (e + 1074)) (Zpos mf * 2 ^ (ef + 1074)).
Proof.
  intros He Hk. rewrite fexp_eq in Hk.
  destruct (Z.le_gt_cases (Zpos (digits2_pos m)) 53) as [Hd|Hd].
  - (* no rounding *)
    assert (canonical_mantissa prec emax m e = true) as Hc
      by (apply canonical_iff; lia).
    exists m, e. split; [exact Hc|]. split.
    + unfold binary_round_aux. rewrite (shr_fexp_canonical _ _ Hc).
      cbn [shr_m loc_of_shr_record round_nearest_even].
      rewrite (shr_fexp_canonical _ _ Hc). cbn [shr_m]. reflexivity.
    + intros mR eR _. split; auto.
  - (* rounding to 53 digits *)
    destruct (shr_fexp_long m e He Hd) as (mrs & Hshr & Hq & Hexact).
    set (k := Zpos (digits2_pos m) - 53) in *.
    assert (0 < k) as Hk0 by (unfold k; lia).
    pose proof (digits2_bounds m) as [Blo Bhi].
    assert (0 < 2 ^ k) as HP by (apply Z.pow_pos_nonneg; lia).
    assert (2 ^ (Zpos (digits2_pos m) - 1) = 2 ^ k * 2 ^ 52) as E1
      by (rewrite <- pow2_split by lia; f_equal; unfold k; lia).
    assert (2 ^ Zpos (digits2_pos m) = 2 ^ k * 2 ^ 53) as E2
      by (rewrite <- pow2_split by lia; f_equal; unfold k; lia).
    assert (2 ^ 52 <= shr_m mrs < 2 ^ 53) as Hq52.
    { rewrite Hq. split.
      - apply Z.div_le_lower_bound; lia.
      - apply Z.div_lt_upper_bound; lia. }
    set (q' := round_nearest_even (shr_m mrs) (loc_of_shr_record mrs)).
    pose proof (round_nearest_even_bounds (shr_m mrs) (loc_of_shr_record mrs))
      as Hq'. fold q' in Hq'.
    assert (Zpos m mod 2 ^ k = 0 -> q' = shr_m mrs) as Hex.
    { intros H0. destruct (Hexact H0) as [Hr Hs]. unfold q'.
      destruct mrs as [mq r0 s0]. cbn [shr_r shr_s] in Hr, Hs. subst r0 s0.
      reflexivity. }
    pose proof (faithful_round (Zpos m) (shr_m mrs) q' e k Hk0 He ltac:(lia)
                  Hq ltac:(lia) Hq' Hex) as Hfaith.
    unfold binary_round_aux. rewrite Hshr. fold q'.
    assert (2 ^ 52 > 0) as P52 by reflexivity.
    destruct q' as [|qp|qp] eqn:Eq'; try lia.
    destruct (Z.eq_dec (Zpos qp) (2 ^ 53)) as [Etop|Ntop].
    + (* the mantissa overflows to 2 ^ 53 *)
      exists (4503599627370496)%positive, (e + k + 1).
      assert (canonical_mantissa prec emax 4503599627370496 (e + k + 1) = true)
        as Hc by (apply canonical_iff; cbn [digits2_pos Pos.succ]; lia).
      split; [exact Hc|]. split.
      * injection Etop as ->. unfold shr_fexp.
        cbn [Zdigits2 digits2_pos Pos.succ shr_record_of_loc]. rewrite fexp_eq.
        replace (Z.max (54 + (e + k) - 53) (-1074) - (e + k)) with 1 by lia.
        reflexivity.
      * replace (Zpos 4503599627370496 * 2 ^ (e + k + 1 + 1074))
          with (Zpos qp * 2 ^ (e + k + 1074)); [exact Hfaith|].
        rewrite Etop.
        replace (e + k + 1 + 1074) with (1 + (e + k + 1074)) by lia.
        rewrite (pow2_split 1 (e + k + 1074)) by lia. change (2 ^ 1) with 2.
        change (Zpos 4503599627370496) with (2 ^ 52).
        change (2 ^ 53) with (2 * 2 ^ 52). ring.
    + exists qp, (e + k).
      assert (canonical_mantissa prec emax qp (e + k) = true) as Hc.
      { apply canonical_iff.
        rewrite (digits2_unique qp 53); [lia | | lia].
        change (53 - 1) with 52. lia. }
      split; [exact Hc|]. split.
      * rewrite (shr_fexp_canonical _ _ Hc). reflexivity.
      * exact Hfaith.
Qed.

(** [binary_round] first shifts the mantissa to the left as far as the
    exponent allows. *)
Lemma binary_round_spec (s : bool) (m : positive) (e : Z) :
  -1074 <= e ->
  exists mf ef,
    canonical_mantissa prec emax mf ef = true /\
    binary_round prec emax s m e
    = (if ef <=? 971 then S754_finite s mf ef else S754_infinity s) /\
    faithful (Zpos m * 2 ^ (e + 1074)) (Zpos mf * 2 ^ (ef + 1074)).
Proof.
  intros He. unfold binary_round, shl_align. rewrite fexp_eq.
  destruct (Z.max (Zpos (digits2_pos m) + e - 53) (-1074) - e) as [|d|d] eqn:Ed.
  - apply round_aux_spec; [exact He | rewrite fexp_eq; lia].
  - apply round_aux_spec; [exact He | rewrite fexp_eq; lia].
  - set (e' := Z.max (Zpos (digits2_pos m) + e - 53) (-1074)) in *.
    assert (e = e' + Zpos d) as Ee by lia.
    destruct (round_aux_spec s (Pos.iter xO m d) e') as (mf & ef & Hc & Hr & Hf).
    + unfold e'. lia.
    + rewrite fexp_eq, digits2_iter_xO. unfold e' in *. lia.
    + exists mf, ef. split; [exact Hc|]. split; [exact Hr|].
      replace (Zpos m * 2 ^ (e + 1074))
        with (Zpos (Pos.iter xO m d) * 2 ^ (e' + 1074)); [exact Hf|].
      rewrite iter_xO, Ee.
      replace (e' + Zpos d + 1074) with (Zpos d + (e' + 1074)) by lia.
      rewrite (pow2_split (Zpos d) (e' + 1074)) by (unfold e'; lia). ring.
Qed.

(** The ranks of the positive numbers: the values of the valid finite
    numbers, and [top] for the infinity. *)
Definition reachable (v : Z) : Prop :=
  v = top \/
  exists mR eR, bounded prec emax mR eR = true /\ v = Zpos mR * 2 ^ (eR + 1074).

Lemma bounded_canonical (m : positive) (e : Z) :
  bounded prec emax m e = true -> canonical_mantissa prec emax m e = true.
Proof. unfold bounded. now intros H%andb_true_iff. Qed.

Lemma top_canonical :
  canonical_mantissa prec emax 4503599627370496 972 = true /\
  top = Zpos 4503599627370496 * 2 ^ (972 + 1074).
Proof.
  split; [reflexivity|]. unfold top.
  change (Zpos 4503599627370496) with (2 ^ 52).
  rewrite <- pow2_split by lia. reflexivity.
Qed.

(** The rank of a rounded positive number. *)
Lemma binary_round_rank (s : bool) (m : positive) (e : Z) :
  -1074 <= e ->
  exists F,
    rank (binary_round prec emax s m e) = cond_Zopp s F /\
    is_SFnan (binary_round prec emax s m e) = false /\
    valid_binary (binary_round prec emax s m e) = true /\
    0 < F <= top /\
    forall v, reachable v ->
      (Zpos m * 2 ^ (e + 1074) <= v -> F <= v) /\
      (v <= Zpos m * 2 ^ (e + 1074) -> v <= F).
Proof.
  intros He.
  destruct (binary_round_spec s m e He) as (mf & ef & Hc & -> & Hf).
  destruct top_canonical as [Ctop Etop].
  pose proof (canonical_facts _ _ Hc) as (Hef & _).
  assert (0 < Zpos mf * 2 ^ (ef + 1074)) as Hpos
    by (apply Z.mul_pos_pos; [lia | apply Z.pow_pos_nonneg; lia]).
  destruct (Z.leb_spec ef 971) as [Hle|Hgt].
  - assert (valid_binary (S754_finite s mf ef) = true) as Hv.
    { cbn [valid_binary]. unfold bounded. rewrite Hc. now apply Z.leb_le. }
    pose proof (valid_units_lt_top _ Hv) as Hlt. cbn [units] in Hlt.
    exists (Zpos mf * 2 ^ (ef + 1074)).
    split; [reflexivity|]. split; [reflexivity|]. split; [exact Hv|].
    split; [destruct s; cbn [cond_Zopp] in Hlt; lia|].
    intros v [->|(mR & eR & HR & ->)].
    + rewrite Etop. apply Hf. exact Ctop.
    + apply Hf. now apply bounded_canonical.
  - exists top. split; [reflexivity|]. split; [reflexivity|].
    split; [reflexivity|]. split; [lia|].
    intros v [->|(mR & eR & HR & ->)]; [lia|].
    pose proof (valid_units_lt_top (S754_finite false mR eR) HR) as Hlt.
    cbn [units cond_Zopp] in Hlt.
    pose proof (bounded_facts _ _ HR) as (HeR & _).
    pose proof (canonical_exponent_lt _ _ _ _ (bounded_canonical _ _ HR) Hc
                  ltac:(lia)) as Hbelow.
    destruct (Hf mR eR (bounded_canonical _ _ HR)) as [Hup _].
    split; intros H; lia.
Qed.

(** The rank of a valid number that is not NaN is 0, or reachable, or the
    opposite of a reachable one. *)
Lemma rank_cases (R : spec_float) :
  valid_binary R = true -> is_SFnan R = false ->
  rank R = 0 \/ reachable (rank R) \/ reachable (- rank R).
Proof.
  intros Hv Hn. destruct R as [s|s| |s m e]; try discriminate Hn.
  - now left.
  - right. destruct s; cbn [rank cond_Zopp]; [right | left]; left; lia.
  - right. destruct s; cbn [rank units cond_Zopp]; [right | left]; right;
      exists m, e; (split; [exact Hv | lia]).
Qed.

Lemma reachable_pos (v : Z) : reachable v -> 0 < v.
Proof.
  intros [->|(m & e & H & ->)].
  - apply Z.pow_pos_nonneg; lia.
  - apply bounded_facts in H.
    apply Z.mul_pos_pos; [lia | apply Z.pow_pos_nonneg; lia].
Qed.

(** [anchored V x]: the number [x], which stands for the exact value [V],
    is on the same side as [V] of every valid number. *)
Definition anchored (V : Z) (x : spec_float) : Prop :=
  is_SFnan x = false /\ valid_binary x = true /\
  forall R, valid_binary R = true -> is_SFnan R = false ->
    (V <= rank R -> rank x <= rank R) /\ (rank R <= V -> rank R <= rank x).

Lemma anchored_exact (x : spec_float) :
  valid_binary x = true -> is_SFnan x = false -> anchored (rank x) x.
Proof. intros Hv Hn. split; [exact Hn|]. split; [exact Hv|]. auto. Qed.

Lemma binary_normalize_anchored (N e : Z) (szero : bool) :
  -1074 <= e ->
  anchored (N * 2 ^ (e + 1074)) (binary_normalize prec emax N e szero).
Proof.
  intros He. destruct N as [|m|m]; cbn [binary_normalize].
  - rewrite Z.mul_0_l. now apply (anchored_exact (S754_zero szero)).
  - destruct (binary_round_rank false m e He) as (F & HF & Hn & Hv & HF0 & Hf).
    split; [exact Hn|]. split; [exact Hv|]. rewrite HF. cbn [cond_Zopp].
    assert (0 < Zpos m * 2 ^ (e + 1074)) as HV
      by (apply Z.mul_pos_pos; [lia | apply Z.pow_pos_nonneg; lia]).
    intros R HvR HnR.
    destruct (rank_cases R HvR HnR) as [H0|[Hr|Hr]].
    + lia.
    + destruct (Hf _ Hr). split; lia.
    + apply reachable_pos in Hr. lia.
  - destruct (binary_round_rank true m e He) as (F & HF & Hn & Hv & HF0 & Hf).
    split; [exact Hn|]. split; [exact Hv|]. rewrite HF. cbn [cond_Zopp].
    assert (0 < Zpos m * 2 ^ (e + 1074)) as HV
      by (apply Z.mul_pos_pos; [lia | apply Z.pow_pos_nonneg; lia]).
    change (Zneg m) with (- Zpos m). rewrite Z.mul_opp_l.
    intros R HvR HnR.
    destruct (rank_cases R HvR HnR) as [H0|[Hr|Hr]].
    + lia.
    + apply reachable_pos in Hr. lia.
    + destruct (Hf _ Hr). split; lia.
Qed.

(** *** Addition and subtraction *)

Definition is_finite_SF (x : spec_float) : bool :=
  match x with
  | S754_zero _ | S754_finite _ _ _ => true
  | _ => false
  end.

Lemma shl_align_units (m : positive) (e e' : Z) :
  -1074 <= e' <= e ->
  Zpos (fst (shl_align m e e')) * 2 ^ (e' + 1074) = Zpos m * 2 ^ (e + 1074).
Proof.
  intros H. unfold shl_align.
  destruct (e' - e) as [|d|d] eqn:Ed; cbn [fst].
  - replace e' with e by lia. reflexivity.
  - lia.
  - rewrite iter_xO. replace (e + 1074) with (Zpos d + (e' + 1074)) by lia.
    rewrite (pow2_split (Zpos d) (e' + 1074)) by lia. ring.
Qed.

Lemma cond_Zopp_mul (s : bool) (a b : Z) : cond_Zopp s a * b = cond_Zopp s (a * b).
Proof. destruct s; cbn [cond_Zopp]; ring. Qed.

Lemma SFadd_anchored (x y : spec_float) :
  valid_binary x = true -> valid_binary y = true ->
  is_finite_SF x = true -> is_finite_SF y = true ->
  anchored (units x + units y) (SF64add x y).
Proof.
  intros Vx Vy Fx Fy.
  destruct x as [sx|sx| |sx mx ex]; try discriminate Fx;
  destruct y as [sy|sy| |sy my ey]; try discriminate Fy;
  unfold SF64add; cbn [SFadd units].
  - destruct sx, sy; now apply (anchored_exact (S754_zero _)).
  - now apply (anchored_exact (S754_finite sy my ey)).
  - rewrite Z.add_0_r. now apply (anchored_exact (S754_finite sx mx ex)).
  - pose proof (bounded_facts _ _ Vx) as (Hex & _).
    pose proof (bounded_facts _ _ Vy) as (Hey & _).
    set (ez := Z.min ex ey).
    rewrite <- (shl_align_units mx ex ez), <- (shl_align_units my ey ez)
      by (unfold ez; lia).
    rewrite <- !cond_Zopp_mul, <- Z.mul_add_distr_r.
    apply binary_normalize_anchored. unfold ez. lia.
Qed.

Lemma SFsub_anchored (x y : spec_float) :
  valid_binary x = true -> valid_binary y = true ->
  is_finite_SF x = true -> is_finite_SF y = true ->
  anchored (units x - units y) (SF64sub x y).
Proof.
  intros Vx Vy Fx Fy.
  destruct x as [sx|sx| |sx mx ex]; try discriminate Fx;
  destruct y as [sy|sy| |sy my ey]; try discriminate Fy;
  unfold SF64sub; cbn [SFsub units].
  - destruct sx, sy; now apply (anchored_exact (S754_zero _)).
  - replace (0 - cond_Zopp sy (Zpos my * 2 ^ (ey + 1074)))
      with (rank (S754_finite (negb sy) my ey))
      by (destruct sy; cbn [rank units negb cond_Zopp]; lia).
    now apply anchored_exact.
  - rewrite Z.sub_0_r. now apply (anchored_exact (S754_finite sx mx ex)).
  - pose proof (bounded_facts _ _ Vx) as (Hex & _).
    pose proof (bounded_facts _ _ Vy) as (Hey & _).
    set (ez := Z.min ex ey).
    rewrite <- (shl_align_units mx ex ez), <- (shl_align_units my ey ez)
      by (unfold ez; lia).
    rewrite <- !cond_Zopp_mul, <- Z.mul_sub_distr_r.
    apply binary_normalize_anchored. unfold ez. lia.
Qed.

End Rounding.


(* ================================================================== *)
(** ** The angle loops of [fitArc] end *)

Module AngleFacts.
Import Stroke Arcs ArcFacts Rounding.

(** The place of a number in the order of the numbers. *)
Definition value (a : number) : Z := rank (Prim2SF a).

Arguments value a%_float.

Lemma Prim2SF_nan (a : number) : is_nan a = true -> Prim2SF a = S754_nan.
Proof. intros H. unfold Prim2SF. now rewrite H. Qed.

Lemma SFltb_nan_r (x : spec_float) : SFltb x S754_nan = false.
Proof. now destruct x. Qed.

Lemma ltb_value (a b : number) :
  is_SFnan (Prim2SF a) = false -> is_SFnan (Prim2SF b) = false ->
  (a <? b) = (value a <? value b)%Z.
Proof.
  intros Ha Hb. rewrite ltb_spec. unfold SFltb.
  rewrite SFcompare_rank by (try apply Prim2SF_valid; assumption).
  reflexivity.
Qed.

Lemma leb_value (a b : number) :
  is_SFnan (Prim2SF a) = false -> is_SFnan (Prim2SF b) = false ->
  (a <=? b) = (value a <=? value b)%Z.
Proof.
  intros Ha Hb. rewrite leb_spec. unfold SFleb.
  rewrite SFcompare_rank by (try apply Prim2SF_valid; assumption).
  unfold Z.leb, value. now destruct (rank (Prim2SF a) ?= rank (Prim2SF b))%Z.
Qed.

Lemma leb_not_nan (a b : number) :
  (a <=? b) = true -> is_SFnan (Prim2SF a) = false /\ is_SFnan (Prim2SF b) = false.
Proof.
  rewrite leb_spec.
  destruct (Prim2SF a), (Prim2SF b); cbn; intros H; try discriminate H; now split.
Qed.

(** The constants of the loops. *)
Definition TWO_PI : number := 2 * PI.

Lemma constants :
  (0 < value PI)%Z /\ (value TWO_PI = 2 * value PI)%Z /\
  (value TWO_PI < top)%Z /\ value (- PI) = (- value PI)%Z /\
  value 0 = 0%Z.
Proof. vm_compute. repeat split. Qed.

(** A number that is on no side of every valid number but between two
    finite ones is finite. *)
Lemma anchored_between (V : Z) (x : spec_float) (lo hi : number) :
  anchored V x ->
  is_finite_SF (Prim2SF lo) = true -> is_finite_SF (Prim2SF hi) = true ->
  (value lo <= V <= value hi)%Z ->
  is_finite_SF x = true /\ (value lo <= rank x <= value hi)%Z.
Proof.
  intros (Hn & Hv & Hanchor) Flo Fhi [Hlo Hhi].
  assert (is_SFnan (Prim2SF lo) = false) as Nlo by (now destruct (Prim2SF lo)).
  assert (is_SFnan (Prim2SF hi) = false) as Nhi by (now destruct (Prim2SF hi)).
  destruct (Hanchor _ (Prim2SF_valid lo) Nlo) as [_ H1].
  destruct (Hanchor _ (Prim2SF_valid hi) Nhi) as [H2 _].
  specialize (H1 Hlo). specialize (H2 Hhi).
  split; [|unfold value; lia].
  pose proof (valid_units_lt_top _ (Prim2SF_valid lo)) as Blo.
  pose proof (valid_units_lt_top _ (Prim2SF_valid hi)) as Bhi.
  assert (rank (Prim2SF lo) = units (Prim2SF lo)) as Elo
    by (destruct (Prim2SF lo); try discriminate Flo; reflexivity).
  assert (rank (Prim2SF hi) = units (Prim2SF hi)) as Ehi
    by (destruct (Prim2SF hi); try discriminate Fhi; reflexivity).
  destruct x as [s|s| |s m e]; try reflexivity; try discriminate Hn.
  destruct s; cbn [rank cond_Zopp] in H1, H2; lia.
Qed.

Lemma finite_rank (x : spec_float) : is_finite_SF x = true -> rank x = units x.
Proof. destruct x; try discriminate; reflexivity. Qed.

(** An angle as [Math.atan2] gives it: NaN, or a number from [-Math.PI]
    to [Math.PI]. *)
Definition angleOK (a : number) : Prop :=
  is_nan a = true \/ ((- PI <=? a) = true /\ (a <=? PI) = true).

Lemma inRange_finite (a : number) :
  (- PI <=? a) = true -> (a <=? PI) = true ->
  is_finite_SF (Prim2SF a) = true /\ (- value PI <= value a <= value PI)%Z.
Proof.
  intros Hlo Hhi.
  destruct (leb_not_nan _ _ Hlo) as [NP Na].
  destruct (leb_not_nan _ _ Hhi) as [_ NP'].
  rewrite leb_value in Hlo, Hhi by assumption.
  apply Z.leb_le in Hlo, Hhi.
  destruct constants as (P0 & T2 & Tt & Pm & _). rewrite Pm in Hlo.
  split; [|lia].
  unfold value in *.
  destruct (Prim2SF a) as [s|s| |s m e]; try reflexivity; try discriminate Na.
  destruct s; cbn [rank cond_Zopp] in Hlo, Hhi; lia.
Qed.

Lemma wrapDown_done (fuel : nat) (a : number) :
  (a >? PI) = false -> wrapDown fuel a = Some a.
Proof. intros H. destruct fuel; cbn [wrapDown]; now rewrite H. Qed.

Lemma wrapUp_done (fuel : nat) (a : number) :
  (a <? - PI) = false -> wrapUp fuel a = Some a.
Proof. intros H. destruct fuel; cbn [wrapUp]; now rewrite H. Qed.

(** The difference of two angles is NaN or lies from [-2 PI] to [2 PI];
    one subtraction of [2 PI] brings a difference above [PI] to a number
    from [-PI] to 0, one addition of [2 PI] brings a difference below
    [-PI] to a number that is not negative: each loop takes one turn at
    most. *)
Lemma normalizeAngle_returns (a b : number) (fuel : nat) :
  angleOK a -> angleOK b -> (1 <= fuel)%nat ->
  exists r, normalizeAngle fuel (b - a) = Some r.
Proof.
  intros Ha Hb Hfuel. unfold normalizeAngle.
  assert (Prim2SF (b - a) = S754_nan \/
          (is_finite_SF (Prim2SF (b - a)) = true /\
           (- value TWO_PI <= value (b - a) <= value TWO_PI)%Z)) as Hd.
  { destruct Ha as [Na|[Ha1 Ha2]].
    { left. rewrite sub_spec, (Prim2SF_nan a Na). now destruct (Prim2SF b). }
    destruct Hb as [Nb|[Hb1 Hb2]].
    { left. rewrite sub_spec, (Prim2SF_nan b Nb). reflexivity. }
    right.
    destruct (inRange_finite a Ha1 Ha2) as [Fa Ra].
    destruct (inRange_finite b Hb1 Hb2) as [Fb Rb].
    pose proof (SFsub_anchored _ _ (Prim2SF_valid b) (Prim2SF_valid a) Fb Fa)
      as Hanch.
    rewrite <- sub_spec in Hanch.
    assert (value a = units (Prim2SF a)) as Ea by (now apply finite_rank).
    assert (value b = units (Prim2SF b)) as Eb by (now apply finite_rank).
    rewrite Ea in Ra. rewrite Eb in Rb.
    destruct constants as (P0 & T2 & Tt & Pm & _).
    assert (value (- TWO_PI) = (- value TWO_PI)%Z) as Tm by (vm_compute; reflexivity).
    rewrite <- Tm.
    apply (anchored_between _ _ (- TWO_PI) TWO_PI Hanch);
      [reflexivity | reflexivity | lia]. }
  destruct Hd as [Hnan|[Fd Rd]].
  { assert (forall x, (x <? b - a) = false) as H1
      by (intros x; now rewrite ltb_spec, Hnan, SFltb_nan_r).
    assert (forall x, (b - a <? x) = false) as H2
      by (intros x; rewrite ltb_spec, Hnan; now destruct (Prim2SF x)).
    rewrite wrapDown_done by apply H1. rewrite wrapUp_done by apply H2.
    now eexists. }
  assert (is_SFnan (Prim2SF (b - a)) = false) as Nd
    by (destruct (Prim2SF (b - a)); try discriminate Fd; reflexivity).
  destruct constants as (P0 & T2 & Tt & Pm & Z0).
  assert (is_SFnan (Prim2SF PI) = false) as NP by reflexivity.
  assert (is_SFnan (Prim2SF (- PI)) = false) as NPm by reflexivity.
  assert (is_finite_SF (Prim2SF TWO_PI) = true) as FT by reflexivity.
  assert (is_finite_SF (Prim2SF (- PI)) = true) as FPm by reflexivity.
  assert (is_finite_SF (Prim2SF 0) = true) as F0 by reflexivity.
  assert (is_finite_SF (Prim2SF PI) = true) as FP by reflexivity.
  destruct (b - a >? PI) eqn:Hgt.
  - (* one turn of the first loop *)
    destruct fuel as [|fuel]; [lia|]. cbn [wrapDown]. rewrite Hgt.
    fold TWO_PI.
    unfold gtb in Hgt. rewrite ltb_value in Hgt by assumption.
    apply Z.ltb_lt in Hgt.
    pose proof (SFsub_anchored _ _ (Prim2SF_valid (b - a)) (Prim2SF_valid TWO_PI)
                  Fd FT) as Hanch.
    rewrite <- sub_spec in Hanch.
    rewrite <- !finite_rank in Hanch by assumption.
    fold (value (b - a)) (value TWO_PI) in Hanch.
    destruct (anchored_between _ _ (- PI) 0 Hanch FPm F0) as [F1 R1];
      [rewrite Pm, Z0; lia|].
    fold (value (b - a - TWO_PI)) in R1. rewrite Pm, Z0 in R1.
    assert (is_SFnan (Prim2SF (b - a - TWO_PI)) = false) as N1
      by (destruct (Prim2SF (b - a - TWO_PI)); try discriminate F1; reflexivity).
    rewrite wrapDown_done.
    + rewrite wrapUp_done; [now eexists|].
      rewrite ltb_value by assumption. apply Z.ltb_ge. lia.
    + unfold gtb. rewrite ltb_value by assumption. apply Z.ltb_ge. lia.
  - rewrite wrapDown_done by exact Hgt.
    destruct (b - a <? - PI) eqn:Hlt.
    + (* one turn of the second loop *)
      destruct fuel as [|fuel]; [lia|]. cbn [wrapUp]. rewrite Hlt.
      fold TWO_PI.
      pose proof (SFadd_anchored _ _ (Prim2SF_valid (b - a)) (Prim2SF_valid TWO_PI)
                    Fd FT) as Hanch.
      rewrite <- add_spec in Hanch.
      rewrite <- !finite_rank in Hanch by assumption.
      fold (value (b - a)) (value TWO_PI) in Hanch.
      assert (value (2 * TWO_PI) = 2 * value TWO_PI)%Z as T4
        by (vm_compute; reflexivity).
      destruct (anchored_between _ _ 0 (2 * TWO_PI) Hanch F0 eq_refl) as [F2 R2];
        [rewrite Z0, T4; lia|].
      fold (value (b - a + TWO_PI)) in R2. rewrite Z0 in R2.
      assert (is_SFnan (Prim2SF (b - a + TWO_PI)) = false) as N2
        by (destruct (Prim2SF (b - a + TWO_PI)); try discriminate F2; reflexivity).
      rewrite wrapUp_done; [now eexists|].
      rewrite ltb_value by assumption. apply Z.ltb_ge. lia.
    + rewrite wrapUp_done by exact Hlt. now eexists.
Qed.

(** *** [detectArcs] returns *)

(** What is asked of the host: on numbers, its [Math.atan2] gives a
    number from [-Math.PI] to [Math.PI]. *)
Definition hostInRange (atan2_host : number -> number -> number) : Prop :=
  forall y x, is_nan y = false -> is_nan x = false ->
    (- PI <=? atan2_host y x) = true /\ (atan2_host y x <=? PI) = true.

Section Returns.
Variable atan2_host : number -> number -> number.
Variable arcTolerance : number.
Variable fuel : nat.
Hypothesis Hhost : hostInRange atan2_host.
Hypothesis Hfuel : (1 <= fuel)%nat.

Lemma Math_atan2_angleOK (y x : number) : angleOK (Math_atan2 atan2_host y x).
Proof.
  unfold Math_atan2.
  destruct (is_nan y) eqn:Hy; [now left|].
  destruct (is_nan x) eqn:Hx; [now left|].
  right. now apply Hhost.
Qed.

Lemma isClockwise_returns (points : list Point) (circle : Circle) :
  isClockwise atan2_host fuel points circle <> None.
Proof.
  unfold isClockwise. destruct (length points <? 2)%nat; [discriminate|].
  cbv zeta.
  destruct (normalizeAngle_returns _ _ fuel
              (Math_atan2_angleOK (py (nth 0 points origin) - cy circle)
                                  (px (nth 0 points origin) - cx circle))
              (Math_atan2_angleOK (py (nth (length points / 2) points origin) - cy circle)
                                  (px (nth (length points / 2) points origin) - cx circle))
              Hfuel) as [midRel ->].
  destruct (normalizeAngle_returns _ _ fuel
              (Math_atan2_angleOK (py (nth 0 points origin) - cy circle)
                                  (px (nth 0 points origin) - cx circle))
              (Math_atan2_angleOK (py (last points origin) - cy circle)
                                  (px (last points origin) - cx circle))
              Hfuel) as [endRel ->].
  discriminate.
Qed.

Lemma tryArc_returns (points : list Point) :
  tryArc atan2_host arcTolerance fuel points <> None.
Proof.
  unfold tryArc.
  destruct (isCollinear points arcTolerance); [discriminate|].
  destruct (fitCircle points) as [circle|]; [|discriminate].
  destruct ((r circle <? 0.5) || (r circle >? 50)); [discriminate|].
  destruct (forallb _ points); [|discriminate].
  cbv zeta.
  destruct (normalizeAngle_returns _ _ fuel
              (Math_atan2_angleOK (py (nth 0 points origin) - cy circle)
                                  (px (nth 0 points origin) - cx circle))
              (Math_atan2_angleOK (py (last points origin) - cy circle)
                                  (px (last points origin) - cx circle))
              Hfuel) as [arcAngle ->].
  destruct (abs arcAngle * 180 / PI <? 20); [discriminate|].
  match goal with
  | |- context [if ?ratio <? 1.05 then _ else _] => destruct (ratio <? 1.05)
  end; [discriminate|].
  pose proof (isClockwise_returns points circle) as Hcw.
  destruct (isClockwise atan2_host fuel points circle); [discriminate | congruence].
Qed.

Lemma fitArcFrom_returns (stroke : list Point) (startIdx : nat) :
  forall endIdx, fitArcFrom atan2_host arcTolerance fuel stroke startIdx endIdx <> None.
Proof.
  induction endIdx as [|endIdx IH]; cbn [fitArcFrom].
  - destruct (startIdx + 2 <? 0)%nat; [|discriminate].
    pose proof (tryArc_returns (slice stroke startIdx (0 + 1))) as H.
    destruct (tryArc _ _ _ _) as [[|c cw]|]; [discriminate | discriminate | congruence].
  - destruct (startIdx + 2 <? S endIdx)%nat; [|discriminate].
    pose proof (tryArc_returns (slice stroke startIdx (S endIdx + 1))) as H.
    destruct (tryArc _ _ _ _) as [[|c cw]|]; [exact IH | discriminate | congruence].
Qed.

Lemma fitArc_returns (stroke : list Point) (startIdx : nat) :
  fitArc atan2_host arcTolerance fuel stroke startIdx <> None.
Proof. apply fitArcFrom_returns. Qed.

End Returns.

(** C8: when the host's [Math.atan2] gives angles from [-Math.PI] to
    [Math.PI], [detectArcs] returns for every stroke: each angle loop of
    [fitArc] ends after one turn at most, so every call of [fitArc]
    returns, and each turn of the loop of [detectArcs] moves the index
    forward, a Line by one and an accepted Arc by at least three; the
    segment list has at most one segment per point.  A stroke of fewer
    than 5 points comes back as the single Line holding the whole
    stroke. *)
Theorem detectArcs_terminates (atan2_host : number -> number -> number)
    (arcTolerance : number) (fuel : nat) (stroke : list Point) :
  (forall y x, is_nan y = false -> is_nan x = false ->
     (- PI <=? atan2_host y x) = true /\ (atan2_host y x <=? PI) = true) ->
  (1 <= fuel)%nat ->
  (exists segments,
      detectArcs atan2_host arcTolerance fuel stroke = Some segments /\
      (length segments <= Nat.max 1 (length stroke))%nat) /\
  (forall i res, (i < length stroke)%nat ->
      match detectStep stroke i res with
      | (Line _, i') => i' = (i + 1)%nat
      | (Arc _ _ _ _ _, i') => (i + 3 <= i')%nat
      end) /\
  ((length stroke < 5)%nat ->
      detectArcs atan2_host arcTolerance fuel stroke = Some [Line stroke]).
Proof.
  intros Hhost Hfuel.
  pose proof (fun i (_ : (i < length stroke)%nat) =>
                fitArc_returns atan2_host arcTolerance fuel Hhost Hfuel stroke i)
    as Hfit.
  unfold detectArcs.
  destruct (Nat.ltb_spec (length stroke) 5) as [Hs|Hs]; repeat split.
  - exists [Line stroke]. split; [reflexivity | cbn [length]; lia].
  - intros i res Hi. now apply detectStep_progress.
  - destruct (detectLoop_returns atan2_host arcTolerance fuel stroke Hfit
                (length stroke) 0) as (segments & Hseg & Hlen); [lia|].
    exists segments. split; [exact Hseg | lia].
  - intros i res Hi. now apply detectStep_progress.
  - lia.
Qed.

(** A host for the examples: the arc tangent of [DemoHost], kept within
    the range. *)
Definition atan2_clamped (y x : number) : number :=
  let a := DemoHost.atan2 y x in
  if (- PI <=? a) && (a <=? PI) then a else 0.

Lemma atan2_clamped_range : hostInRange atan2_clamped.
Proof.
  intros y x _ _. unfold atan2_clamped. cbv zeta.
  destruct ((- PI <=? DemoHost.atan2 y x) && (DemoHost.atan2 y x <=? PI)) eqn:H.
  - now apply andb_true_iff in H.
  - split; reflexivity.
Qed.

(** With one turn allowed to each angle loop, the quarter circle comes
    back as one Arc and the Line of its last point. *)
Example detectArcs_quarter_clamped :
  detectArcs atan2_clamped 0.5 1 quarter =
  Some [Arc (mkPoint 10 0) (mkPoint 6.123233995736766e-16 10) quarterCenter
            10.000000000000046 false;
        Line [mkPoint 6.123233995736766e-16 10]].
Proof. vm_compute. reflexivity. Qed.

Lemma detectArcs_terminates_witness :
  (exists segments,
      detectArcs atan2_clamped 0.5 1 quarter = Some segments /\
      (length segments <= Nat.max 1 (length quarter))%nat) /\
  (forall i res, (i < length quarter)%nat ->
      match detectStep quarter i res with
      | (Line _, i') => i' = (i + 1)%nat
      | (Arc _ _ _ _ _, i') => (i + 3 <= i')%nat
      end) /\
  ((length quarter < 5)%nat ->
      detectArcs atan2_clamped 0.5 1 quarter = Some [Line quarter]).
Proof.
  apply (detectArcs_terminates atan2_clamped 0.5 1 quarter);
    [exact atan2_clamped_range | lia].
Defined.

End AngleFacts.
